(** * Navidrome JSON:API helpers: query translation and pagination links

    A shallow embedding of [server/api/helpers.go] together with the parts
    of the Go standard library that the file calls ([strings], [unicode],
    [unicode/utf8], [strconv], [net/url], [net/http]) and the handful of
    [squirrel] predicate constructors it uses.

    Go strings are byte sequences, so they are embedded as [string] (a list
    of 8-bit [ascii]); [int32] values are embedded as [Z] with the
    two's-complement wrap-around written out. *)

From Stdlib Require Import ZArith List String Ascii Bool Lia DecimalString.
From Stdlib Require Import Sorting.Sorted Sorting.Permutation.
From Stdlib Require OrderedTypeEx DecimalZ DecimalPos.
Import ListNotations.

Local Open Scope string_scope.
Local Open Scope Z_scope.

(** ** Bytes and slices *)

Definition byte_val (c : ascii) : Z := Z.of_N (N_of_ascii c).

Definition byte_of (z : Z) : ascii := ascii_of_N (Z.to_N (z mod 256)).

(** [s[lo:hi]] for [0 <= lo <= hi <= len(s)]. *)
Definition slice (s : string) (lo hi : nat) : string :=
  substring lo (hi - lo) s.

(** [s[lo:]]. *)
Definition slice_from (s : string) (lo : nat) : string :=
  slice s lo (String.length s).

(** [s[i]], with the zero byte standing in where Go would panic; every use
    below is guarded by a bounds test, as in the library code. *)
Definition byte_at (s : string) (i : nat) : ascii :=
  match String.get i s with
  | Some c => c
  | None => zero
  end.

(** ** unicode/utf8 *)

Module utf8.

Definition RuneError : Z := 65533.
Definition RuneSelf : Z := 128.
Definition UTFMax : nat := 4.

Definition locb : Z := 128.
Definition hicb : Z := 191.

(** The entries of the [first] table: [as_], [xx], or a size together
    with the index of the accept range for the second byte. *)
Inductive firstInfo :=
| as_
| xx
| multi (size : nat) (range : nat).

Definition first (b : Z) : firstInfo :=
  if b <? 128 then as_
  else if b <? 194 then xx
  else if b <? 224 then multi 2 0
  else if b =? 224 then multi 3 1
  else if b <? 237 then multi 3 0
  else if b =? 237 then multi 3 2
  else if b <? 240 then multi 3 0
  else if b =? 240 then multi 4 3
  else if b <? 244 then multi 4 0
  else if b =? 244 then multi 4 4
  else xx.

Definition acceptRanges (i : nat) : Z * Z :=
  match i with
  | 0%nat => (locb, hicb)
  | 1%nat => (160, hicb)
  | 2%nat => (locb, 159)
  | 3%nat => (144, hicb)
  | _ => (locb, 143)
  end.

Definition RuneStart (b : Z) : bool := negb (Z.land b 192 =? 128).

(** [DecodeRuneInString]: the rune at the front of [s] and its width in
    bytes; [(RuneError, 0)] on the empty string and [(RuneError, 1)] on
    an invalid encoding. *)
Definition DecodeRuneInString (s : string) : Z * nat :=
  let n := String.length s in
  if (n <? 1)%nat then (RuneError, 0%nat)
  else
    let s0 := byte_val (byte_at s 0) in
    match first s0 with
    | as_ => (s0, 1%nat)
    | xx => (RuneError, 1%nat)
    | multi sz r =>
        let (lo, hi) := acceptRanges r in
        if (n <? sz)%nat then (RuneError, 1%nat)
        else
          let s1 := byte_val (byte_at s 1) in
          if (s1 <? lo) || (hi <? s1) then (RuneError, 1%nat)
          else if (sz <=? 2)%nat then
            (Z.lor (Z.shiftl (Z.land s0 31) 6) (Z.land s1 63), 2%nat)
          else
            let s2 := byte_val (byte_at s 2) in
            if (s2 <? locb) || (hicb <? s2) then (RuneError, 1%nat)
            else if (sz <=? 3)%nat then
              (Z.lor (Z.lor (Z.shiftl (Z.land s0 15) 12)
                             (Z.shiftl (Z.land s1 63) 6))
                     (Z.land s2 63), 3%nat)
            else
              let s3 := byte_val (byte_at s 3) in
              if (s3 <? locb) || (hicb <? s3) then (RuneError, 1%nat)
              else
                (Z.lor (Z.lor (Z.lor (Z.shiftl (Z.land s0 7) 18)
                                      (Z.shiftl (Z.land s1 63) 12))
                               (Z.shiftl (Z.land s2 63) 6))
                       (Z.land s3 63), 4%nat)
    end.

(** The backwards loop of [DecodeLastRuneInString]:
    [for start--; start >= lim; start-- { if RuneStart(s[start]) { break } }].
    It starts at [end - 2] and stops below [lim >= end - UTFMax], so
    [UTFMax] rounds always reach its exit. *)
Fixpoint scan_back (rounds : nat) (s : string) (lim start : Z) : Z :=
  match rounds with
  | O => start
  | S k =>
      if lim <=? start then
        if RuneStart (byte_val (byte_at s (Z.to_nat start))) then start
        else scan_back k s lim (start - 1)
      else start
  end.

Definition DecodeLastRuneInString (s : string) : Z * nat :=
  let end_ := Z.of_nat (String.length s) in
  if end_ =? 0 then (RuneError, 0%nat)
  else
    let start := end_ - 1 in
    let r := byte_val (byte_at s (Z.to_nat start)) in
    if r <? RuneSelf then (r, 1%nat)
    else
      let lim := Z.max (end_ - Z.of_nat UTFMax) 0 in
      let start := scan_back UTFMax s lim (start - 1) in
      let start := Z.max start 0 in
      let (r, size) :=
        DecodeRuneInString (slice s (Z.to_nat start) (Z.to_nat end_)) in
      if start + Z.of_nat size =? end_ then (r, size)
      else (RuneError, 1%nat).

Definition MaxRune : Z := 1114111.
Definition rune1Max : Z := 127.
Definition rune2Max : Z := 2047.
Definition rune3Max : Z := 65535.
Definition surrogateMin : Z := 55296.
Definition surrogateMax : Z := 57343.

Definition encode3 (r : Z) : string :=
  String (byte_of (Z.lor 224 (Z.shiftr r 12)))
    (String (byte_of (Z.lor 128 (Z.land (Z.shiftr r 6) 63)))
       (String (byte_of (Z.lor 128 (Z.land r 63))) EmptyString)).

(** [EncodeRune]: the UTF-8 encoding of the rune [r]; a rune out of range
    or in the surrogate range is written as [RuneError]. *)
Definition EncodeRune (r : Z) : string :=
  let i := r mod 2 ^ 32 in
  if i <=? rune1Max then String (byte_of r) EmptyString
  else if i <=? rune2Max then
    String (byte_of (Z.lor 192 (Z.shiftr r 6)))
      (String (byte_of (Z.lor 128 (Z.land r 63))) EmptyString)
  else if (MaxRune <? i) || ((surrogateMin <=? i) && (i <=? surrogateMax))
  then encode3 RuneError
  else if i <=? rune3Max then encode3 r
  else
    String (byte_of (Z.lor 240 (Z.shiftr r 18)))
      (String (byte_of (Z.lor 128 (Z.land (Z.shiftr r 12) 63)))
         (String (byte_of (Z.lor 128 (Z.land (Z.shiftr r 6) 63)))
            (String (byte_of (Z.lor 128 (Z.land r 63))) EmptyString))).

(** [string(b)] for a byte [b]: the encoding of the code point [b]. *)
Definition EncodeByteRune (b : ascii) : string := EncodeRune (byte_val b).

End utf8.

(** ** unicode *)

Module unicode.

Definition MaxLatin1 : Z := 255.

(** The [White_Space] range table, as (lo, hi) pairs. *)
Definition White_Space : list (Z * Z) :=
  [ (9, 13); (32, 32); (133, 133); (160, 160); (5760, 5760);
    (8192, 8202); (8232, 8233); (8239, 8239); (8287, 8287);
    (12288, 12288) ].

Definition in_table (t : list (Z * Z)) (r : Z) : bool :=
  existsb (fun '(lo, hi) => (lo <=? r) && (r <=? hi)) t.

Definition IsSpace (r : Z) : bool :=
  if r <=? MaxLatin1 then
    (r =? 9) || (r =? 10) || (r =? 11) || (r =? 12) || (r =? 13)
    || (r =? 32) || (r =? 133) || (r =? 160)
  else in_table White_Space r.

End unicode.

(** ** strings *)

Module strings.

(** The [asciiSpace] table: tab, newline, vertical tab, form feed,
    carriage return and space. *)
Definition asciiSpace (c : ascii) : bool :=
  let z := byte_val c in
  (z =? 9) || (z =? 10) || (z =? 11) || (z =? 12) || (z =? 13) || (z =? 32).

(** [indexFunc s f false]: the byte index of the first rune of [s] on
    which [f] is false, or [-1].  [for i, r := range s] decodes one rune
    per round; [skip] counts the bytes of the current rune still to be
    stepped over. *)
Fixpoint indexFunc_from (f : Z -> bool) (s : string) (skip : nat) (i : Z)
  : Z :=
  match s with
  | EmptyString => -1
  | String _ rest =>
      match skip with
      | S k => indexFunc_from f rest k (i + 1)
      | O =>
          let (r, size) := utf8.DecodeRuneInString s in
          if negb (f r) then i
          else indexFunc_from f rest (size - 1) (i + 1)
      end
  end.

Definition indexFunc (s : string) (f : Z -> bool) : Z :=
  indexFunc_from f s 0 0.

(** [lastIndexFunc s f false]: the loop
    [for i := len(s); i > 0; { r, size := DecodeLastRuneInString(s[0:i]);
    i -= size; if !f(r) { return i } }]; every round lowers [i], so
    [len(s)] rounds suffice. *)
Fixpoint lastIndexFunc_loop (f : Z -> bool) (s : string) (rounds : nat)
  (i : Z) : Z :=
  match rounds with
  | O => -1
  | S k =>
      if 0 <? i then
        let (r, size) :=
          utf8.DecodeLastRuneInString (slice s 0 (Z.to_nat i)) in
        let i := i - Z.of_nat size in
        if negb (f r) then i else lastIndexFunc_loop f s k i
      else -1
  end.

Definition lastIndexFunc (s : string) (f : Z -> bool) : Z :=
  lastIndexFunc_loop f s (String.length s) (Z.of_nat (String.length s)).

Definition TrimLeftFunc (s : string) (f : Z -> bool) : string :=
  let i := indexFunc s f in
  if i =? -1 then "" else slice_from s (Z.to_nat i).

Definition TrimRightFunc (s : string) (f : Z -> bool) : string :=
  let i := lastIndexFunc s f in
  let i :=
    if (0 <=? i)
       && (utf8.RuneSelf <=? byte_val (byte_at s (Z.to_nat i))) then
      let (_, wid) :=
        utf8.DecodeRuneInString (slice_from s (Z.to_nat i)) in
      i + Z.of_nat wid
    else i + 1 in
  slice s 0 (Z.to_nat i).

Definition TrimFunc (s : string) (f : Z -> bool) : string :=
  TrimRightFunc (TrimLeftFunc s f) f.

(** The second loop of [TrimSpace]: [stop] walks down from [len(s)]
    towards [start] over ASCII space bytes; a non-ASCII byte hands over
    to [TrimRightFunc]. *)
Fixpoint TrimSpace_stop (s : string) (start : nat) (stop : nat) : string :=
  match stop with
  | O => slice s start stop
  | S k =>
      if (start <? stop)%nat then
        let c := byte_at s k in
        if utf8.RuneSelf <=? byte_val c then
          TrimRightFunc (slice s start stop) unicode.IsSpace
        else if asciiSpace c then TrimSpace_stop s start k
        else slice s start stop
      else slice s start stop
  end.

(** The first loop of [TrimSpace]: [start] walks up over ASCII space
    bytes; a non-ASCII byte hands over to [TrimFunc] on [s[start:]].
    [rest] is [s[start:]]. *)
Fixpoint TrimSpace_start (s : string) (rest : string) (start : nat)
  : string :=
  match rest with
  | EmptyString => TrimSpace_stop s start (String.length s)
  | String c rest' =>
      if utf8.RuneSelf <=? byte_val c then
        TrimFunc (slice_from s start) unicode.IsSpace
      else if asciiSpace c then TrimSpace_start s rest' (S start)
      else TrimSpace_stop s start (String.length s)
  end.

Definition TrimSpace (s : string) : string := TrimSpace_start s s 0.

(** [Index(s, sep)] for a one-byte separator, as (text before, text
    after) when the separator occurs. *)
Fixpoint cut (sep : ascii) (s : string) : option (string * string) :=
  match s with
  | EmptyString => None
  | String c rest =>
      if Ascii.eqb c sep then Some (EmptyString, rest)
      else
        match cut sep rest with
        | Some (before, after) => Some (String c before, after)
        | None => None
        end
  end.

Fixpoint Count (sep : ascii) (s : string) : nat :=
  match s with
  | EmptyString => O
  | String c rest =>
      if Ascii.eqb c sep then S (Count sep rest) else Count sep rest
  end.

(** The filling loop of [genSplit] for a one-byte separator: at most [n]
    cuts, the remainder of the text last. *)
Fixpoint genSplit_loop (sep : ascii) (n : nat) (s : string) : list string :=
  match n with
  | O => [s]
  | S k =>
      match cut sep s with
      | Some (before, after) => before :: genSplit_loop sep k after
      | None => [s]
      end
  end.

(** [genSplit(s, sep, 0, n)] for a one-byte separator [sep]. *)
Definition genSplit (s : string) (sep : ascii) (n : Z) : list string :=
  if n =? 0 then []
  else
    let n := if n <? 0 then Z.of_nat (Count sep s) + 1 else n in
    let n := Z.min n (Z.of_nat (String.length s) + 1) in
    genSplit_loop sep (Z.to_nat (n - 1)) s.

Definition SplitN (s : string) (sep : ascii) (n : Z) : list string :=
  genSplit s sep n.

Definition Split (s : string) (sep : ascii) : list string :=
  genSplit s sep (-1).

Definition Join (elems : list string) (sep : string) : string :=
  String.concat sep elems.

Definition HasPrefix (s prefix : string) : bool := String.prefix prefix s.

End strings.

(** ** strconv *)

Module strconv.

(** [Itoa]: decimal digits, with a leading minus sign below zero. *)
Definition Itoa (i : Z) : string := NilZero.string_of_int (Z.to_int i).

End strconv.

(** ** regexp, for patterns that are one bracket class *)

Module regexp.

(** A pattern consisting of a single character class of ASCII ranges.
    An unanchored match succeeds when some rune of the input lies in the
    class; the class holds ASCII characters only and every byte of a
    multi-byte or invalid sequence is at least [RuneSelf], so this is the
    same as some byte of the input lying in the class. *)
Record Regexp := { class : list (ascii * ascii) }.

Definition in_class (re : Regexp) (c : ascii) : bool :=
  existsb (fun '(lo, hi) =>
             (byte_val lo <=? byte_val c) && (byte_val c <=? byte_val hi))
          (class re).

Definition Match (re : Regexp) (b : string) : bool :=
  existsb (in_class re) (list_ascii_of_string b).

End regexp.

(** ** errors *)

Module errors.

(** Error values: the two sentinels of the [model] package that this file
    tests for; errors made by [errors.New]; errors wrapping one other
    error ([fmt.Errorf] with one [%w]); errors wrapping several
    ([errors.Join], [fmt.Errorf] with several [%w]), whose [Unwrap]
    returns a slice; and errors of a type with an [Is] method of its own,
    of which the two booleans say what the method answers for the two
    sentinels, and [inner] what the type unwraps to, if anything. *)
#[local] Set Warnings "-register-all".

Inductive error :=
| ErrNotAuthorized
| ErrNotFound
| errorString (s : string)
| wrapError (msg : string) (err : error)
| joinError (errs : list error)
| customError (text : string) (isNotAuthorized isNotFound : bool)
    (inner : list error).

Definition New (text : string) : error := errorString text.

(** [err == target] for a [target] among the values above that can be
    compared by content; a joined error and an error of a foreign type
    are pointers of their own, equal to none of them. *)
Fixpoint eqb (a b : error) : bool :=
  match a, b with
  | ErrNotAuthorized, ErrNotAuthorized => true
  | ErrNotFound, ErrNotFound => true
  | errorString s, errorString t => String.eqb s t
  | wrapError m e, wrapError n f => String.eqb m n && eqb e f
  | _, _ => false
  end.

(** The answer of a custom [Is] method. *)
Definition is_method (isNotAuthorized isNotFound : bool) (target : error)
  : bool :=
  match target with
  | ErrNotAuthorized => isNotAuthorized
  | ErrNotFound => isNotFound
  | _ => false
  end.

(** [Is]: whether [err], or an error in the tree that unwrapping [err]
    opens, is [target] or says through its [Is] method that it is. *)
Fixpoint Is (err target : error) : bool :=
  if eqb err target then true
  else
    match err with
    | wrapError _ inner => Is inner target
    | joinError errs => existsb (fun e => Is e target) errs
    | customError _ na nf inner =>
        is_method na nf target || existsb (fun e => Is e target) inner
    | _ => false
    end.

End errors.

(** ** net/http *)

Module http.

Definition StatusForbidden : Z := 403.
Definition StatusNotFound : Z := 404.
Definition StatusInternalServerError : Z := 500.

(** [StatusText], on the status codes this file passes to it; the empty
    string is what the library returns for a code it does not know. *)
Definition StatusText (code : Z) : string :=
  if code =? StatusForbidden then "Forbidden"
  else if code =? StatusNotFound then "Not Found"
  else if code =? StatusInternalServerError then "Internal Server Error"
  else "".

End http.

(** ** net/url *)

Module url.

(** [Values] maps a key to its list of values.  The embedding is an
    association list with one entry per key; the order of the entries
    stands for Go's unspecified map order and [Encode] does not depend
    on it, since it sorts the keys. *)
Definition Values := list (string * list string).

(** [v[key]], nil for a missing key. *)
Fixpoint lookup (v : Values) (key : string) : list string :=
  match v with
  | [] => []
  | (k, vs) :: rest => if String.eqb k key then vs else lookup rest key
  end.

(** [v[key] = append(v[key], value)]. *)
Fixpoint Add (v : Values) (key value : string) : Values :=
  match v with
  | [] => [(key, [value])]
  | (k, vs) :: rest =>
      if String.eqb k key then (k, (vs ++ [value])%list) :: rest
      else (k, vs) :: Add rest key value
  end.

Definition upperhex (n : Z) : ascii :=
  byte_at "0123456789ABCDEF" (Z.to_nat n).

(** [shouldEscape(c, encodeQueryComponent)]. *)
Definition shouldEscape (c : ascii) : bool :=
  let z := byte_val c in
  if ((97 <=? z) && (z <=? 122)) || ((65 <=? z) && (z <=? 90))
     || ((48 <=? z) && (z <=? 57)) then false
  else if (z =? 45) || (z =? 95) || (z =? 46) || (z =? 126) then false
  else true.

(** [QueryEscape]: a space becomes [+], any other byte that must be
    escaped becomes [%XX]. *)
Fixpoint QueryEscape (s : string) : string :=
  match s with
  | EmptyString => EmptyString
  | String c rest =>
      if shouldEscape c then
        if Ascii.eqb c " " then String "+" (QueryEscape rest)
        else
          String "%"
            (String (upperhex (Z.shiftr (byte_val c) 4))
               (String (upperhex (Z.land (byte_val c) 15))
                  (QueryEscape rest)))
      else String c (QueryEscape rest)
  end.

Fixpoint insert_sorted (k : string) (l : list string) : list string :=
  match l with
  | [] => [k]
  | x :: rest =>
      if String.leb k x then k :: l else x :: insert_sorted k rest
  end.

(** [slices.Sort] on strings: ascending byte-wise order. *)
Definition Sort (l : list string) : list string :=
  fold_right insert_sorted [] l.

(** The inner loop of [Encode] over the values of one key. *)
Fixpoint Encode_values (keyEscaped : string) (vs : list string)
  (buf : string) : string :=
  match vs with
  | [] => buf
  | v :: rest =>
      let buf :=
        if (0 <? String.length buf)%nat then buf ++ "&" else buf in
      Encode_values keyEscaped rest (buf ++ keyEscaped ++ "=" ++ QueryEscape v)
  end.

(** The outer loop of [Encode] over the sorted keys. *)
Fixpoint Encode_keys (v : Values) (keys : list string) (buf : string)
  : string :=
  match keys with
  | [] => buf
  | k :: rest =>
      Encode_keys v rest (Encode_values (QueryEscape k) (lookup v k) buf)
  end.

Definition Encode (v : Values) : string :=
  match v with
  | [] => ""
  | _ => Encode_keys v (Sort (map fst v)) ""
  end.

End url.

(** ** squirrel *)

Module squirrel.

(** The predicate builders this file uses.  [Eq], [Like], [Gt], [GtOrEq],
    [Lt] and [LtOrEq] are maps from column to value, built here with one
    entry each; [And] and [Or] are lists of predicates. *)
#[local] Set Warnings "-register-all".

Inductive Sqlizer :=
| Eq (column value : string)
| Like (column value : string)
| Gt (column value : string)
| GtOrEq (column value : string)
| Lt (column value : string)
| LtOrEq (column value : string)
| And (parts : list Sqlizer)
| Or (parts : list Sqlizer).

End squirrel.

(** ** Run-time panics *)

Inductive runtimeError :=
| NilDereference
| IndexOutOfRange (index length : nat)
| DivideByZero.

Inductive Result (A : Type) :=
| Ok (a : A)
| Panic (e : runtimeError).

Arguments Ok {A} a.
Arguments Panic {A} e.

Definition bind {A B : Type} (m : Result A) (f : A -> Result B) : Result B :=
  match m with
  | Ok a => f a
  | Panic e => Panic e
  end.

Notation "x <- m ;; k" := (bind m (fun x => k))
  (at level 61, m at next level, right associativity).

(** [*p]. *)
Definition deref {A : Type} (p : option A) : Result A :=
  match p with
  | Some a => Ok a
  | None => Panic NilDereference
  end.

(** [l[i]]. *)
Definition index {A : Type} (l : list A) (i : nat) : Result A :=
  match nth_error l i with
  | Some a => Ok a
  | None => Panic (IndexOutOfRange i (List.length l))
  end.

(** [append(s, x)] on a slice. *)
Definition go_append {A : Type} (s : list A) (x : A) : list A :=
  (s ++ [x])%list.

(** ** int32 arithmetic *)

Definition int32_min : Z := - 2 ^ 31.
Definition int32_max : Z := 2 ^ 31 - 1.

Definition is_int32 (z : Z) : Prop := int32_min <= z <= int32_max.

Definition wrap32 (z : Z) : Z := (z + 2 ^ 31) mod 2 ^ 32 - 2 ^ 31.

Definition add32 (a b : Z) : Z := wrap32 (a + b).
Definition sub32 (a b : Z) : Z := wrap32 (a - b).
Definition mul32 (a b : Z) : Z := wrap32 (a * b).

(** Integer division truncates towards zero and panics on a zero divisor. *)
Definition div32 (a b : Z) : Result Z :=
  if b =? 0 then Panic DivideByZero else Ok (wrap32 (Z.quot a b)).

(** * Package api: helpers.go *)

(** ** Types the file uses *)

(** Modelled from the spec: the generated request-parameter struct
    [GetTracksParams] is declared outside this file.  The spec lists its
    fields (one optional list per filter family, optional sort string,
    optional page offset and limit, optional include string); the field
    names and pointer types are those helpers.go reads. *)
Record GetTracksParams := {
  FilterEquals : option (list string);
  FilterContains : option (list string);
  FilterStartsWith : option (list string);
  FilterEndsWith : option (list string);
  FilterGreaterThan : option (list string);
  FilterGreaterOrEqual : option (list string);
  FilterLessThan : option (list string);
  FilterLessOrEqual : option (list string);
  PageOffset : option Z;
  PageLimit : option Z;
  Sort : option string;
  Include : option string
}.

(** Modelled from the spec: [model.QueryOptions] is declared outside this
    file; these are the four fields [toQueryOptions] sets. *)
Record QueryOptions := {
  qoMax : Z;
  qoOffset : Z;
  qoFilters : squirrel.Sqlizer;
  qoSort : string
}.

(** Modelled from the spec: the generated document types [ErrorObject],
    [ErrorList], [PaginationLinks] and [PaginationMeta] are declared
    outside this file; the fields are the ones helpers.go fills in. *)
Record ErrorObject := {
  Status : option string;
  Title : option string;
  Detail : option string
}.

Record ErrorList := { Errors : list ErrorObject }.

Record PaginationLinks := {
  First : option string;
  Last : option string;
  Next : option string;
  Prev : option string
}.

Record PaginationMeta := {
  CurrentPage : option Z;
  TotalItems : option Z;
  TotalPages : option Z
}.

(** What a handler has done to its [http.ResponseWriter]: the header map
    (one value per key, as [Header().Set] leaves it), the status passed to
    [WriteHeader], and the documents handed to the JSON encoder. *)
Record ResponseWriter := {
  rwHeader : list (string * string);
  rwStatus : option Z;
  rwBody : list ErrorList
}.

Definition newResponseWriter : ResponseWriter :=
  {| rwHeader := []; rwStatus := None; rwBody := [] |}.

Fixpoint Header_Set (h : list (string * string)) (key value : string)
  : list (string * string) :=
  match h with
  | [] => [(key, value)]
  | (k, x) :: rest =>
      if String.eqb k key then (k, value) :: rest
      else (k, x) :: Header_Set rest key value
  end.

(** [Header().Get]: the value stored under a key, if any. *)
Fixpoint Header_Get (h : list (string * string)) (key : string)
  : option string :=
  match h with
  | [] => None
  | (k, x) :: rest => if String.eqb k key then Some x else Header_Get rest key
  end.

Definition setHeader (w : ResponseWriter) (key value : string)
  : ResponseWriter :=
  {| rwHeader := Header_Set (rwHeader w) key value;
     rwStatus := rwStatus w;
     rwBody := rwBody w |}.

(** [WriteHeader]: the first call fixes the status. *)
Definition WriteHeader (w : ResponseWriter) (code : Z) : ResponseWriter :=
  {| rwHeader := rwHeader w;
     rwStatus := match rwStatus w with Some c => Some c | None => Some code end;
     rwBody := rwBody w |}.

(** [json.NewEncoder(w).Encode(doc)]: one [Write] of the document; a
    [Write] before any [WriteHeader] sends the status 200 first. *)
Definition jsonEncode (w : ResponseWriter) (doc : ErrorList)
  : ResponseWriter :=
  {| rwHeader := rwHeader w;
     rwStatus :=
       match rwStatus w with Some c => Some c | None => Some 200 end;
     rwBody := go_append (rwBody w) doc |}.

(** ** The generic pointer helpers [p] and [v] *)

(** Go's [comparable] constraint, with the zero value of the type. *)
Class Comparable (T : Type) := {
  zero_value : T;
  equal : T -> T -> bool
}.

#[export] Instance Comparable_string : Comparable string :=
  {| zero_value := ""; equal := String.eqb |}.

#[export] Instance Comparable_int32 : Comparable Z :=
  {| zero_value := 0; equal := Z.eqb |}.

Definition p {T : Type} `{Comparable T} (t : T) : option T :=
  if equal t zero_value then None else Some t.

Definition v {T : Type} `{Comparable T} (p : option T) : T :=
  match p with
  | None => zero_value
  | Some t => t
  end.

(** ** toSortParams *)

(** The pattern [[a-zA-Z0-9_\-]]. *)
Definition validSortPattern : regexp.Regexp :=
  {| regexp.class :=
       [ ("a", "z"); ("A", "Z"); ("0", "9"); ("_", "_"); ("-", "-") ]%char |}.

(** The body of the loop over [inputCols], with [resultCols] as built so
    far; the first invalid column ends the function. *)
Fixpoint toSortParams_loop (inputCols : list string) (resultCols : list string)
  : string * option errors.error :=
  match inputCols with
  | [] => (strings.Join resultCols ",", None)
  | col :: rest =>
      let trimmedCol := strings.TrimSpace col in
      if String.eqb trimmedCol "" then toSortParams_loop rest resultCols
      else if negb (regexp.Match validSortPattern
                      (utf8.EncodeByteRune (byte_at trimmedCol 0))) then
        ("", Some (errors.New ("invalid sort parameter: " ++ trimmedCol)))
      else
        let colName := strings.TrimSpace (slice_from trimmedCol 1) in
        if strings.HasPrefix trimmedCol "-" then
          toSortParams_loop rest (go_append resultCols (colName ++ " desc"))
        else
          toSortParams_loop rest (go_append resultCols (trimmedCol ++ " asc"))
  end.

Definition toSortParams (sort : option string) : string * option errors.error :=
  match sort with
  | None => ("", None)
  | Some s =>
      if String.eqb s "" then ("", None)
      else
        let inputCols := strings.Split s "," in
        toSortParams_loop inputCols []
  end.

(** ** toQueryOptions *)

(** The loop of the [parseFilter] closure over [*fs]; [filters] is the
    captured conjunction, returned as extended. *)
Fixpoint parseFilter_loop (op : string -> string -> squirrel.Sqlizer)
  (fs : list string) (filters : list squirrel.Sqlizer)
  : Result (list squirrel.Sqlizer) :=
  match fs with
  | [] => Ok filters
  | f :: rest =>
      let parts := strings.SplitN f ":" 2 in
      field <- index parts 0 ;;
      value <- index parts 1 ;;
      parseFilter_loop op rest (go_append filters (op field value))
  end.

Definition parseFilter (fs : option (list string))
  (op : string -> string -> squirrel.Sqlizer)
  (filters : list squirrel.Sqlizer) : Result (list squirrel.Sqlizer) :=
  match fs with
  | Some l => parseFilter_loop op l filters
  | None => Ok filters
  end.

(** The eight closures passed to [parseFilter]. *)
Definition opEquals (f v : string) := squirrel.Eq f v.
Definition opContains (f v : string) := squirrel.Like f ("%" ++ v ++ "%").
Definition opStartsWith (f v : string) := squirrel.Like f (v ++ "%").
Definition opEndsWith (f v : string) := squirrel.Like f ("%" ++ v).
Definition opGreaterThan (f v : string) := squirrel.Gt f v.
Definition opGreaterOrEqual (f v : string) := squirrel.GtOrEq f v.
Definition opLessThan (f v : string) := squirrel.Lt f v.
Definition opLessOrEqual (f v : string) := squirrel.LtOrEq f v.

(** A line written by [log.Warn]: the message and the error logged. *)
Definition logLine : Type := string * errors.error.

(** [toQueryOptions]: the query descriptor, with the warnings logged on
    the way. *)
Definition toQueryOptions (params : GetTracksParams)
  : Result (QueryOptions * list logLine) :=
  let filters := [] in
  filters <- parseFilter (FilterEquals params) opEquals filters ;;
  filters <- parseFilter (FilterContains params) opContains filters ;;
  filters <- parseFilter (FilterStartsWith params) opStartsWith filters ;;
  filters <- parseFilter (FilterEndsWith params) opEndsWith filters ;;
  filters <- parseFilter (FilterGreaterThan params) opGreaterThan filters ;;
  filters <- parseFilter (FilterGreaterOrEqual params) opGreaterOrEqual filters ;;
  filters <- parseFilter (FilterLessThan params) opLessThan filters ;;
  filters <- parseFilter (FilterLessOrEqual params) opLessOrEqual filters ;;
  let offset := v (PageOffset params) in
  let limit := v (PageLimit params) in
  let (sort, err) := toSortParams (Sort params) in
  let log :=
    match err with
    | Some e => [("Ignoring invalid sort parameter", e)]
    | None => []
    end in
  Ok ({| qoMax := limit; qoOffset := offset;
         qoFilters := squirrel.And filters; qoSort := sort |}, log).

(** ** apiErrorHandler *)

Definition apiErrorHandler (w : ResponseWriter) (err : errors.error)
  : ResponseWriter :=
  let res :=
    if errors.Is err errors.ErrNotAuthorized then
      {| Status := p (strconv.Itoa http.StatusForbidden);
         Title := p (http.StatusText http.StatusForbidden);
         Detail := None |}
    else if errors.Is err errors.ErrNotFound then
      {| Status := p (strconv.Itoa http.StatusNotFound);
         Title := p (http.StatusText http.StatusNotFound);
         Detail := None |}
    else
      {| Status := p (strconv.Itoa http.StatusInternalServerError);
         Title := p (http.StatusText http.StatusInternalServerError);
         Detail := None |} in
  let w := setHeader w "Content-Type" "application/vnd.api+json" in
  let w := WriteHeader w 403 in
  jsonEncode w {| Errors := [res] |}.

(** ** buildPaginationLinksAndMeta *)

(** The [addFilterParams] closure: one [query.Add] per value. *)
Definition addFilterParams (paramName : string) (values : option (list string))
  (query : url.Values) : url.Values :=
  match values with
  | None => query
  | Some l => fold_left (fun q value => url.Add q paramName value) l query
  end.

(** The query that [buildLink] assembles for page index [page]. *)
Definition buildLink_query (params : GetTracksParams) (pageLimit page : Z)
  : url.Values :=
  let query : url.Values := [] in
  let query := url.Add query "page[offset]" (strconv.Itoa (mul32 page pageLimit)) in
  let query := url.Add query "page[limit]" (strconv.Itoa pageLimit) in
  let query := addFilterParams "filter[equals]" (FilterEquals params) query in
  let query := addFilterParams "filter[contains]" (FilterContains params) query in
  let query := addFilterParams "filter[lessThan]" (FilterLessThan params) query in
  let query := addFilterParams "filter[lessOrEqual]" (FilterLessOrEqual params) query in
  let query := addFilterParams "filter[greaterThan]" (FilterGreaterThan params) query in
  let query := addFilterParams "filter[greaterOrEqual]" (FilterGreaterOrEqual params) query in
  let query := addFilterParams "filter[startsWith]" (FilterStartsWith params) query in
  let query := addFilterParams "filter[endsWith]" (FilterEndsWith params) query in
  let query :=
    match Sort params with
    | Some s => url.Add query "sort" s
    | None => query
    end in
  match Include params with
  | Some i => url.Add query "include" i
  | None => query
  end.

(** The [buildLink] closure; the pointer it returns is never nil. *)
Definition buildLink (params : GetTracksParams) (resourceName : string)
  (pageLimit page : Z) : string :=
  let query := buildLink_query params pageLimit page in
  let link := resourceName in
  if (0 <? List.length query)%nat then link ++ "?" ++ url.Encode query
  else link.

Definition buildPaginationLinksAndMeta (totalItems : Z)
  (params : GetTracksParams) (resourceName : string)
  : Result (PaginationLinks * PaginationMeta) :=
  pageLimit <- deref (PageLimit params) ;;
  pageOffset <- deref (PageOffset params) ;;
  totalPages <- div32 (sub32 (add32 totalItems pageLimit) 1) pageLimit ;;
  quotient <- div32 pageOffset pageLimit ;;
  let currentPage := add32 quotient 1 in
  let meta :=
    {| CurrentPage := Some currentPage;
       TotalItems := Some totalItems;
       TotalPages := Some totalPages |} in
  let first :=
    if 0 <? totalPages then Some (buildLink params resourceName pageLimit 0)
    else None in
  let last :=
    if 0 <? totalPages then
      Some (buildLink params resourceName pageLimit (sub32 totalPages 1))
    else None in
  let next :=
    if currentPage <? totalPages then
      Some (buildLink params resourceName pageLimit currentPage)
    else None in
  let prev :=
    if 1 <? currentPage then
      Some (buildLink params resourceName pageLimit (sub32 currentPage 2))
    else None in
  let links :=
    {| First := first; Last := last; Next := next; Prev := prev |} in
  Ok (links, meta).

(** ** toAPITrack and its helpers *)

(** [l[i] = x]. *)
Definition store {A : Type} (l : list A) (i : nat) (x : A) : Result (list A) :=
  if (i <? List.length l)%nat
  then Ok (firstn i l ++ x :: skipn (S i) l)%list
  else Panic (IndexOutOfRange i (List.length l)).

Section Tracks.

(** The type of [model.MediaFile.Duration], which this file only copies. *)
Variable DurationT : Type.

(** The generated constants for resource types and artist roles. *)
Variables ResourceTypeTrack ResourceTypeArtist ResourceTypeAlbum : string.
Variables ArtistRoleAlbumArtist ArtistRoleArtist : string.

(** Modelled from the spec: [model.MediaFile] is declared outside this
    file; these are the fields [toAPITrack] and its helpers read. *)
Record MediaFile := {
  mfID : string;
  mfAlbum : string;
  mfAlbumArtist : string;
  mfArtist : string;
  mfBitRate : Z;
  mfBpm : Z;
  mfChannels : Z;
  mfComment : string;
  mfDiscNumber : Z;
  mfDuration : DurationT;
  mfGenre : string;
  mfMbzTrackID : string;
  mfSize : Z;
  mfTitle : string;
  mfTrackNumber : Z;
  mfMbzReleaseTrackID : string;
  mfYear : Z;
  mfAlbumID : string;
  mfAlbumArtistID : string;
  mfArtistID : string
}.

(** The method [MediaFile.ContentType], defined outside this file. *)
Variable ContentType : MediaFile -> string.

(** Modelled from the spec: the generated document types for tracks are
    declared outside this file; the fields are the ones [toAPITrack] and
    its helpers fill in, pointers as options. *)
Record ResourceObject := {
  roType : string;
  roId : string
}.

Record TrackArtistRelationship := {
  tarData : ResourceObject;
  tarMetaRole : string
}.

Record AlbumTrackRelationship := { atrData : ResourceObject }.

Record TrackAttributes := {
  attrAlbum : string;
  attrAlbumartist : string;
  attrArtist : string;
  attrBitrate : Z;
  attrBpm : option Z;
  attrChannels : Z;
  attrComments : option string;
  attrDisc : option Z;
  attrDuration : DurationT;
  attrGenre : option string;
  attrMimetype : string;
  attrRecordingMbid : option string;
  attrSize : Z;
  attrTitle : string;
  attrTrack : Z;
  attrTrackMbid : option string;
  attrYear : option Z
}.

Record TrackRelationships := {
  relAlbums : option (list AlbumTrackRelationship);
  relArtists : list TrackArtistRelationship
}.

Record Track := {
  trackType : string;
  trackId : string;
  trackAttributes : option TrackAttributes;
  trackRelationships : option TrackRelationships
}.

(** The zero value of [Track], as [make] fills a slice with. *)
Definition zeroTrack : Track :=
  {| trackType := ""; trackId := "";
     trackAttributes := None; trackRelationships := None |}.

Definition toArtistRelationship (id : string) (artist : string)
  : TrackArtistRelationship :=
  {| tarData := {| roType := ResourceTypeArtist; roId := id |};
     tarMetaRole := artist |}.

Definition toAlbumRelationship (mf : MediaFile) : AlbumTrackRelationship :=
  {| atrData := {| roType := ResourceTypeAlbum; roId := mfAlbumID mf |} |}.

Definition trackArtistRelationships (mf : MediaFile)
  : list TrackArtistRelationship :=
  let r := [] in
  let r :=
    if negb (String.eqb (mfAlbumArtistID mf) "")
    then go_append r (toArtistRelationship (mfAlbumArtistID mf)
                        ArtistRoleAlbumArtist)
    else r in
  let r :=
    if negb (String.eqb (mfArtistID mf) "")
    then go_append r (toArtistRelationship (mfArtistID mf) ArtistRoleArtist)
    else r in
  r.

Definition toAPITrack (mf : MediaFile) : Track :=
  {| trackType := ResourceTypeTrack;
     trackId := mfID mf;
     trackAttributes :=
       Some {| attrAlbum := mfAlbum mf;
               attrAlbumartist := mfAlbumArtist mf;
               attrArtist := mfArtist mf;
               attrBitrate := mfBitRate mf;
               attrBpm := p (mfBpm mf);
               attrChannels := mfChannels mf;
               attrComments := p (mfComment mf);
               attrDisc := p (mfDiscNumber mf);
               attrDuration := mfDuration mf;
               attrGenre := p (mfGenre mf);
               attrMimetype := ContentType mf;
               attrRecordingMbid := p (mfMbzTrackID mf);
               attrSize := mfSize mf;
               attrTitle := mfTitle mf;
               attrTrack := mfTrackNumber mf;
               attrTrackMbid := p (mfMbzReleaseTrackID mf);
               attrYear := p (mfYear mf) |};
     trackRelationships :=
       Some {| relAlbums := Some [toAlbumRelationship mf];
               relArtists := trackArtistRelationships mf |} |}.

(** The loop [for i := range mfs { tracks[i] = toAPITrack(mfs[i]) }],
    with [n] rounds to go from index [i]. *)
Fixpoint toAPITracks_loop (mfs : list MediaFile) (n i : nat)
  (tracks : list Track) : Result (list Track) :=
  match n with
  | O => Ok tracks
  | S n' =>
      mf <- index mfs i ;;
      tracks <- store tracks i (toAPITrack mf) ;;
      toAPITracks_loop mfs n' (S i) tracks
  end.

Definition toAPITracks (mfs : list MediaFile) : Result (list Track) :=
  let tracks := repeat zeroTrack (List.length mfs) in
  toAPITracks_loop mfs (List.length mfs) 0 tracks.

End Tracks.

(** * Reference renderings used in the statements *)

(** The query entries of one filter family: one (name, value) pair per
    value of the list, none for an absent list. *)
Definition family_entries (paramName : string) (values : option (list string))
  : list (string * string) :=
  match values with
  | Some l => map (pair paramName) l
  | None => []
  end.

Definition optional_entry (paramName : string) (value : option string)
  : list (string * string) :=
  match value with
  | Some x => [(paramName, x)]
  | None => []
  end.

(** The entries that come before and after [page[offset]] in a link, in
    ascending key order. *)
Definition entries_before_offset (params : GetTracksParams) (limit : string)
  : list (string * string) :=
  (family_entries "filter[contains]" (FilterContains params)
   ++ family_entries "filter[endsWith]" (FilterEndsWith params)
   ++ family_entries "filter[equals]" (FilterEquals params)
   ++ family_entries "filter[greaterOrEqual]" (FilterGreaterOrEqual params)
   ++ family_entries "filter[greaterThan]" (FilterGreaterThan params)
   ++ family_entries "filter[lessOrEqual]" (FilterLessOrEqual params)
   ++ family_entries "filter[lessThan]" (FilterLessThan params)
   ++ family_entries "filter[startsWith]" (FilterStartsWith params)
   ++ optional_entry "include" (Include params)
   ++ [("page[limit]", limit)])%list.

Definition entries_after_offset (params : GetTracksParams)
  : list (string * string) :=
  optional_entry "sort" (Sort params).

(** All entries of a link whose page window is [limit] and [offset]. *)
Definition link_entries (params : GetTracksParams) (limit offset : string)
  : list (string * string) :=
  (entries_before_offset params limit
   ++ [("page[offset]", offset)]
   ++ entries_after_offset params)%list.

(** One entry as it is written: escaped key, [=], escaped value. *)
Definition render_entry (e : string * string) : string :=
  url.QueryEscape (fst e) ++ "=" ++ url.QueryEscape (snd e).

Definition render_query (entries : list (string * string)) : string :=
  strings.Join (map render_entry entries) "&".

(** The link for the page window [limit], [offset]. *)
Definition link_for (params : GetTracksParams) (resourceName : string)
  (limit offset : Z) : string :=
  resourceName ++ "?"
  ++ render_query (link_entries params (strconv.Itoa limit) (strconv.Itoa offset)).

(** A request with no filter, sort or include parameter and the given page
    window; the concrete requests of the examples are built from it. *)
Definition pageParams (limit offset : option Z) : GetTracksParams :=
  {| FilterEquals := None; FilterContains := None;
     FilterStartsWith := None; FilterEndsWith := None;
     FilterGreaterThan := None; FilterGreaterOrEqual := None;
     FilterLessThan := None; FilterLessOrEqual := None;
     PageOffset := offset; PageLimit := limit;
     Sort := None; Include := None |}.

(** The same request with another page offset, as a client makes it when
    it follows a link. *)
Definition withPageOffset (params : GetTracksParams) (offset : option Z)
  : GetTracksParams :=
  {| FilterEquals := FilterEquals params;
     FilterContains := FilterContains params;
     FilterStartsWith := FilterStartsWith params;
     FilterEndsWith := FilterEndsWith params;
     FilterGreaterThan := FilterGreaterThan params;
     FilterGreaterOrEqual := FilterGreaterOrEqual params;
     FilterLessThan := FilterLessThan params;
     FilterLessOrEqual := FilterLessOrEqual params;
     PageOffset := offset;
     PageLimit := PageLimit params;
     Sort := Sort params;
     Include := Include params |}.

(** The bytes an escaped query component can hold: letters, digits, the
    marks [-], [_], [.], [~], and the escapes' [%] and [+]. *)
Definition query_safe (c : ascii) : bool :=
  let z := byte_val c in
  ((97 <=? z) && (z <=? 122)) || ((65 <=? z) && (z <=? 90))
  || ((48 <=? z) && (z <=? 57))
  || (z =? 45) || (z =? 95) || (z =? 46) || (z =? 126)
  || (z =? 37) || (z =? 43).

(** The value of a hexadecimal digit. *)
Definition unhex (c : ascii) : option Z :=
  let z := byte_val c in
  if (48 <=? z) && (z <=? 57) then Some (z - 48)
  else if (65 <=? z) && (z <=? 70) then Some (z - 55)
  else if (97 <=? z) && (z <=? 102) then Some (z - 87)
  else None.

(** Reading an escaped query component back: [%XX] is the byte [XX], [+]
    is a space, any other byte is itself. *)
Fixpoint unescape (s : string) : option string :=
  match s with
  | EmptyString => Some EmptyString
  | String c rest =>
      if Ascii.eqb c "%" then
        match rest with
        | String h (String l rest') =>
            match unhex h, unhex l with
            | Some a, Some b =>
                option_map (String (byte_of (a * 16 + b))) (unescape rest')
            | _, _ => None
            end
        | _ => None
        end
      else if Ascii.eqb c "+" then option_map (String " ") (unescape rest)
      else option_map (String c) (unescape rest)
  end.

(** The values a list of query entries holds under a key, in order. *)
Definition entry_values (k : string) (entries : list (string * string))
  : list string :=
  map snd (filter (fun e => String.eqb (fst e) k) entries).

(** The four links of a response, in the order first, last, next, prev. *)
Definition all_links (links : PaginationLinks) : list (option string) :=
  [First links; Last links; Next links; Prev links].

(** Whether a byte occurs in a string. *)
Definition has_byte (c : ascii) (s : string) : Prop :=
  In c (list_ascii_of_string s).

(** [c] is the clause that [op] makes of [token] cut at its first colon. *)
Definition clause_for (op : string -> string -> squirrel.Sqlizer)
  (token : string) (c : squirrel.Sqlizer) : Prop :=
  exists field value : string,
    token = field ++ ":" ++ value
    /\ ~ has_byte ":" field
    /\ c = op field value.

(** A single comparison, as opposed to a nested [And] or [Or]. *)
Definition is_comparison (c : squirrel.Sqlizer) : Prop :=
  match c with
  | squirrel.And _ | squirrel.Or _ => False
  | _ => True
  end.

(** The lists behind the eight filter parameters, nil when absent. *)
Definition values_of (o : option (list string)) : list string :=
  match o with
  | Some l => l
  | None => []
  end.

(** Every filter token of a request. *)
Definition all_filter_tokens (params : GetTracksParams) : list string :=
  (values_of (FilterEquals params) ++ values_of (FilterContains params)
   ++ values_of (FilterStartsWith params) ++ values_of (FilterEndsWith params)
   ++ values_of (FilterGreaterThan params)
   ++ values_of (FilterGreaterOrEqual params)
   ++ values_of (FilterLessThan params)
   ++ values_of (FilterLessOrEqual params))%list.

(** The trimmed, non-empty columns among [cols], in order. *)
Definition trimmed_columns (cols : list string) : list string :=
  filter (fun t => negb (String.eqb t "")) (map strings.TrimSpace cols).

(** The sort tokens of a sort string: its comma-separated pieces, trimmed,
    the empty ones left out. *)
Definition sort_tokens (s : string) : list string :=
  trimmed_columns (strings.Split s ",").

(** The charset [[A-Za-z0-9_-]]. *)
Definition allowed_byte (c : ascii) : bool :=
  let z := byte_val c in
  ((97 <=? z) && (z <=? 122)) || ((65 <=? z) && (z <=? 90))
  || ((48 <=? z) && (z <=? 57)) || (z =? 95) || (z =? 45).

(** The check the sort compiler makes on a token: its first byte. *)
Definition valid_token (t : string) : bool := allowed_byte (byte_at t 0).

(** What the sort compiler writes for a token: a leading [-] gives the
    rest of the token, trimmed once more, descending; any other token is
    ascending as it stands. *)
Definition render_token (t : string) : string :=
  if strings.HasPrefix t "-"
  then strings.TrimSpace (slice_from t 1) ++ " desc"
  else t ++ " asc".

(** A token as the spec's validation rule wants it: the first byte in
    the charset and, behind a leading [-], nothing or a byte of the
    charset. *)
Definition spec_valid_token (t : string) : bool :=
  valid_token t
  && (negb (strings.HasPrefix t "-")
      || (String.length t =? 1)%nat
      || allowed_byte (byte_at t 1)).

(** The rendering in the spec's words: the text after the [-] as it
    stands. *)
Definition spec_render_token (t : string) : string :=
  if strings.HasPrefix t "-" then slice_from t 1 ++ " desc" else t ++ " asc".

(** The error the sort compiler returns for an offending token. *)
Definition invalid_sort (t : string) : errors.error :=
  errors.New ("invalid sort parameter: " ++ t).

(** The UTF-8 text of a sequence of runes. *)
Fixpoint encode_runes (rs : list Z) : string :=
  match rs with
  | [] => ""
  | r :: rest => utf8.EncodeRune r ++ encode_runes rest
  end.

Definition comma : Z := 44.

(** A text made of commas and white space only: the encoding of runes
    each of which is a comma or a white-space rune. *)
Definition commas_and_spaces (s : string) : Prop :=
  exists rs : list Z,
    Forall (fun r => r = comma \/ unicode.IsSpace r = true) rs
    /\ s = encode_runes rs.

(** The white-space runes, listed. *)
Definition space_runes : list Z :=
  [ 9; 10; 11; 12; 13; 32; 133; 160; 5760;
    8192; 8193; 8194; 8195; 8196; 8197; 8198; 8199; 8200; 8201; 8202;
    8232; 8233; 8239; 8287; 12288 ].

(** ** Auxiliary notions of the proofs *)

Definition str_lt (a b : string) : Prop := String.compare a b = Lt.

Definition keys (q : url.Values) : list string := map fst q.

(** A query is well formed over a key list [K] when its keys are distinct
    and drawn from [K]. *)
Definition wf_query (K : list string) (q : url.Values) : Prop :=
  NoDup (keys q) /\ incl (keys q) K.

(** Appending rendered entries to the buffer the way [Encode] does: an
    ampersand first unless the buffer is still empty. *)
Definition emit (buf : string) (entries : list string) : string :=
  fold_left
    (fun buf e =>
       (if (0 <? String.length buf)%nat then buf ++ "&" else buf) ++ e)
    entries buf.

(** Every key the link builder can add, in ascending order. *)
Definition link_keys : list string :=
  [ "filter[contains]"; "filter[endsWith]"; "filter[equals]";
    "filter[greaterOrEqual]"; "filter[greaterThan]"; "filter[lessOrEqual]";
    "filter[lessThan]"; "filter[startsWith]"; "include"; "page[limit]";
    "page[offset]"; "sort" ].

Definition optional_value (o : option string) : list string :=
  match o with
  | Some x => [x]
  | None => []
  end.

(** The page count and the current page as the code computes them. *)
Definition code_totalPages (totalItems pageLimit : Z) : Z :=
  Z.quot (sub32 (add32 totalItems pageLimit) 1) pageLimit.

Definition code_currentPage (pageOffset pageLimit : Z) : Z :=
  add32 (Z.quot pageOffset pageLimit) 1.

(** What the proofs need of one white-space rune: its encoding holds no
    comma, decodes back to the rune in front of any text, and starts with
    an ASCII white-space byte when it is one byte long and with a
    non-ASCII byte otherwise. *)
Definition space_encoding_ok (r : Z) : Prop :=
  ~ has_byte "," (utf8.EncodeRune r)
  /\ (forall rest : string,
         utf8.DecodeRuneInString (utf8.EncodeRune r ++ rest)
         = (r, String.length (utf8.EncodeRune r)))
  /\ exists (c : ascii) (tail : string),
       utf8.EncodeRune r = String c tail
       /\ ((tail = "" /\ strings.asciiSpace c = true)
           \/ (utf8.RuneSelf <=? byte_val c) = true).

(** * Facts about the library functions *)

(** ** Strings *)

Lemma append_assoc (a b c : string) : (a ++ b) ++ c = a ++ (b ++ c).
Proof.
  induction a as [|x a IH]; simpl; [reflexivity|].
  now rewrite IH.
Qed.

Lemma append_nil_r (a : string) : a ++ "" = a.
Proof.
  induction a as [|x a IH]; simpl; [reflexivity|].
  now rewrite IH.
Qed.

Lemma length_append (a b : string) :
  String.length (a ++ b) = (String.length a + String.length b)%nat.
Proof.
  induction a as [|x a IH]; simpl; [reflexivity|].
  now rewrite IH.
Qed.

Lemma length_zero_iff (a : string) : String.length a = O <-> a = "".
Proof.
  destruct a; simpl; split; intros H; try reflexivity; discriminate.
Qed.

Lemma substring_zero_length (n : nat) (s : string) : substring n 0 s = "".
Proof.
  revert n. induction s as [|c s IH]; intros [|n]; simpl; auto.
Qed.

Lemma substring_all (s : string) : substring 0 (String.length s) s = s.
Proof. induction s as [|c s IH]; simpl; [reflexivity|now rewrite IH]. Qed.

(** ** The byte-wise order on strings *)

Lemma str_lt_trans (a b c : string) : str_lt a b -> str_lt b c -> str_lt a c.
Proof.
  unfold str_lt. intros H1 H2.
  apply OrderedTypeEx.String_as_OT.cmp_lt in H1, H2.
  apply OrderedTypeEx.String_as_OT.cmp_lt.
  eapply OrderedTypeEx.String_as_OT.lt_trans; eassumption.
Qed.

Lemma str_lt_irrefl (a : string) : ~ str_lt a a.
Proof.
  unfold str_lt. intros H.
  apply OrderedTypeEx.String_as_OT.cmp_lt in H.
  exact (OrderedTypeEx.String_as_OT.lt_not_eq _ _ H eq_refl).
Qed.

Lemma leb_true_lt (a b : string) :
  String.leb a b = true -> a <> b -> str_lt a b.
Proof.
  unfold String.leb, str_lt. intros H Hne.
  destruct (String.compare a b) eqn:E; try reflexivity; try discriminate.
  now apply String.compare_eq_iff in E.
Qed.

Lemma leb_false_lt (a b : string) : String.leb a b = false -> str_lt b a.
Proof.
  unfold String.leb, str_lt. intros H.
  rewrite String.compare_antisym.
  destruct (String.compare a b); try discriminate. reflexivity.
Qed.

(** ** Sorting keys *)

Lemma insert_sorted_perm (k : string) (l : list string) :
  Permutation (url.insert_sorted k l) (k :: l).
Proof.
  induction l as [|x l IH]; simpl; [constructor; constructor|].
  destruct (String.leb k x); [apply Permutation_refl|].
  eapply perm_trans; [apply perm_skip, IH|apply perm_swap].
Qed.

Lemma Sort_perm (l : list string) : Permutation (url.Sort l) l.
Proof.
  induction l as [|x l IH]; simpl; [constructor|].
  eapply perm_trans; [apply insert_sorted_perm|]. now apply perm_skip.
Qed.

Lemma insert_sorted_strict (k : string) (l : list string) :
  StronglySorted str_lt l -> ~ In k l ->
  StronglySorted str_lt (url.insert_sorted k l).
Proof.
  induction l as [|x l IH]; simpl; intros Hs Hni.
  - repeat constructor.
  - inversion Hs as [|? ? Hs' Hall]; subst.
    destruct (String.leb k x) eqn:E.
    + assert (Hkx : str_lt k x)
        by (apply leb_true_lt; [assumption|intros ->; apply Hni; now left]).
      constructor; [assumption|].
      constructor; [assumption|].
      eapply Forall_impl; [|exact Hall].
      intros y Hy. eapply str_lt_trans; eassumption.
    + apply leb_false_lt in E.
      constructor.
      * apply IH; [assumption|]. intros Hin. apply Hni. now right.
      * eapply Permutation_Forall;
          [apply Permutation_sym, insert_sorted_perm|].
        constructor; assumption.
Qed.

Lemma Sort_strict (l : list string) :
  NoDup l -> StronglySorted str_lt (url.Sort l).
Proof.
  induction l as [|x l IH]; simpl; intros Hnd; [constructor|].
  inversion Hnd as [|? ? Hni Hnd']; subst.
  apply insert_sorted_strict; [now apply IH|].
  intros Hin. apply Hni.
  eapply Permutation_in; [apply Sort_perm|exact Hin].
Qed.

(** Two strictly sorted key lists, one contained in the other: a function
    that is empty off the smaller list has the same [flat_map] over both. *)
Lemma flat_map_sorted_sub {B : Type} (f : string -> list B) :
  forall K L : list string,
    StronglySorted str_lt K -> StronglySorted str_lt L ->
    incl L K ->
    (forall k, In k K -> ~ In k L -> f k = []) ->
    flat_map f L = flat_map f K.
Proof.
  induction K as [|k K IH]; intros L HK HL Hincl Hoff.
  - destruct L as [|l L]; [reflexivity|].
    exfalso. apply (Hincl l). now left.
  - inversion HK as [|? ? HK' HallK]; subst.
    destruct L as [|l L].
    + simpl. rewrite (Hoff k (or_introl eq_refl) (fun H => H)).
      rewrite <- (IH [] HK' HL); [reflexivity| |].
      * intros x [].
      * intros x Hx _. apply Hoff; simpl; tauto.
    + inversion HL as [|? ? HL' HallL]; subst.
      destruct (string_dec k l) as [->|Hne].
      * simpl. f_equal. apply IH; try assumption.
        -- intros x Hx.
           destruct (Hincl x (or_intror Hx)) as [<-|Hin]; [|exact Hin].
           exfalso. rewrite Forall_forall in HallL.
           exact (str_lt_irrefl _ (HallL _ Hx)).
        -- intros x Hx Hnx. apply Hoff; [now right|].
           intros [<-|Hin]; [|now apply Hnx].
           rewrite Forall_forall in HallK.
           exact (str_lt_irrefl _ (HallK _ Hx)).
      * assert (HlK : In l K).
        { destruct (Hincl l (or_introl eq_refl)) as [E|Hin];
            [congruence|exact Hin]. }
        assert (Hkl : str_lt k l).
        { rewrite Forall_forall in HallK. now apply HallK. }
        assert (HkL : ~ In k (l :: L)).
        { intros [E|Hin]; [congruence|].
          rewrite Forall_forall in HallL.
          apply (str_lt_irrefl k). eapply str_lt_trans; [exact Hkl|].
          now apply HallL. }
        change (flat_map f (k :: K)) with (f k ++ flat_map f K)%list.
        rewrite (Hoff k (or_introl eq_refl) HkL).
        cbn [app]. apply IH; try assumption.
        -- intros x Hx.
           destruct (Hincl x Hx) as [<-|Hin]; [|exact Hin].
           contradiction.
        -- intros x Hx Hnx. apply Hoff; [now right|exact Hnx].
Qed.

(** ** url.Values *)

Lemma lookup_Add (q : url.Values) (a x k : string) :
  url.lookup (url.Add q a x) k =
  (url.lookup q k ++ (if String.eqb a k then [x] else []))%list.
Proof.
  induction q as [|[b vs] q IH]; simpl.
  - destruct (String.eqb a k); reflexivity.
  - destruct (String.eqb b a) eqn:Eba; simpl.
    + apply String.eqb_eq in Eba. subst b.
      destruct (String.eqb a k); [reflexivity|now rewrite app_nil_r].
    + destruct (String.eqb b k) eqn:Ebk.
      * apply String.eqb_eq in Ebk. subst b.
        rewrite String.eqb_sym, Eba. now rewrite app_nil_r.
      * exact IH.
Qed.

Lemma lookup_notin (q : url.Values) (k : string) :
  ~ In k (keys q) -> url.lookup q k = [].
Proof.
  induction q as [|[b vs] q IH]; simpl; intros Hni; [reflexivity|].
  destruct (String.eqb b k) eqn:E.
  - apply String.eqb_eq in E. tauto.
  - apply IH. tauto.
Qed.

Lemma keys_Add (q : url.Values) (a x k : string) :
  In k (keys (url.Add q a x)) <-> k = a \/ In k (keys q).
Proof.
  induction q as [|[b vs] q IH]; simpl.
  - intuition congruence.
  - destruct (String.eqb b a) eqn:E; simpl.
    + apply String.eqb_eq in E. subst b. intuition congruence.
    + rewrite IH. intuition congruence.
Qed.

Lemma NoDup_keys_Add (q : url.Values) (a x : string) :
  NoDup (keys q) -> NoDup (keys (url.Add q a x)).
Proof.
  induction q as [|[b vs] q IH]; simpl; intros Hnd.
  - repeat constructor. intros [].
  - inversion Hnd as [|? ? Hni Hnd']; subst.
    destruct (String.eqb b a) eqn:E; simpl.
    + constructor; assumption.
    + apply String.eqb_neq in E.
      constructor; [|now apply IH].
      intros Hin. apply keys_Add in Hin. destruct Hin; [congruence|tauto].
Qed.

Lemma Add_nonempty (q : url.Values) (a x : string) :
  (0 < List.length (url.Add q a x))%nat.
Proof.
  destruct q as [|[b vs] q]; simpl; [lia|].
  destruct (String.eqb b a); simpl; lia.
Qed.

Lemma wf_query_nil (K : list string) : wf_query K [].
Proof. split; [constructor|intros x []]. Qed.

Lemma wf_query_Add (K : list string) (q : url.Values) (a x : string) :
  In a K -> wf_query K q -> wf_query K (url.Add q a x).
Proof.
  intros Ha [Hnd Hincl]. split; [now apply NoDup_keys_Add|].
  intros k Hk. apply keys_Add in Hk. destruct Hk as [->|Hk]; auto.
Qed.

Lemma wf_query_addFilterParams (K : list string) (q : url.Values)
  (a : string) (vals : option (list string)) :
  In a K -> wf_query K q -> wf_query K (addFilterParams a vals q).
Proof.
  intros Ha. destruct vals as [l|]; simpl; [|tauto].
  revert q. induction l as [|x l IH]; simpl; intros q Hq; [exact Hq|].
  apply IH. now apply wf_query_Add.
Qed.

Lemma lookup_addFilterParams (q : url.Values) (a k : string)
  (vals : option (list string)) :
  url.lookup (addFilterParams a vals q) k =
  (url.lookup q k ++ (if String.eqb a k then values_of vals else []))%list.
Proof.
  destruct vals as [l|]; simpl.
  - revert q. induction l as [|x l IH]; simpl; intros q.
    + destruct (String.eqb a k); now rewrite app_nil_r.
    + rewrite IH, lookup_Add.
      destruct (String.eqb a k); [|now rewrite !app_nil_r].
      now rewrite <- app_assoc.
  - destruct (String.eqb a k); now rewrite app_nil_r.
Qed.

Lemma addFilterParams_nonempty (q : url.Values) (a : string)
  (vals : option (list string)) :
  (0 < List.length q)%nat -> (0 < List.length (addFilterParams a vals q))%nat.
Proof.
  destruct vals as [l|]; simpl; [|tauto].
  revert q. induction l as [|x l IH]; simpl; intros q Hq; [exact Hq|].
  apply IH, Add_nonempty.
Qed.

(** ** url.Values.Encode *)

Lemma Encode_values_emit (keyEscaped : string) (vs : list string)
  (buf : string) :
  url.Encode_values keyEscaped vs buf =
  emit buf (map (fun x => keyEscaped ++ "=" ++ url.QueryEscape x) vs).
Proof.
  revert buf. induction vs as [|x vs IH]; intros buf; [reflexivity|].
  simpl. rewrite IH. reflexivity.
Qed.

Lemma emit_app (buf : string) (l1 l2 : list string) :
  emit buf (l1 ++ l2) = emit (emit buf l1) l2.
Proof. unfold emit. apply fold_left_app. Qed.

Lemma Encode_keys_emit (q : url.Values) (ks : list string) (buf : string) :
  url.Encode_keys q ks buf =
  emit buf
    (flat_map (fun k => map (fun x => render_entry (k, x)) (url.lookup q k)) ks).
Proof.
  revert buf. induction ks as [|k ks IH]; intros buf; [reflexivity|].
  simpl. rewrite IH, Encode_values_emit, emit_app. reflexivity.
Qed.

Lemma render_entry_nonempty (e : string * string) : render_entry e <> "".
Proof.
  unfold render_entry. intros H.
  apply (f_equal String.length) in H.
  rewrite !length_append in H. simpl in H. lia.
Qed.

Lemma emit_nonempty (buf : string) (es : list string) :
  buf <> "" ->
  emit buf es = buf ++ String.concat "" (map (fun e => "&" ++ e) es).
Proof.
  revert buf. induction es as [|e es IH]; intros buf Hb.
  - simpl. now rewrite append_nil_r.
  - cbn [emit fold_left map String.concat].
    assert (Hlen : (0 <? String.length buf)%nat = true).
    { apply Nat.ltb_lt. destruct buf; [congruence|simpl; lia]. }
    rewrite Hlen. fold (emit ((buf ++ "&") ++ e) es).
    rewrite IH.
    + destruct es as [|e' es]; cbn [map String.concat].
      * now rewrite append_nil_r, !append_assoc.
      * now rewrite !append_assoc.
    + intros H. apply (f_equal String.length) in H.
      rewrite !length_append in H. simpl in H. lia.
Qed.

Lemma concat_amp (e : string) (es : list string) :
  String.concat "&" (e :: es)
  = e ++ String.concat "" (map (fun x => "&" ++ x) es).
Proof.
  revert e. induction es as [|e' es IH]; intros e.
  - simpl. now rewrite append_nil_r.
  - change (String.concat "&" (e :: e' :: es))
      with (e ++ "&" ++ String.concat "&" (e' :: es)).
    rewrite IH. cbn [map].
    destruct es as [|e'' es]; cbn [map String.concat].
    + now rewrite !append_nil_r.
    + now rewrite !append_assoc.
Qed.

Lemma emit_Join (es : list string) :
  Forall (fun e => e <> "") es -> emit "" es = strings.Join es "&".
Proof.
  unfold strings.Join. destruct es as [|e es]; intros H; [reflexivity|].
  inversion H as [|? ? He _]; subst.
  cbn [emit fold_left]. change (0 <? String.length "")%nat with false.
  cbv iota. fold (emit ("" ++ e) es). simpl append.
  rewrite emit_nonempty by assumption. now rewrite concat_amp.
Qed.

(** ** The link builder *)

Lemma link_keys_sorted : StronglySorted str_lt link_keys.
Proof.
  unfold link_keys.
  repeat (constructor; [|repeat (constructor; [reflexivity|]); constructor]).
  constructor.
Qed.

Ltac in_link_keys :=
  unfold link_keys; simpl;
  repeat (first [left; reflexivity | right]).

Lemma buildLink_query_wf (params : GetTracksParams) (pageLimit page : Z) :
  wf_query link_keys (buildLink_query params pageLimit page).
Proof.
  unfold buildLink_query.
  destruct (Include params), (Sort params);
    repeat first
      [ apply wf_query_Add; [in_link_keys|]
      | apply wf_query_addFilterParams; [in_link_keys|]
      | apply wf_query_nil ].
Qed.

Lemma buildLink_query_length (params : GetTracksParams) (pageLimit page : Z) :
  (0 < List.length (buildLink_query params pageLimit page))%nat.
Proof.
  unfold buildLink_query.
  destruct (Include params), (Sort params);
    repeat first [ apply Add_nonempty | apply addFilterParams_nonempty ].
Qed.

Lemma family_entries_render (k : string) (vals : option (list string)) :
  map (fun x => render_entry (k, x)) (values_of vals)
  = map render_entry (family_entries k vals).
Proof.
  destruct vals as [l|]; simpl; [|reflexivity].
  now rewrite map_map.
Qed.

Lemma lookup_optional_Add (q : url.Values) (a k : string) (o : option string) :
  url.lookup (match o with Some x => url.Add q a x | None => q end) k
  = (url.lookup q k ++ (if String.eqb a k then optional_value o else []))%list.
Proof.
  destruct o; [apply lookup_Add|].
  destruct (String.eqb a k); now rewrite app_nil_r.
Qed.

(** The values the link builder's query holds under a key [k]. *)
Lemma lookup_buildLink_query (params : GetTracksParams) (pageLimit page : Z)
  (k : string) :
  url.lookup (buildLink_query params pageLimit page) k =
  ((if String.eqb "page[offset]" k
    then [strconv.Itoa (mul32 page pageLimit)] else [])
   ++ (if String.eqb "page[limit]" k then [strconv.Itoa pageLimit] else [])
   ++ (if String.eqb "filter[equals]" k
       then values_of (FilterEquals params) else [])
   ++ (if String.eqb "filter[contains]" k
       then values_of (FilterContains params) else [])
   ++ (if String.eqb "filter[lessThan]" k
       then values_of (FilterLessThan params) else [])
   ++ (if String.eqb "filter[lessOrEqual]" k
       then values_of (FilterLessOrEqual params) else [])
   ++ (if String.eqb "filter[greaterThan]" k
       then values_of (FilterGreaterThan params) else [])
   ++ (if String.eqb "filter[greaterOrEqual]" k
       then values_of (FilterGreaterOrEqual params) else [])
   ++ (if String.eqb "filter[startsWith]" k
       then values_of (FilterStartsWith params) else [])
   ++ (if String.eqb "filter[endsWith]" k
       then values_of (FilterEndsWith params) else [])
   ++ (if String.eqb "sort" k then optional_value (Sort params) else [])
   ++ (if String.eqb "include" k then optional_value (Include params) else []))%list.
Proof.
  unfold buildLink_query. cbv zeta.
  rewrite (lookup_optional_Add _ "include" k (Include params)).
  rewrite (lookup_optional_Add _ "sort" k (Sort params)).
  do 8 rewrite lookup_addFilterParams.
  do 2 rewrite lookup_Add.
  cbn [url.lookup app]. rewrite <- !app_assoc. reflexivity.
Qed.

Ltac eval_key_tests :=
  repeat match goal with
    | |- context [String.eqb ?a ?b] =>
        let r := eval vm_compute in (String.eqb a b) in
        change (String.eqb a b) with r
    end;
  cbv iota.

Lemma buildLink_query_entries (params : GetTracksParams) (pageLimit page : Z) :
  flat_map
    (fun k =>
       map (fun x => render_entry (k, x))
         (url.lookup (buildLink_query params pageLimit page) k))
    link_keys
  = map render_entry
      (link_entries params (strconv.Itoa pageLimit)
         (strconv.Itoa (mul32 page pageLimit))).
Proof.
  unfold link_entries, entries_before_offset, entries_after_offset.
  rewrite !map_app, <- !family_entries_render.
  unfold link_keys. cbn [flat_map].
  rewrite !lookup_buildLink_query.
  eval_key_tests.
  cbn [app]. rewrite ?app_nil_r.
  destruct (Include params) as [i|], (Sort params) as [s|];
    cbn [optional_value optional_entry map app];
    rewrite ?app_nil_r, <- ?app_assoc; reflexivity.
Qed.

(** The link written for page index [page] is the resource name, a
    question mark, and the entries of the query in ascending key order. *)
Lemma buildLink_explicit (params : GetTracksParams) (resourceName : string)
  (pageLimit page : Z) :
  buildLink params resourceName pageLimit page
  = link_for params resourceName pageLimit (mul32 page pageLimit).
Proof.
  unfold buildLink, link_for, render_query.
  pose proof (buildLink_query_length params pageLimit page) as Hlen.
  pose proof (buildLink_query_wf params pageLimit page) as [Hnd Hincl].
  apply Nat.ltb_lt in Hlen. rewrite Hlen. do 2 f_equal.
  unfold url.Encode.
  destruct (buildLink_query params pageLimit page) as [|e q] eqn:Eq;
    [discriminate|].
  rewrite <- Eq in *. clear Eq e q.
  rewrite Encode_keys_emit.
  fold (keys (buildLink_query params pageLimit page)).
  rewrite (flat_map_sorted_sub _ link_keys).
  - rewrite buildLink_query_entries.
    apply emit_Join. apply Forall_forall. intros e He.
    apply in_map_iff in He. destruct He as [x [<- _]].
    apply render_entry_nonempty.
  - exact link_keys_sorted.
  - now apply Sort_strict.
  - intros k Hk. apply Hincl.
    eapply Permutation_in; [apply Sort_perm|exact Hk].
  - intros k _ Hk. rewrite lookup_notin; [reflexivity|].
    intros Hin. apply Hk.
    eapply Permutation_in; [apply Permutation_sym, Sort_perm|exact Hin].
Qed.

(** ** int32 arithmetic *)

Lemma wrap32_id (z : Z) : is_int32 z -> wrap32 z = z.
Proof.
  unfold is_int32, int32_min, int32_max, wrap32. intros H.
  rewrite Z.mod_small; lia.
Qed.

Lemma wrap32_range (z : Z) : is_int32 (wrap32 z).
Proof.
  unfold is_int32, int32_min, int32_max, wrap32.
  pose proof (Z.mod_pos_bound (z + 2 ^ 31) (2 ^ 32)). lia.
Qed.

(** Truncated division by a positive divisor, on either side of zero. *)
Lemma quot_pos_bounds (a b : Z) :
  0 < b -> 0 <= a ->
  0 <= Z.quot a b /\ Z.quot a b * b <= a < (Z.quot a b + 1) * b.
Proof.
  intros Hb Ha.
  pose proof (Z.quot_rem' a b) as E.
  pose proof (Z.rem_bound_pos a b Ha Hb) as R.
  pose proof (Z.quot_pos a b Ha Hb). nia.
Qed.

Lemma quot_neg_bounds (a b : Z) :
  0 < b -> a <= 0 ->
  Z.quot a b <= 0 /\ (Z.quot a b - 1) * b < a <= Z.quot a b * b.
Proof.
  intros Hb Ha.
  pose proof (quot_pos_bounds (- a) b Hb ltac:(lia)) as H.
  rewrite Z.quot_opp_l in H by lia. nia.
Qed.

Lemma quot_range (a b : Z) : 0 < b -> is_int32 a -> is_int32 (Z.quot a b).
Proof.
  unfold is_int32, int32_min, int32_max. intros Hb Ha.
  destruct (Z.le_gt_cases 0 a) as [H|H].
  - pose proof (quot_pos_bounds a b Hb H). nia.
  - pose proof (quot_neg_bounds a b Hb ltac:(lia)). nia.
Qed.

Lemma div32_pos (a b : Z) :
  0 < b -> is_int32 a -> div32 a b = Ok (Z.quot a b).
Proof.
  intros Hb Ha. unfold div32.
  destruct (b =? 0) eqn:E; [lia|].
  now rewrite wrap32_id by now apply quot_range.
Qed.

(** Wrapping an intermediate result does not change the wrapped total. *)
Lemma wrap32_add_l (a b : Z) : wrap32 (wrap32 a + b) = wrap32 (a + b).
Proof.
  unfold wrap32. f_equal.
  replace ((a + 2 ^ 31) mod 2 ^ 32 - 2 ^ 31 + b + 2 ^ 31)
    with ((a + 2 ^ 31) mod 2 ^ 32 + b) by lia.
  rewrite Zplus_mod_idemp_l. f_equal; lia.
Qed.

Lemma sub32_add32 (a b c : Z) : sub32 (add32 a b) c = wrap32 (a + b - c).
Proof.
  unfold sub32, add32.
  replace (wrap32 (a + b) - c) with (wrap32 (a + b) + - c) by lia.
  rewrite wrap32_add_l. f_equal; lia.
Qed.

(** ** The pagination computer *)

Lemma buildPaginationLinksAndMeta_pos (totalItems : Z)
  (params : GetTracksParams) (resourceName : string) (limit offset : Z) :
  PageLimit params = Some limit ->
  PageOffset params = Some offset ->
  is_int32 offset -> 0 < limit ->
  let totalPages := code_totalPages totalItems limit in
  let currentPage := code_currentPage offset limit in
  buildPaginationLinksAndMeta totalItems params resourceName =
  Ok ({| First :=
           if 0 <? totalPages
           then Some (buildLink params resourceName limit 0) else None;
         Last :=
           if 0 <? totalPages
           then Some (buildLink params resourceName limit (sub32 totalPages 1))
           else None;
         Next :=
           if currentPage <? totalPages
           then Some (buildLink params resourceName limit currentPage)
           else None;
         Prev :=
           if 1 <? currentPage
           then Some (buildLink params resourceName limit (sub32 currentPage 2))
           else None |},
      {| CurrentPage := Some currentPage;
         TotalItems := Some totalItems;
         TotalPages := Some totalPages |}).
Proof.
  intros HL HO Ho Hl. unfold buildPaginationLinksAndMeta.
  rewrite HL, HO. cbn [deref bind].
  rewrite div32_pos by (try apply wrap32_range; assumption).
  cbn [bind]. rewrite div32_pos by assumption. reflexivity.
Qed.

Lemma code_totalPages_range (totalItems limit : Z) :
  0 < limit -> is_int32 (code_totalPages totalItems limit).
Proof. intros H. apply quot_range; [assumption|apply wrap32_range]. Qed.

Lemma code_currentPage_range (offset limit : Z) :
  is_int32 (code_currentPage offset limit).
Proof. apply wrap32_range. Qed.

(** While the page count is positive, the offset of the last page is
    computed without wrapping. *)
Lemma last_offset_exact (totalItems limit : Z) :
  0 < limit -> is_int32 limit ->
  0 < code_totalPages totalItems limit ->
  mul32 (sub32 (code_totalPages totalItems limit) 1) limit
  = (code_totalPages totalItems limit - 1) * limit.
Proof.
  intros Hl Hr Hp. unfold code_totalPages in *.
  set (s := sub32 (add32 totalItems limit) 1) in *.
  assert (Hs : is_int32 s) by apply wrap32_range.
  assert (0 <= s).
  { destruct (Z.le_gt_cases 0 s) as [H|H]; [exact H|].
    pose proof (quot_neg_bounds s limit Hl ltac:(lia)). lia. }
  pose proof (quot_pos_bounds s limit Hl ltac:(lia)) as B.
  unfold is_int32, int32_min, int32_max in *.
  unfold sub32. rewrite wrap32_id by (unfold is_int32, int32_min, int32_max; lia).
  unfold mul32. apply wrap32_id.
  unfold is_int32, int32_min, int32_max. nia.
Qed.

(** While a next page exists, its offset is computed without wrapping. *)
Lemma next_offset_exact (totalItems limit offset : Z) :
  0 < limit -> is_int32 limit -> is_int32 offset ->
  code_currentPage offset limit < code_totalPages totalItems limit ->
  mul32 (code_currentPage offset limit) limit
  = code_currentPage offset limit * limit.
Proof.
  intros Hl Hr Ho Hlt. unfold mul32. apply wrap32_id.
  pose proof (code_currentPage_range offset limit) as Hc.
  unfold code_totalPages, code_currentPage in *.
  set (s := sub32 (add32 totalItems limit) 1) in *.
  assert (Hs : is_int32 s) by apply wrap32_range.
  set (q := Z.quot offset limit) in *.
  assert (Hq : is_int32 q) by now apply quot_range.
  unfold is_int32, int32_min, int32_max in *.
  destruct (Z.eq_dec q (2 ^ 31 - 1)) as [Eq|Nq].
  - (* the increment wraps: only with limit 1 *)
    assert (limit = 1).
    { pose proof (quot_pos_bounds offset limit Hl) as B.
      destruct (Z.le_gt_cases 0 offset) as [H|H].
      - specialize (B H). fold q in B. nia.
      - pose proof (quot_neg_bounds offset limit Hl ltac:(lia)) as B'.
        fold q in B'. lia. }
    subst limit. rewrite Eq. vm_compute. split; discriminate.
  - unfold add32 in *.
    rewrite wrap32_id in *
      by (unfold is_int32, int32_min, int32_max; lia).
    destruct (Z.le_gt_cases 0 offset) as [H|H].
    + pose proof (quot_pos_bounds offset limit Hl H) as B. fold q in B.
      assert (0 < Z.quot s limit) by lia.
      assert (0 <= s).
      { destruct (Z.le_gt_cases 0 s) as [H'|H']; [exact H'|].
        pose proof (quot_neg_bounds s limit Hl ltac:(lia)). lia. }
      pose proof (quot_pos_bounds s limit Hl ltac:(lia)) as B'.
      nia.
    + pose proof (quot_neg_bounds offset limit Hl ltac:(lia)) as B.
      fold q in B. nia.
Qed.

(** While a previous page exists, its offset is computed without wrapping. *)
Lemma prev_offset_exact (limit offset : Z) :
  0 < limit -> is_int32 limit -> is_int32 offset ->
  1 < code_currentPage offset limit ->
  mul32 (sub32 (code_currentPage offset limit) 2) limit
  = (code_currentPage offset limit - 2) * limit.
Proof.
  intros Hl Hr Ho Hgt.
  pose proof (code_currentPage_range offset limit) as Hc.
  unfold code_currentPage in *.
  set (q := Z.quot offset limit) in *.
  assert (Hq : is_int32 q) by now apply quot_range.
  unfold is_int32, int32_min, int32_max in *.
  destruct (Z.eq_dec q (2 ^ 31 - 1)) as [Eq|Nq].
  - exfalso. rewrite Eq in Hgt. vm_compute in Hgt. discriminate.
  - unfold add32 in *.
    rewrite wrap32_id in *
      by (unfold is_int32, int32_min, int32_max; lia).
    unfold sub32. rewrite wrap32_id
      by (unfold is_int32, int32_min, int32_max; lia).
    unfold mul32. apply wrap32_id.
    unfold is_int32, int32_min, int32_max.
    destruct (Z.le_gt_cases 0 offset) as [H|H].
    + pose proof (quot_pos_bounds offset limit Hl H) as B. fold q in B. nia.
    + pose proof (quot_neg_bounds offset limit Hl ltac:(lia)) as B.
      fold q in B. lia.
Qed.

Lemma first_offset_exact (limit : Z) : mul32 0 limit = 0.
Proof. reflexivity. Qed.

(** * The claims *)

(** C1: every link the link builder writes is the resource name followed by
    the query in which each value of each of the eight filter families is
    its own entry under the family's parameter name, the sort string and
    the include string appear verbatim (each only when present), all
    URL-escaped; the page index enters only through the [page[offset]]
    entry, so the first, last, next and prev links of one request share
    [page[limit]] and every other entry. *)
Theorem link_preserves_request_parameters :
  forall (params : GetTracksParams) (resourceName : string),
    (forall pageLimit page : Z,
        buildLink params resourceName pageLimit page
        = resourceName ++ "?"
          ++ render_query
               (entries_before_offset params (strconv.Itoa pageLimit)
                ++ [("page[offset]", strconv.Itoa (mul32 page pageLimit))]
                ++ entries_after_offset params)%list)
    /\
    (forall totalItems : Z,
        match buildPaginationLinksAndMeta totalItems params resourceName with
        | Ok (links, _) =>
            exists before after : list (string * string),
              before = entries_before_offset params
                         (strconv.Itoa (v (PageLimit params)))
              /\ after = entries_after_offset params
              /\ Forall
                   (fun l : option string =>
                      match l with
                      | Some link =>
                          exists offset : string,
                            link = resourceName ++ "?"
                                   ++ render_query
                                        (before ++ [("page[offset]", offset)]
                                         ++ after)%list
                      | None => True
                      end)
                   (all_links links)
        | Panic _ => True
        end).
Proof.
  intros params resourceName. split.
  - intros pageLimit page. apply buildLink_explicit.
  - intros totalItems. unfold buildPaginationLinksAndMeta.
    destruct (PageLimit params) as [limit|]; cbn [deref bind]; [|exact I].
    destruct (PageOffset params) as [offset|]; cbn [deref bind]; [|exact I].
    destruct (div32 _ limit) as [totalPages|]; cbn [bind]; [|exact I].
    destruct (div32 offset limit) as [quotient|]; cbn [bind]; [|exact I].
    eexists _, _. split; [reflexivity|]. split; [reflexivity|].
    unfold all_links. cbn [First Last Next Prev v].
    repeat constructor;
      match goal with
      | |- match (if ?c then _ else _) with _ => _ end =>
          destruct c; [|exact I]
      end;
      eexists; apply buildLink_explicit.
Qed.

(** C2 (amended): for [totalItems >= 0], [limit > 0] and [offset >= 0] such
    that neither [totalItems + limit - 1] nor [offset / limit + 1] leaves
    the int32 range, the pagination computer returns
    [totalPages = (totalItems + limit - 1) / limit], which is the ceiling
    of [totalItems / limit], and [currentPage = offset / limit + 1]. *)
Theorem pagination_meta_within_int32 :
  forall (totalItems : Z) (params : GetTracksParams) (resourceName : string)
         (limit offset : Z),
    PageLimit params = Some limit ->
    PageOffset params = Some offset ->
    0 <= totalItems -> 0 < limit -> 0 <= offset ->
    totalItems + limit - 1 <= int32_max ->
    offset <= int32_max ->
    offset / limit + 1 <= int32_max ->
    exists links : PaginationLinks,
      buildPaginationLinksAndMeta totalItems params resourceName
      = Ok (links,
            {| CurrentPage := Some (offset / limit + 1);
               TotalItems := Some totalItems;
               TotalPages := Some ((totalItems + limit - 1) / limit) |})
      /\ ((totalItems + limit - 1) / limit - 1) * limit < totalItems
         <= (totalItems + limit - 1) / limit * limit.
Proof.
  intros totalItems params resourceName limit offset HL HO Ht Hl Ho B1 B2 B3.
  unfold int32_max in *.
  rewrite (buildPaginationLinksAndMeta_pos totalItems params resourceName
             limit offset HL HO)
    by (unfold is_int32, int32_min, int32_max; lia).
  cbv zeta. unfold code_totalPages, code_currentPage.
  rewrite sub32_add32. unfold add32.
  rewrite (wrap32_id (totalItems + limit - 1))
    by (unfold is_int32, int32_min, int32_max; lia).
  rewrite !Z.quot_div_nonneg by lia.
  rewrite wrap32_id.
  - eexists. split; [reflexivity|].
    pose proof (Z.div_mod (totalItems + limit - 1) limit ltac:(lia)).
    pose proof (Z.mod_pos_bound (totalItems + limit - 1) limit Hl). nia.
  - pose proof (Z.div_pos offset limit Ho Hl).
    unfold is_int32, int32_min, int32_max. lia.
Qed.

(** The claim's own examples: 25 items in pages of 10 make 3 pages, and
    offset 20 is on page 3. *)
Lemma pagination_meta_within_int32_witness :
  exists links : PaginationLinks,
    buildPaginationLinksAndMeta 25 (pageParams (Some 10) (Some 20)) "/tracks"
    = Ok (links,
          {| CurrentPage := Some 3; TotalItems := Some 25;
             TotalPages := Some 3 |})
    /\ (3 - 1) * 10 < 25 <= 3 * 10.
Proof.
  apply (pagination_meta_within_int32 25 (pageParams (Some 10) (Some 20))
           "/tracks" 10 20);
    first [reflexivity | unfold int32_max; lia | vm_compute; discriminate].
Defined.

(** C2 as stated fails once the sum [totalItems + limit - 1] or the
    increment [offset / limit + 1] wraps around: 2147483647 items in pages
    of 2 give a negative page count, and offset 2147483647 in pages of 1
    gives a negative current page. *)
Lemma pagination_meta_wraps :
  (exists (links : PaginationLinks) (meta : PaginationMeta),
      buildPaginationLinksAndMeta 2147483647
        (pageParams (Some 2) (Some 0)) "/tracks" = Ok (links, meta)
      /\ TotalPages meta = Some (-1073741824)
      /\ TotalPages meta <> Some ((2147483647 + 2 - 1) / 2))
  /\
  (exists (links : PaginationLinks) (meta : PaginationMeta),
      buildPaginationLinksAndMeta 0
        (pageParams (Some 1) (Some 2147483647)) "/tracks" = Ok (links, meta)
      /\ CurrentPage meta = Some (-2147483648)
      /\ CurrentPage meta <> Some (2147483647 / 1 + 1)).
Proof.
  split; eexists _, _; (split; [vm_compute; reflexivity|]);
    (split; [reflexivity|vm_compute; discriminate]).
Qed.

(** No items means no pages, whatever the page size. *)
Lemma pagination_meta_empty_collection (limit : Z) :
  0 < limit <= int32_max ->
  exists links : PaginationLinks,
    buildPaginationLinksAndMeta 0 (pageParams (Some limit) (Some 0)) "/tracks"
    = Ok (links,
          {| CurrentPage := Some 1; TotalItems := Some 0;
             TotalPages := Some 0 |}).
Proof.
  intros H. unfold int32_max in H.
  rewrite (buildPaginationLinksAndMeta_pos 0
             (pageParams (Some limit) (Some 0)) "/tracks" limit 0
             eq_refl eq_refl)
    by (unfold is_int32, int32_min, int32_max; lia).
  cbv zeta. unfold code_totalPages, code_currentPage.
  rewrite sub32_add32, wrap32_id
    by (unfold is_int32, int32_min, int32_max; lia).
  rewrite Z.quot_small by lia. rewrite Z.quot_0_l by lia.
  eexists. reflexivity.
Qed.

(** C3: for a request with [limit > 0], the pagination computer returns
    exactly these links and this metadata, where [totalPages] is the int32
    quotient [(totalItems + limit - 1) / limit] and [currentPage] the
    int32 sum [offset / limit + 1] that it reports: the first link encodes
    offset 0 and the last link offset [(totalPages - 1) * limit], both
    present exactly when [totalPages > 0]; the next link encodes offset
    [currentPage * limit] and is present exactly when
    [currentPage < totalPages]; the prev link encodes offset
    [(currentPage - 2) * limit] and is present exactly when
    [currentPage > 1].  While nothing wraps around, [totalPages] and
    [currentPage] are the mathematical quotients. *)
Theorem pagination_links_offsets :
  forall (totalItems : Z) (params : GetTracksParams) (resourceName : string)
         (limit offset : Z),
    PageLimit params = Some limit ->
    PageOffset params = Some offset ->
    is_int32 totalItems -> is_int32 limit -> is_int32 offset ->
    0 < limit ->
    let totalPages := Z.quot (sub32 (add32 totalItems limit) 1) limit in
    let currentPage := add32 (Z.quot offset limit) 1 in
    buildPaginationLinksAndMeta totalItems params resourceName
    = Ok ({| First :=
               if 0 <? totalPages
               then Some (link_for params resourceName limit 0) else None;
             Last :=
               if 0 <? totalPages
               then Some (link_for params resourceName limit
                            ((totalPages - 1) * limit))
               else None;
             Next :=
               if currentPage <? totalPages
               then Some (link_for params resourceName limit
                            (currentPage * limit))
               else None;
             Prev :=
               if 1 <? currentPage
               then Some (link_for params resourceName limit
                            ((currentPage - 2) * limit))
               else None |},
          {| CurrentPage := Some currentPage;
             TotalItems := Some totalItems;
             TotalPages := Some totalPages |})
    /\ (0 <= totalItems -> 0 <= offset ->
        totalItems + limit - 1 <= int32_max ->
        offset / limit + 1 <= int32_max ->
        totalPages = (totalItems + limit - 1) / limit
        /\ currentPage = offset / limit + 1).
Proof.
  intros totalItems params resourceName limit offset HL HO Ht Hl Ho Hpos.
  cbv zeta. split.
  - rewrite (buildPaginationLinksAndMeta_pos totalItems params resourceName
               limit offset HL HO Ho Hpos).
    cbv zeta. unfold code_totalPages, code_currentPage.
    fold (code_totalPages totalItems limit).
    fold (code_currentPage offset limit).
    f_equal. f_equal. f_equal.
    + destruct (0 <? _); [|reflexivity].
      now rewrite buildLink_explicit, first_offset_exact.
    + destruct (0 <? _) eqn:E; [|reflexivity]. apply Z.ltb_lt in E.
      now rewrite buildLink_explicit, last_offset_exact.
    + destruct (_ <? _) eqn:E; [|reflexivity]. apply Z.ltb_lt in E.
      now rewrite buildLink_explicit, (next_offset_exact totalItems).
    + destruct (1 <? _) eqn:E; [|reflexivity]. apply Z.ltb_lt in E.
      now rewrite buildLink_explicit, prev_offset_exact.
  - intros H0 H1 H2 H3. unfold int32_max in *.
    rewrite sub32_add32. unfold add32.
    rewrite (wrap32_id (totalItems + limit - 1))
      by (unfold is_int32, int32_min, int32_max; lia).
    rewrite !Z.quot_div_nonneg by lia.
    split; [reflexivity|]. apply wrap32_id.
    pose proof (Z.div_pos offset limit H1 Hpos).
    unfold is_int32, int32_min, int32_max. lia.
Qed.

(** 25 items in pages of 10, seen from offset 10: page 2 of 3, and all
    four links, with offsets 0, 20, 20 and 0.  The claim's scenario, no
    items in pages of 10 at offset 0: page 1 of 0, and no link. *)
Lemma pagination_links_offsets_witness :
  buildPaginationLinksAndMeta 25 (pageParams (Some 10) (Some 10)) "/tracks"
  = Ok ({| First := Some "/tracks?page%5Blimit%5D=10&page%5Boffset%5D=0";
           Last := Some "/tracks?page%5Blimit%5D=10&page%5Boffset%5D=20";
           Next := Some "/tracks?page%5Blimit%5D=10&page%5Boffset%5D=20";
           Prev := Some "/tracks?page%5Blimit%5D=10&page%5Boffset%5D=0" |},
        {| CurrentPage := Some 2; TotalItems := Some 25;
           TotalPages := Some 3 |})
  /\ buildPaginationLinksAndMeta 0 (pageParams (Some 10) (Some 0)) "/tracks"
     = Ok ({| First := None; Last := None; Next := None; Prev := None |},
           {| CurrentPage := Some 1; TotalItems := Some 0;
              TotalPages := Some 0 |}).
Proof.
  assert (R : forall z : Z, -100 <= z <= 100 -> is_int32 z)
    by (unfold is_int32, int32_min, int32_max; lia).
  split.
  - destruct (pagination_links_offsets 25 (pageParams (Some 10) (Some 10))
                "/tracks" 10 10 eq_refl eq_refl
                (R 25 ltac:(lia)) (R 10 ltac:(lia)) (R 10 ltac:(lia))
                ltac:(lia)) as [E _].
    rewrite E. vm_compute. reflexivity.
  - destruct (pagination_links_offsets 0 (pageParams (Some 10) (Some 0))
                "/tracks" 10 0 eq_refl eq_refl
                (R 0 ltac:(lia)) (R 10 ltac:(lia)) (R 0 ltac:(lia))
                ltac:(lia)) as [E _].
    rewrite E. vm_compute. reflexivity.
Defined.

(** With no items, pages of 10 and offset 0 the current page is 1 and all
    four links are absent. *)
Example pagination_no_items :
  buildPaginationLinksAndMeta 0 (pageParams (Some 10) (Some 0)) "/tracks"
  = Ok ({| First := None; Last := None; Next := None; Prev := None |},
        {| CurrentPage := Some 1; TotalItems := Some 0;
           TotalPages := Some 0 |}).
Proof. reflexivity. Qed.

(** 25 items in pages of 10, seen from offset 10: all four links, with
    offsets 0, 20, 20 and 0. *)
Example pagination_middle_page :
  buildPaginationLinksAndMeta 25 (pageParams (Some 10) (Some 10)) "/tracks"
  = Ok ({| First := Some "/tracks?page%5Blimit%5D=10&page%5Boffset%5D=0";
           Last := Some "/tracks?page%5Blimit%5D=10&page%5Boffset%5D=20";
           Next := Some "/tracks?page%5Blimit%5D=10&page%5Boffset%5D=20";
           Prev := Some "/tracks?page%5Blimit%5D=10&page%5Boffset%5D=0" |},
        {| CurrentPage := Some 2; TotalItems := Some 25;
           TotalPages := Some 3 |}).
Proof. vm_compute. reflexivity. Qed.

(** C9: the pagination computer dereferences the page limit and the page
    offset unconditionally, so it panics when either is absent (and when
    the limit is zero); with both present and a positive limit it returns
    links and metadata. *)
Theorem pagination_requires_page_window :
  forall (totalItems : Z) (params : GetTracksParams) (resourceName : string),
    (PageLimit params = None ->
     buildPaginationLinksAndMeta totalItems params resourceName
     = Panic NilDereference)
    /\ (PageOffset params = None ->
        buildPaginationLinksAndMeta totalItems params resourceName
        = Panic NilDereference)
    /\ (forall offset : Z,
           PageLimit params = Some 0 -> PageOffset params = Some offset ->
           buildPaginationLinksAndMeta totalItems params resourceName
           = Panic DivideByZero)
    /\ (forall limit offset : Z,
           PageLimit params = Some limit -> PageOffset params = Some offset ->
           0 < limit ->
           exists (links : PaginationLinks) (meta : PaginationMeta),
             buildPaginationLinksAndMeta totalItems params resourceName
             = Ok (links, meta)).
Proof.
  intros totalItems params resourceName.
  unfold buildPaginationLinksAndMeta. repeat split.
  - intros ->. reflexivity.
  - intros ->. destruct (PageLimit params); reflexivity.
  - intros offset -> ->. reflexivity.
  - intros limit offset -> -> Hpos. cbn [deref bind]. unfold div32.
    destruct (limit =? 0) eqn:E; [lia|]. cbn [bind].
    eexists _, _. reflexivity.
Qed.

(** A request without a page limit makes the function panic; the same
    request with limit 10 and offset 0 is answered. *)
Lemma pagination_requires_page_window_witness :
  buildPaginationLinksAndMeta 25 (pageParams None (Some 0)) "/tracks"
  = Panic NilDereference
  /\ exists (links : PaginationLinks) (meta : PaginationMeta),
      buildPaginationLinksAndMeta 25 (pageParams (Some 10) (Some 0)) "/tracks"
      = Ok (links, meta).
Proof.
  split.
  - apply (proj1 (pagination_requires_page_window 25
                    (pageParams None (Some 0)) "/tracks")).
    reflexivity.
  - apply (proj2 (proj2 (proj2 (pagination_requires_page_window 25
                    (pageParams (Some 10) (Some 0)) "/tracks"))) 10 0);
      first [reflexivity | lia].
Defined.

(** ** The error formatter *)

Lemma Header_Set_get (h : list (string * string)) (key value : string) :
  Header_Get (Header_Set h key value) key = Some value.
Proof.
  induction h as [|[k x] h IH]; simpl.
  - now rewrite String.eqb_refl.
  - destruct (String.eqb k key) eqn:E; simpl; rewrite E; [reflexivity|exact IH].
Qed.

(** C7 (amended): the error formatter appends exactly one document
    holding exactly one [ErrorObject], whose status and title are
    "403"/"Forbidden" for a not-authorized error, "404"/"Not Found" for a
    not-found error that is not also a not-authorized error, and
    "500"/"Internal Server Error" for any other error; it sets the content
    type to [application/vnd.api+json]; and the status it writes is 403
    in all three cases, unless a status was written before, which then
    stays. *)
Theorem apiErrorHandler_response :
  forall (w : ResponseWriter) (err : errors.error),
    let w' := apiErrorHandler w err in
    (exists obj : ErrorObject,
        rwBody w' = (rwBody w ++ [ {| Errors := [obj] |} ])%list
        /\ Detail obj = None
        /\ (errors.Is err errors.ErrNotAuthorized = true ->
            Status obj = Some "403" /\ Title obj = Some "Forbidden")
        /\ (errors.Is err errors.ErrNotAuthorized = false ->
            errors.Is err errors.ErrNotFound = true ->
            Status obj = Some "404" /\ Title obj = Some "Not Found")
        /\ (errors.Is err errors.ErrNotAuthorized = false ->
            errors.Is err errors.ErrNotFound = false ->
            Status obj = Some "500"
            /\ Title obj = Some "Internal Server Error"))
    /\ Header_Get (rwHeader w') "Content-Type"
       = Some "application/vnd.api+json"
    /\ (rwStatus w = None -> rwStatus w' = Some 403)
    /\ (forall c : Z, rwStatus w = Some c -> rwStatus w' = Some c)
    /\ (forall err' : errors.error,
           rwStatus (apiErrorHandler w err') = rwStatus w').
Proof.
  intros w err w'. subst w'. unfold apiErrorHandler.
  cbn [jsonEncode WriteHeader setHeader rwBody rwHeader rwStatus].
  split; [|split; [apply Header_Set_get|
                   split; [intros ->; reflexivity|
                           split; [intros c ->; reflexivity|reflexivity]]]].
  eexists. split; [reflexivity|].
  destruct (errors.Is err errors.ErrNotAuthorized) eqn:EA.
  - repeat split; discriminate.
  - destruct (errors.Is err errors.ErrNotFound) eqn:EF;
      repeat split; try discriminate.
Qed.

(** A not-found error wrapped once, handled on a fresh response: the body
    says 404, the status line says 403. *)
Lemma apiErrorHandler_response_witness :
  let w' :=
    apiErrorHandler newResponseWriter
      (errors.wrapError "get track" errors.ErrNotFound) in
  rwBody w'
  = [ {| Errors := [ {| Status := Some "404"; Title := Some "Not Found";
                        Detail := None |} ] |} ]
  /\ rwStatus w' = Some 403.
Proof.
  pose proof (apiErrorHandler_response newResponseWriter
                (errors.wrapError "get track" errors.ErrNotFound)) as H.
  cbv zeta in *.
  destruct H as [[obj [Hb [Hd [_ [H404 _]]]]] [_ [Hs _]]].
  split; [|exact (Hs eq_refl)].
  rewrite Hb. destruct obj as [st ti de]. cbn in *.
  destruct (H404 eq_refl eq_refl) as [-> ->]. now rewrite Hd.
Defined.

(** C7 as stated fails on an error that is both a not-found and a
    not-authorized error, such as the two sentinels joined by
    [errors.Join]: the first case of the switch wins, and the not-found
    error is answered with "403"/"Forbidden". *)
Lemma not_found_error_answered_as_forbidden :
  let err := errors.joinError [errors.ErrNotFound; errors.ErrNotAuthorized] in
  errors.Is err errors.ErrNotFound = true
  /\ rwBody (apiErrorHandler newResponseWriter err)
     = [ {| Errors := [ {| Status := Some "403"; Title := Some "Forbidden";
                           Detail := None |} ] |} ]
  /\ rwBody (apiErrorHandler newResponseWriter err)
     <> [ {| Errors := [ {| Status := Some "404"; Title := Some "Not Found";
                            Detail := None |} ] |} ].
Proof. cbv zeta. repeat split. vm_compute. discriminate. Qed.

(** ** The filter compiler *)

Lemma cut_first (sep : ascii) (s : string) :
  has_byte sep s ->
  exists before after : string,
    strings.cut sep s = Some (before, after)
    /\ s = before ++ String sep after
    /\ ~ has_byte sep before.
Proof.
  unfold has_byte.
  induction s as [|c s IH]; simpl; intros H; [contradiction|].
  destruct (Ascii.eqb c sep) eqn:E.
  - apply Ascii.eqb_eq in E. subst c.
    exists "", s. simpl. repeat split. intros [].
  - apply Ascii.eqb_neq in E.
    destruct H as [H|H]; [contradiction|].
    destruct (IH H) as [before [after [Hc [Hs Hn]]]].
    exists (String c before), after. rewrite Hc. simpl.
    repeat split; [now rewrite Hs|].
    intros [H'|H']; [contradiction|now apply Hn].
Qed.

Lemma cut_Some_inv (sep : ascii) (s before after : string) :
  strings.cut sep s = Some (before, after) ->
  s = before ++ String sep after /\ ~ has_byte sep before.
Proof.
  unfold has_byte. revert before.
  induction s as [|c s IH]; simpl; intros before H; [discriminate|].
  destruct (Ascii.eqb c sep) eqn:E.
  - apply Ascii.eqb_eq in E. subst c. inversion H; subst.
    simpl. split; [reflexivity|intros []].
  - apply Ascii.eqb_neq in E.
    destruct (strings.cut sep s) as [[b a]|]; [|discriminate].
    inversion H; subst. destruct (IH b eq_refl) as [-> Hn].
    simpl. split; [reflexivity|]. intros [H'|H']; [contradiction|tauto].
Qed.

Lemma has_byte_append (c : ascii) (a b : string) :
  has_byte c (a ++ b) <-> has_byte c a \/ has_byte c b.
Proof.
  unfold has_byte. induction a as [|x a IH]; simpl; [tauto|].
  rewrite IH. tauto.
Qed.

Lemma cut_Some_length (sep : ascii) (s before after : string) :
  strings.cut sep s = Some (before, after) -> (0 < String.length s)%nat.
Proof. destruct s; simpl; [discriminate|lia]. Qed.

(** [SplitN(s, sep, 2)] of a text holding the separator: the text before
    its first occurrence, and everything after it. *)
Lemma SplitN_2_cut (sep : ascii) (s before after : string) :
  strings.cut sep s = Some (before, after) ->
  strings.SplitN s sep 2 = [before; after].
Proof.
  intros H. pose proof (cut_Some_length _ _ _ _ H) as Hlen.
  unfold strings.SplitN, strings.genSplit.
  change (2 =? 0) with false. change (2 <? 0) with false. cbv iota.
  rewrite Z.min_l by lia.
  change (Z.to_nat (2 - 1)) with 1%nat.
  cbn [strings.genSplit_loop]. now rewrite H.
Qed.

(** A text without the separator is returned whole. *)
Lemma SplitN_2_none (sep : ascii) (s : string) :
  strings.cut sep s = None -> strings.SplitN s sep 2 = [s].
Proof.
  intros H. unfold strings.SplitN, strings.genSplit.
  change (2 =? 0) with false. change (2 <? 0) with false. cbv iota.
  destruct (Z.to_nat _) as [|k]; [reflexivity|].
  cbn [strings.genSplit_loop]. now rewrite H.
Qed.

Lemma parseFilter_loop_ok (op : string -> string -> squirrel.Sqlizer)
  (fs : list string) :
  Forall (has_byte ":") fs ->
  forall filters : list squirrel.Sqlizer,
  exists clauses : list squirrel.Sqlizer,
    parseFilter_loop op fs filters = Ok (filters ++ clauses)%list
    /\ Forall2 (clause_for op) fs clauses.
Proof.
  induction 1 as [|f fs Hf _ IH]; intros filters.
  - exists []. simpl. rewrite app_nil_r. split; [reflexivity|constructor].
  - destruct (cut_first ":" f Hf) as [field [value [Hc [Hs Hn]]]].
    cbn [parseFilter_loop]. rewrite (SplitN_2_cut _ _ _ _ Hc).
    cbn [index nth_error bind].
    destruct (IH (go_append filters (op field value))) as [cs [E F2]].
    exists (op field value :: cs). rewrite E. unfold go_append.
    rewrite <- app_assoc. split; [reflexivity|].
    constructor; [|exact F2].
    exists field, value. auto.
Qed.

Lemma parseFilter_ok (op : string -> string -> squirrel.Sqlizer)
  (fs : option (list string)) (filters : list squirrel.Sqlizer) :
  Forall (has_byte ":") (values_of fs) ->
  exists clauses : list squirrel.Sqlizer,
    parseFilter fs op filters = Ok (filters ++ clauses)%list
    /\ Forall2 (clause_for op) (values_of fs) clauses.
Proof.
  destruct fs as [l|]; simpl; intros H.
  - now apply parseFilter_loop_ok.
  - exists []. rewrite app_nil_r. split; [reflexivity|constructor].
Qed.

Lemma has_byte_dec (c : ascii) (s : string) : {has_byte c s} + {~ has_byte c s}.
Proof. unfold has_byte. apply in_dec, ascii_dec. Qed.

Lemma cut_absent (sep : ascii) (s : string) :
  ~ has_byte sep s -> strings.cut sep s = None.
Proof.
  intros H. destruct (strings.cut sep s) as [[b a]|] eqn:E; [|reflexivity].
  exfalso. apply H. destruct (cut_Some_inv _ _ _ _ E) as [-> _].
  apply has_byte_append. right. now left.
Qed.

(** The filter loop either consumes every token or panics on the first
    one without a colon, always with the same index error. *)
Lemma parseFilter_loop_cases (op : string -> string -> squirrel.Sqlizer)
  (fs : list string) :
  forall filters : list squirrel.Sqlizer,
    (Forall (has_byte ":") fs
     /\ exists out, parseFilter_loop op fs filters = Ok out)
    \/ (Exists (fun t => ~ has_byte ":" t) fs
        /\ parseFilter_loop op fs filters = Panic (IndexOutOfRange 1 1)).
Proof.
  induction fs as [|f fs IH]; intros filters.
  - left. split; [constructor|now eexists].
  - cbn [parseFilter_loop].
    destruct (has_byte_dec ":" f) as [Hf|Hf].
    + destruct (cut_first ":" f Hf) as [field [value [Hc _]]].
      rewrite (SplitN_2_cut _ _ _ _ Hc). cbn [index nth_error bind].
      destruct (IH (go_append filters (op field value)))
        as [[Hall Hok]|[Hex Hp]].
      * left. split; [now constructor|exact Hok].
      * right. split; [now apply Exists_cons_tl|exact Hp].
    + right. split; [now apply Exists_cons_hd|].
      rewrite (SplitN_2_none _ _ (cut_absent _ _ Hf)). reflexivity.
Qed.

Lemma parseFilter_cases (op : string -> string -> squirrel.Sqlizer)
  (fs : option (list string)) (filters : list squirrel.Sqlizer) :
  (Forall (has_byte ":") (values_of fs)
   /\ exists out, parseFilter fs op filters = Ok out)
  \/ (Exists (fun t => ~ has_byte ":" t) (values_of fs)
      /\ parseFilter fs op filters = Panic (IndexOutOfRange 1 1)).
Proof.
  destruct fs as [l|]; simpl.
  - apply parseFilter_loop_cases.
  - left. split; [constructor|now eexists].
Qed.

Lemma Forall_colon_not_Exists (l : list string) :
  Forall (has_byte ":") l -> ~ Exists (fun t => ~ has_byte ":" t) l.
Proof.
  intros H Hex. apply Exists_exists in Hex. destruct Hex as [t [Hin Hn]].
  rewrite Forall_forall in H. exact (Hn (H t Hin)).
Qed.

Lemma clauses_are_comparisons (op : string -> string -> squirrel.Sqlizer)
  (tokens : list string) (clauses : list squirrel.Sqlizer) :
  (forall f x, is_comparison (op f x)) ->
  Forall2 (clause_for op) tokens clauses -> Forall is_comparison clauses.
Proof.
  intros Hop. induction 1 as [|t c ts cs [f [x [_ [_ ->]]]] _ IH];
    constructor; auto.
Qed.

(** C4: a filter token that holds a colon is cut at its first colon: the
    clause is built from the text before it as the field and the whole
    text after it, colons included and possibly empty, as the value. *)
Theorem filter_token_cut_at_first_colon :
  forall (op : string -> string -> squirrel.Sqlizer) (token : string)
         (filters : list squirrel.Sqlizer),
    has_byte ":" token ->
    exists field value : string,
      token = field ++ ":" ++ value
      /\ ~ has_byte ":" field
      /\ parseFilter (Some [token]) op filters
         = Ok (go_append filters (op field value)).
Proof.
  intros op token filters H.
  destruct (cut_first ":" token H) as [field [value [Hc [Hs Hn]]]].
  exists field, value. repeat split; try assumption.
  cbn [parseFilter parseFilter_loop]. rewrite (SplitN_2_cut _ _ _ _ Hc).
  reflexivity.
Qed.

(** The token [a:b:c] gives field [a] and value [b:c]. *)
Lemma filter_token_cut_at_first_colon_witness :
  exists field value : string,
    "a:b:c" = field ++ ":" ++ value
    /\ ~ has_byte ":" field
    /\ parseFilter (Some ["a:b:c"]) opEquals []
       = Ok (go_append [] (opEquals field value)).
Proof.
  apply (filter_token_cut_at_first_colon opEquals "a:b:c" []).
  unfold has_byte. simpl. tauto.
Defined.

Example filter_value_with_colons :
  parseFilter (Some ["a:b:c"]) opEquals [] = Ok [squirrel.Eq "a" "b:c"].
Proof. reflexivity. Qed.

Example filter_value_empty :
  parseFilter (Some ["year:"]) opLessOrEqual [] = Ok [squirrel.LtOrEq "year" ""].
Proof. reflexivity. Qed.

(** A token without a colon makes the compiler panic on [parts[1]]. *)
Example filter_token_without_colon :
  parseFilter (Some ["artist"]) opEquals [] = Panic (IndexOutOfRange 1 1).
Proof. reflexivity. Qed.

(** C8: when every filter token holds a colon, the compiled filter is one
    [And] over single comparisons, never an [Or], listing the clauses of
    the equals tokens first, then contains, starts-with, ends-with,
    greater-than, greater-or-equal, less-than and less-or-equal, each
    family in the order of its input list. *)
Theorem filters_are_an_ordered_conjunction :
  forall params : GetTracksParams,
    Forall (has_byte ":") (all_filter_tokens params) ->
    exists (qo : QueryOptions) (log : list logLine)
           (eq co sw ew gt ge lt le : list squirrel.Sqlizer),
      toQueryOptions params = Ok (qo, log)
      /\ qoFilters qo
         = squirrel.And (eq ++ co ++ sw ++ ew ++ gt ++ ge ++ lt ++ le)%list
      /\ Forall2 (clause_for opEquals) (values_of (FilterEquals params)) eq
      /\ Forall2 (clause_for opContains) (values_of (FilterContains params)) co
      /\ Forall2 (clause_for opStartsWith)
           (values_of (FilterStartsWith params)) sw
      /\ Forall2 (clause_for opEndsWith) (values_of (FilterEndsWith params)) ew
      /\ Forall2 (clause_for opGreaterThan)
           (values_of (FilterGreaterThan params)) gt
      /\ Forall2 (clause_for opGreaterOrEqual)
           (values_of (FilterGreaterOrEqual params)) ge
      /\ Forall2 (clause_for opLessThan) (values_of (FilterLessThan params)) lt
      /\ Forall2 (clause_for opLessOrEqual)
           (values_of (FilterLessOrEqual params)) le
      /\ Forall is_comparison (eq ++ co ++ sw ++ ew ++ gt ++ ge ++ lt ++ le)%list.
Proof.
  intros params H. unfold all_filter_tokens in H.
  repeat (apply Forall_app in H; destruct H as [? H]).
  unfold toQueryOptions. cbv zeta.
  repeat match goal with
    | Hf : Forall (has_byte ":") (values_of ?fs)
      |- context [parseFilter ?fs ?op ?acc] =>
        let cs := fresh "cs" in
        let E := fresh "E" in
        let F := fresh "F" in
        destruct (parseFilter_ok op fs acc Hf) as [cs [E F]];
        rewrite E; cbn [bind]; clear E Hf
    end.
  destruct (toSortParams (Sort params)) as [sort err].
  eexists _, _, cs, cs0, cs1, cs2, cs3, cs4, cs5, cs6.
  split; [reflexivity|]. cbn [qoFilters app].
  split; [now rewrite <- !app_assoc|].
  repeat (split; [assumption|]).
  repeat (apply Forall_app; split);
    eapply clauses_are_comparisons; try eassumption; intros; exact I.
Qed.

(** The spec's scenario: an equals filter on the artist and a contains
    filter on the title. *)
Lemma filters_are_an_ordered_conjunction_witness :
  exists (qo : QueryOptions) (log : list logLine)
         (eq co sw ew gt ge lt le : list squirrel.Sqlizer),
    toQueryOptions
      {| FilterEquals := Some ["artist:Queen"];
         FilterContains := Some ["title:love"];
         FilterStartsWith := None; FilterEndsWith := None;
         FilterGreaterThan := None; FilterGreaterOrEqual := None;
         FilterLessThan := None; FilterLessOrEqual := None;
         PageOffset := None; PageLimit := None;
         Sort := None; Include := None |} = Ok (qo, log)
    /\ qoFilters qo
       = squirrel.And (eq ++ co ++ sw ++ ew ++ gt ++ ge ++ lt ++ le)%list
    /\ Forall2 (clause_for opEquals) ["artist:Queen"] eq
    /\ Forall2 (clause_for opContains) ["title:love"] co
    /\ Forall2 (clause_for opStartsWith) [] sw
    /\ Forall2 (clause_for opEndsWith) [] ew
    /\ Forall2 (clause_for opGreaterThan) [] gt
    /\ Forall2 (clause_for opGreaterOrEqual) [] ge
    /\ Forall2 (clause_for opLessThan) [] lt
    /\ Forall2 (clause_for opLessOrEqual) [] le
    /\ Forall is_comparison (eq ++ co ++ sw ++ ew ++ gt ++ ge ++ lt ++ le)%list.
Proof.
  apply (filters_are_an_ordered_conjunction
           {| FilterEquals := Some ["artist:Queen"];
              FilterContains := Some ["title:love"];
              FilterStartsWith := None; FilterEndsWith := None;
              FilterGreaterThan := None; FilterGreaterOrEqual := None;
              FilterLessThan := None; FilterLessOrEqual := None;
              PageOffset := None; PageLimit := None;
              Sort := None; Include := None |}).
  unfold all_filter_tokens, has_byte. simpl.
  repeat constructor; simpl; tauto.
Defined.

Example filters_scenario :
  toQueryOptions
    {| FilterEquals := Some ["artist:Queen"];
       FilterContains := Some ["title:love"];
       FilterStartsWith := None; FilterEndsWith := None;
       FilterGreaterThan := None; FilterGreaterOrEqual := None;
       FilterLessThan := None; FilterLessOrEqual := None;
       PageOffset := None; PageLimit := None;
       Sort := None; Include := None |}
  = Ok ({| qoMax := 0; qoOffset := 0;
           qoFilters :=
             squirrel.And [squirrel.Eq "artist" "Queen";
                           squirrel.Like "title" "%love%"];
           qoSort := "" |}, []).
Proof. reflexivity. Qed.

(** ** The sort compiler *)

(** The pattern test on the first byte, converted to a string the way the
    code does, is membership of that byte in the charset. *)
Lemma validSortPattern_first_byte (c : ascii) :
  regexp.Match validSortPattern (utf8.EncodeByteRune c) = allowed_byte c.
Proof.
  destruct c as [[] [] [] [] [] [] [] []]; vm_compute; reflexivity.
Qed.

Lemma Join_nil (sep : string) : strings.Join [] sep = "".
Proof. reflexivity. Qed.

(** The loop of the sort compiler: the first token that fails the check
    ends it with an error; with none, the renderings are joined behind the
    ones collected so far. *)
Lemma toSortParams_loop_spec (cols : list string) :
  forall resultCols : list string,
    toSortParams_loop cols resultCols =
    match find (fun t => negb (valid_token t)) (trimmed_columns cols) with
    | Some t => ("", Some (invalid_sort t))
    | None =>
        (strings.Join
           (resultCols ++ map render_token (trimmed_columns cols))%list ",",
         None)
    end.
Proof.
  unfold trimmed_columns.
  induction cols as [|col cols IH]; intros resultCols.
  - cbn. now rewrite app_nil_r.
  - cbn [toSortParams_loop map filter].
    destruct (String.eqb (strings.TrimSpace col) "") eqn:E;
      cbn [negb]; [apply IH|].
    rewrite validSortPattern_first_byte. cbn [find].
    fold (valid_token (strings.TrimSpace col)).
    destruct (valid_token (strings.TrimSpace col)); cbn [negb];
      [|reflexivity].
    cbn [map]. unfold render_token at 1.
    destruct (strings.HasPrefix (strings.TrimSpace col) "-");
      rewrite IH; unfold go_append;
      destruct (find _ _); try reflexivity;
      now rewrite <- app_assoc.
Qed.

Lemma Split_empty (sep : ascii) : strings.Split "" sep = [""].
Proof. reflexivity. Qed.

Lemma TrimSpace_empty : strings.TrimSpace "" = "".
Proof. reflexivity. Qed.

(** The sort compiler on a present sort string, in one equation. *)
Lemma toSortParams_spec (s : string) :
  toSortParams (Some s) =
  match find (fun t => negb (valid_token t)) (sort_tokens s) with
  | Some t => ("", Some (invalid_sort t))
  | None => (strings.Join (map render_token (sort_tokens s)) ",", None)
  end.
Proof.
  unfold toSortParams, sort_tokens.
  destruct (String.eqb s "") eqn:E.
  - apply String.eqb_eq in E. subst s. reflexivity.
  - apply toSortParams_loop_spec.
Qed.

Lemma find_none_forall {A : Type} (f : A -> bool) (l : list A) :
  find (fun x => negb (f x)) l = None <-> Forall (fun x => f x = true) l.
Proof.
  induction l as [|x l IH]; simpl.
  - split; [constructor|reflexivity].
  - destruct (f x) eqn:E; simpl.
    + rewrite IH. split; [now constructor|now inversion 1].
    + split; [discriminate|]. inversion 1; congruence.
Qed.

Lemma find_first_failure {A : Type} (f : A -> bool) (l good rest : list A)
  (t : A) :
  l = (good ++ t :: rest)%list ->
  Forall (fun x => f x = true) good -> f t = false ->
  find (fun x => negb (f x)) l = Some t.
Proof.
  intros -> Hg Ht. induction Hg as [|x good Hx _ IH]; simpl.
  - now rewrite Ht.
  - now rewrite Hx.
Qed.

Lemma exists_first_failure {A : Type} (f : A -> bool) (l : list A) :
  Exists (fun x => f x = false) l ->
  exists (good rest : list A) (t : A),
    l = (good ++ t :: rest)%list
    /\ Forall (fun x => f x = true) good /\ f t = false.
Proof.
  induction l as [|x l IH]; intros H; [inversion H|].
  destruct (f x) eqn:E.
  - inversion H as [? ? Hx|? ? Hl]; subst; [congruence|].
    destruct (IH Hl) as [good [rest [t [-> [Hg Ht]]]]].
    exists (x :: good), rest, t. repeat split; auto.
  - exists [], l, x. repeat split; auto.
Qed.

Lemma toQueryOptions_ok (params : GetTracksParams) :
  Forall (has_byte ":") (all_filter_tokens params) ->
  exists filters : list squirrel.Sqlizer,
    toQueryOptions params
    = Ok ({| qoMax := v (PageLimit params);
             qoOffset := v (PageOffset params);
             qoFilters := squirrel.And filters;
             qoSort := fst (toSortParams (Sort params)) |},
          match snd (toSortParams (Sort params)) with
          | Some e => [("Ignoring invalid sort parameter", e)]
          | None => []
          end).
Proof.
  intros H. unfold all_filter_tokens in H.
  repeat (apply Forall_app in H; destruct H as [? H]).
  unfold toQueryOptions. cbv zeta.
  repeat match goal with
    | Hf : Forall (has_byte ":") (values_of ?fs)
      |- context [parseFilter ?fs ?op ?acc] =>
        let cs := fresh "cs" in
        let E := fresh "E" in
        destruct (parseFilter_ok op fs acc Hf) as [cs [E _]];
        rewrite E; cbn [bind]; clear E Hf
    end.
  destruct (toSortParams (Sort params)) as [sort err].
  eexists. reflexivity.
Qed.

(** A filter token without a colon makes [toQueryOptions] panic, with the
    index error of reading [parts[1]] from a one-element split. *)
Lemma toQueryOptions_without_colon (params : GetTracksParams) :
  Exists (fun t => ~ has_byte ":" t) (all_filter_tokens params) ->
  toQueryOptions params = Panic (IndexOutOfRange 1 1).
Proof.
  unfold all_filter_tokens, toQueryOptions. cbv zeta. intros Hex.
  repeat match goal with
    | |- context [parseFilter ?fs ?op ?acc] =>
        destruct (parseFilter_cases op fs acc) as [[Hall [? E]]|[_ E]];
        rewrite E; cbn [bind]; [|reflexivity];
        apply Exists_app in Hex;
        destruct Hex as [Hex|Hex];
        [exfalso; exact (Forall_colon_not_Exists _ Hall Hex)|];
        clear E Hall
    end.
  match goal with
  | |- context [parseFilter ?fs ?op ?acc] =>
      destruct (parseFilter_cases op fs acc) as [[Hall _]|[_ E]]
  end.
  - exfalso. exact (Forall_colon_not_Exists _ Hall Hex).
  - rewrite E. reflexivity.
Qed.

Lemma HasPrefix_dash (t : string) :
  strings.HasPrefix t "-" = true -> exists rest : string, t = String "-" rest.
Proof.
  unfold strings.HasPrefix. destruct t as [|c t]; cbn [String.prefix];
    [discriminate|].
  destruct (ascii_dec "-" c) as [<-|]; [|discriminate].
  intros _. now exists t.
Qed.

(** C5 (amended): if some sort token, trimmed and non-empty, has a first
    byte outside [[A-Za-z0-9_-]], the sort compiler fails with
    "invalid sort parameter: " followed by the first such token, which
    does not begin with [-]; [toQueryOptions] then logs the error and
    returns a descriptor with an empty sort when every filter token of the
    request holds a colon, and panics, before it compiles the sort, when
    one does not.  A token with a leading [-] passes the check whatever
    follows the [-]: a sort string whose tokens all begin with [-]
    compiles without error. *)
Theorem invalid_sort_token_degrades_to_no_sort :
  forall s : string,
    (Exists (fun t => valid_token t = false) (sort_tokens s) ->
     exists (good rest : list string) (t : string),
       sort_tokens s = (good ++ t :: rest)%list
       /\ Forall (fun x => valid_token x = true) good
       /\ valid_token t = false
       /\ strings.HasPrefix t "-" = false
       /\ toSortParams (Some s)
          = ("", Some (errors.New ("invalid sort parameter: " ++ t)))
       /\ forall params : GetTracksParams,
            Sort params = Some s ->
            (Forall (has_byte ":") (all_filter_tokens params) ->
             exists qo : QueryOptions,
               toQueryOptions params
               = Ok (qo, [("Ignoring invalid sort parameter",
                           errors.New ("invalid sort parameter: " ++ t))])
               /\ qoSort qo = "")
            /\ (Exists (fun f => ~ has_byte ":" f) (all_filter_tokens params) ->
                toQueryOptions params = Panic (IndexOutOfRange 1 1)))
    /\ (Forall (fun t => strings.HasPrefix t "-" = true) (sort_tokens s) ->
        exists sort : string, toSortParams (Some s) = (sort, None)).
Proof.
  intros s. split.
  - intros H.
    destruct (exists_first_failure valid_token _ H)
      as [good [rest [t [E [Hg Ht]]]]].
    exists good, rest, t.
    assert (Hs : toSortParams (Some s) = ("", Some (invalid_sort t))).
    { rewrite toSortParams_spec.
      now rewrite (find_first_failure valid_token _ good rest t E Hg Ht). }
    split; [assumption|]. split; [assumption|]. split; [assumption|].
    split.
    { destruct (strings.HasPrefix t "-") eqn:Hp; [|reflexivity].
      destruct (HasPrefix_dash t Hp) as [r ->]. discriminate. }
    split; [exact Hs|].
    intros params HS. split.
    + intros Hf.
      destruct (toQueryOptions_ok params Hf) as [filters Eq].
      rewrite HS, Hs in Eq. cbn [fst snd] in Eq.
      eexists. split; [exact Eq|reflexivity].
    + apply toQueryOptions_without_colon.
  - intros H. rewrite toSortParams_spec.
    assert (Hv : Forall (fun t => valid_token t = true) (sort_tokens s)).
    { eapply Forall_impl; [|exact H]. cbv beta. intros t Hp.
      destruct (HasPrefix_dash t Hp) as [r ->]. reflexivity. }
    apply find_none_forall in Hv. rewrite Hv. now eexists.
Qed.

(** The spec's scenario: [$bad,title] fails naming [$bad], and a request
    with that sort and the filter [artist:Queen] gets a descriptor with
    an empty sort; [-$bad,-!] compiles. *)
Lemma invalid_sort_token_degrades_to_no_sort_witness :
  toSortParams (Some "$bad,title")
  = ("", Some (errors.New "invalid sort parameter: $bad"))
  /\ (exists qo : QueryOptions,
         toQueryOptions
           {| FilterEquals := Some ["artist:Queen"]; FilterContains := None;
              FilterStartsWith := None; FilterEndsWith := None;
              FilterGreaterThan := None; FilterGreaterOrEqual := None;
              FilterLessThan := None; FilterLessOrEqual := None;
              PageLimit := Some 10; PageOffset := Some 0;
              Sort := Some "$bad,title"; Include := None |}
         = Ok (qo, [("Ignoring invalid sort parameter",
                     errors.New "invalid sort parameter: $bad")])
         /\ qoSort qo = "")
  /\ exists sort : string, toSortParams (Some "-$bad,-!") = (sort, None).
Proof.
  destruct (invalid_sort_token_degrades_to_no_sort "$bad,title") as [H _].
  destruct (H ltac:(apply Exists_cons_hd; reflexivity))
    as [good [rest [t [E [Hg [Ht [_ [Hs Hq]]]]]]]].
  assert (Et : t = "$bad").
  { rewrite Hs in *. clear Hq.
    assert (Hc : toSortParams (Some "$bad,title")
                 = ("", Some (errors.New "invalid sort parameter: $bad")))
      by reflexivity.
    rewrite Hs in Hc. now injection Hc. }
  subst t. split; [exact Hs|]. split.
  - refine (proj1 (Hq _ _) _); [reflexivity|].
    apply Forall_cons; [|apply Forall_nil].
    unfold has_byte. cbn. repeat first [left; reflexivity | right].
  - apply (proj2 (invalid_sort_token_degrades_to_no_sort "-$bad,-!")).
    repeat constructor.
Defined.

Example invalid_sort_scenario :
  toSortParams (Some "$bad,title")
  = ("", Some (errors.New "invalid sort parameter: $bad")).
Proof. reflexivity. Qed.

(** C5 as stated fails on a token whose leading [-] is followed by a
    character outside the charset: only the first byte, the [-] itself, is
    tested, and [-$bad] compiles to descending on [$bad].  It also fails
    on a request with a filter token without a colon: [toQueryOptions]
    does not proceed with an empty sort, it panics. *)
Lemma sort_checks_first_byte_only :
  (sort_tokens "-$bad" = ["-$bad"]
   /\ strings.HasPrefix "-$bad" "-" = true
   /\ allowed_byte (byte_at "-$bad" 1) = false
   /\ toSortParams (Some "-$bad") = ("$bad desc", None))
  /\ toQueryOptions
       {| FilterEquals := Some ["artist"]; FilterContains := None;
          FilterStartsWith := None; FilterEndsWith := None;
          FilterGreaterThan := None; FilterGreaterOrEqual := None;
          FilterLessThan := None; FilterLessOrEqual := None;
          PageLimit := None; PageOffset := None;
          Sort := Some "$bad,title"; Include := None |}
     = Panic (IndexOutOfRange 1 1).
Proof. repeat split. Qed.

(** ** Valid sort strings *)

(** The sort compiler trims the text behind a leading [-] once more.  On
    a token that the spec's rule admits this changes nothing: the token is
    itself the result of trimming, so it does not end in white space, and
    the byte behind the [-] is not white space either. *)

(** *** Bytes of a slice *)

Lemma substring_split (s : string) :
  forall n a b : nat,
    substring n (a + b) s = substring n a s ++ substring (n + a) b s.
Proof.
  induction s as [|c s IH]; intros n a b.
  - destruct n, a, b; reflexivity.
  - destruct n as [|n].
    + destruct a as [|a]; cbn [Nat.add].
      * reflexivity.
      * cbn [substring append]. f_equal. apply (IH 0%nat).
    + cbn [substring Nat.add]. apply IH.
Qed.

Lemma length_substring (s : string) :
  forall n m : nat,
    (n + m <= String.length s)%nat -> String.length (substring n m s) = m.
Proof.
  induction s as [|c s IH]; intros n m H; cbn [String.length] in H.
  - assert (n = 0%nat) by lia. assert (m = 0%nat) by lia. now subst.
  - destruct n as [|n].
    + destruct m as [|m]; [reflexivity|].
      cbn [substring String.length]. f_equal. apply IH. lia.
    + cbn [substring]. apply IH. lia.
Qed.

Lemma byte_at_substring (s : string) (n m p : nat) :
  (p < m)%nat -> byte_at (substring n m s) p = byte_at s (p + n).
Proof.
  intros H. unfold byte_at. now rewrite substring_correct1.
Qed.

Lemma substring_substring (s : string) :
  forall j n m : nat,
    (n + m <= j)%nat -> substring n m (substring 0 j s) = substring n m s.
Proof.
  induction s as [|c s IH]; intros j n m H.
  - destruct j; reflexivity.
  - destruct j as [|j].
    + assert (n = 0%nat) by lia. assert (m = 0%nat) by lia. now subst.
    + cbn [substring]. destruct n as [|n].
      * destruct m as [|m]; [reflexivity|].
        cbn [substring]. f_equal. apply IH. lia.
      * cbn [substring]. apply IH. lia.
Qed.

Lemma substring_head (s : string) :
  forall i m : nat,
    (i < String.length s)%nat ->
    substring i (S m) s = String (byte_at s i) (substring (S i) m s).
Proof.
  induction s as [|c s IH]; intros i m H; cbn [String.length] in H; [lia|].
  destruct i as [|i].
  - cbn [substring]. unfold byte_at. cbn. f_equal.
  - cbn [substring]. rewrite IH by lia. reflexivity.
Qed.

Lemma byte_at_cons (a : ascii) (s : string) (n : nat) :
  byte_at (String a s) (S n) = byte_at s n.
Proof. reflexivity. Qed.

Lemma slice_cons (a : ascii) (s : string) (lo hi : nat) :
  slice (String a s) (S lo) (S hi) = slice s lo hi.
Proof. reflexivity. Qed.

(** *** Bytes by their role in UTF-8 *)

Lemma RuneStart_ascii (c : ascii) :
  byte_val c < 128 -> utf8.RuneStart (byte_val c) = true.
Proof.
  destruct c as [[] [] [] [] [] [] [] []]; vm_compute; intros H;
    first [reflexivity | discriminate].
Qed.

Lemma RuneStart_outside_accept (c : ascii) :
  utf8.RuneStart (byte_val c) = true ->
  byte_val c < 128 \/ 191 < byte_val c.
Proof.
  destruct c as [[] [] [] [] [] [] [] []]; vm_compute; intros H;
    first [discriminate | left; reflexivity | right; reflexivity].
Qed.

Lemma first_of_byte (c : ascii) :
  match utf8.first (byte_val c) with
  | utf8.as_ => byte_val c < 128
  | utf8.xx => 128 <= byte_val c
  | utf8.multi sz r =>
      128 <= byte_val c /\ utf8.RuneStart (byte_val c) = true
      /\ (sz = 2 \/ sz = 3 \/ sz = 4)%nat
  end.
Proof.
  destruct c as [[] [] [] [] [] [] [] []]; vm_compute;
    repeat split; try discriminate; auto.
Qed.

Lemma acceptRanges_inside (r : nat) :
  128 <= fst (utf8.acceptRanges r) /\ snd (utf8.acceptRanges r) <= 191.
Proof.
  do 5 (destruct r as [|r]; [vm_compute; split; discriminate|]).
  vm_compute; split; discriminate.
Qed.

Lemma IsSpace_ascii (c : ascii) :
  byte_val c < 128 -> unicode.IsSpace (byte_val c) = strings.asciiSpace c.
Proof.
  destruct c as [[] [] [] [] [] [] [] []]; vm_compute; intros H;
    first [reflexivity | discriminate].
Qed.

Lemma allowed_byte_ascii (c : ascii) :
  allowed_byte c = true -> byte_val c < 128 /\ strings.asciiSpace c = false.
Proof.
  destruct c as [[] [] [] [] [] [] [] []]; vm_compute; intros H;
    first [discriminate | split; reflexivity].
Qed.

(** *** Decoding a rune at the front *)

Ltac decode_cons :=
  unfold utf8.DecodeRuneInString in *; cbn [String.length] in *;
  repeat match goal with
    | |- context [(S ?n <? 1)%nat] => change (S n <? 1)%nat with false
    | H : context [(S ?n <? 1)%nat] |- _ =>
        change (S n <? 1)%nat with false in H
    | |- context [byte_at (String ?c ?y) 0] =>
        change (byte_at (String c y) 0) with c
    | H : context [byte_at (String ?c ?y) 0] |- _ =>
        change (byte_at (String c y) 0) with c in H
    end;
  cbv iota in *.

Lemma DecodeRune_ascii (c : ascii) (y : string) :
  byte_val c < 128 ->
  utf8.DecodeRuneInString (String c y) = (byte_val c, 1%nat).
Proof.
  intros H. decode_cons.
  pose proof (first_of_byte c) as F.
  destruct (utf8.first (byte_val c)); [reflexivity|lia|lia].
Qed.

(** A non-ASCII byte followed by nothing, or by a byte that starts a rune,
    decodes as an error of width one. *)
Lemma DecodeRune_broken (c : ascii) (y : string) :
  128 <= byte_val c ->
  y = "" \/ utf8.RuneStart (byte_val (byte_at y 0)) = true ->
  utf8.DecodeRuneInString (String c y) = (utf8.RuneError, 1%nat).
Proof.
  intros H Hy. decode_cons.
  change (byte_at (String c y) 1) with (byte_at y 0).
  pose proof (first_of_byte c) as F.
  destruct (utf8.first (byte_val c)) as [| |sz r]; [lia|reflexivity|].
  pose proof (acceptRanges_inside r) as A.
  destruct (utf8.acceptRanges r) as [lo hi]. cbn [fst snd] in A.
  destruct F as [_ [_ Hsz]].
  destruct Hy as [->|Hy].
  - cbn [String.length].
    destruct Hsz as [->|[->| ->]]; reflexivity.
  - destruct (S (String.length y) <? sz)%nat; [reflexivity|].
    apply RuneStart_outside_accept in Hy.
    destruct (Z.ltb_spec (byte_val (byte_at y 0)) lo);
      destruct (Z.ltb_spec hi (byte_val (byte_at y 0)));
      cbn [orb]; try reflexivity; lia.
Qed.

(** A white-space rune is decoded from a valid encoding, which begins with
    a byte that starts a rune. *)
Lemma DecodeRune_space_start (x : string) (r : Z) (size : nat) :
  utf8.DecodeRuneInString x = (r, size) ->
  unicode.IsSpace r = true ->
  exists (c : ascii) (y : string),
    x = String c y /\ utf8.RuneStart (byte_val c) = true.
Proof.
  intros H Hs. destruct x as [|c x].
  - cbn in H. injection H as <- <-. vm_compute in Hs. discriminate.
  - exists c, x. split; [reflexivity|].
    decode_cons.
    pose proof (first_of_byte c) as F.
    destruct (utf8.first (byte_val c)) as [| |sz rg].
    + now apply RuneStart_ascii.
    + injection H as <- <-. vm_compute in Hs. discriminate.
    + apply F.
Qed.

Lemma byte_at_append_l (x y : string) (i : nat) :
  (i < String.length x)%nat -> byte_at (x ++ y) i = byte_at x i.
Proof.
  revert i. induction x as [|c x IH]; intros i H; cbn [String.length] in H;
    [lia|].
  destruct i as [|i]; [reflexivity|].
  cbn [append]. rewrite !byte_at_cons. apply IH. lia.
Qed.

(** A decoding of width two or more reads only the bytes it reports. *)
Lemma DecodeRune_append (x y : string) (r : Z) (size : nat) :
  utf8.DecodeRuneInString x = (r, size) -> (2 <= size)%nat ->
  utf8.DecodeRuneInString (x ++ y) = (r, size).
Proof.
  intros H Hs. destruct x as [|c0 x].
  - cbn in H. injection H as <- <-. lia.
  - cbn [append]. decode_cons.
    pose proof (first_of_byte c0) as F.
    destruct (utf8.first (byte_val c0)) as [| |sz rg];
      [injection H as <- <-; lia|injection H as <- <-; lia|].
    destruct F as [_ [_ Hsz]].
    destruct (utf8.acceptRanges rg) as [lo hi].
    destruct (S (String.length x) <? sz)%nat eqn:En;
      [injection H as <- <-; lia|].
    apply Nat.ltb_ge in En.
    assert (En' : (S (String.length (x ++ y)) <? sz)%nat = false).
    { apply Nat.ltb_ge. rewrite length_append. lia. }
    rewrite En'.
    change (String c0 (x ++ y)) with (String c0 x ++ y).
    destruct Hsz as [->|[->| ->]];
      rewrite ?(byte_at_append_l (String c0 x) y 1),
              ?(byte_at_append_l (String c0 x) y 2),
              ?(byte_at_append_l (String c0 x) y 3)
        by (cbn [String.length]; lia);
      exact H.
Qed.

(** *** Decoding a rune at the back *)

Lemma scan_back_bounds (s : string) (lim : Z) :
  forall (k : nat) (start : Z),
    lim - 1 <= start ->
    lim - 1 <= utf8.scan_back k s lim start <= start.
Proof.
  induction k as [|k IH]; intros start H; cbn [utf8.scan_back]; [lia|].
  destruct (Z.leb_spec lim start); [|lia].
  destruct (utf8.RuneStart _); [lia|].
  specialize (IH (start - 1)). lia.
Qed.

Lemma slice_last (s : string) (k : nat) :
  String.length s = S k -> slice s k (S k) = String (byte_at s k) "".
Proof.
  intros H. unfold slice. replace (S k - k)%nat with 1%nat by lia.
  rewrite substring_head by lia. now rewrite substring_zero_length.
Qed.

Lemma DecodeLastRune_ascii (s : string) (k : nat) :
  String.length s = S k -> byte_val (byte_at s k) < 128 ->
  utf8.DecodeLastRuneInString s = (byte_val (byte_at s k), 1%nat).
Proof.
  intros H Hb. unfold utf8.DecodeLastRuneInString. rewrite H.
  destruct (Z.eqb_spec (Z.of_nat (S k)) 0); [lia|].
  replace (Z.to_nat (Z.of_nat (S k) - 1)) with k by lia.
  unfold utf8.RuneSelf.
  destruct (Z.ltb_spec (byte_val (byte_at s k)) 128); [reflexivity|lia].
Qed.

(** On a text ending in a non-ASCII byte, the last rune is either an
    error of width one or a rune of width two or more decoded from
    exactly the bytes at the end. *)
Lemma DecodeLastRune_nonascii (s : string) (k : nat) (r : Z) (size : nat) :
  String.length s = S k -> 128 <= byte_val (byte_at s k) ->
  utf8.DecodeLastRuneInString s = (r, size) ->
  (r = utf8.RuneError /\ size = 1%nat)
  \/ ((2 <= size <= S k)%nat
      /\ utf8.DecodeRuneInString (slice s (S k - size) (S k)) = (r, size)).
Proof.
  intros H Hb. unfold utf8.DecodeLastRuneInString. rewrite H.
  destruct (Z.eqb_spec (Z.of_nat (S k)) 0); [lia|].
  replace (Z.to_nat (Z.of_nat (S k) - 1)) with k by lia.
  unfold utf8.RuneSelf.
  destruct (Z.ltb_spec (byte_val (byte_at s k)) 128); [lia|].
  cbv zeta.
  set (lim := Z.max (Z.of_nat (S k) - Z.of_nat utf8.UTFMax) 0).
  pose proof (scan_back_bounds s lim utf8.UTFMax (Z.of_nat (S k) - 1 - 1))
    as B.
  assert (Hlim : lim - 1 <= Z.of_nat (S k) - 1 - 1)
    by (unfold lim, utf8.UTFMax; lia).
  specialize (B Hlim).
  set (st := utf8.scan_back utf8.UTFMax s lim (Z.of_nat (S k) - 1 - 1)) in *.
  set (start := Z.max st 0).
  assert (Hs : 0 <= start <= Z.of_nat k) by (unfold start; lia).
  rewrite Nat2Z.id.
  destruct (utf8.DecodeRuneInString (slice s (Z.to_nat start) (S k)))
    as [r' size'] eqn:E.
  destruct (Z.eqb_spec (start + Z.of_nat size') (Z.of_nat (S k)));
    intros [= <- <-]; [|now left].
  assert (Hn : Z.to_nat start = (S k - size')%nat) by lia.
  destruct (Nat.eq_dec size' 1) as [->|Hne].
  - left. split; [|reflexivity].
    assert (Hk : Z.to_nat start = k) by lia.
    rewrite Hk, slice_last in E by assumption.
    rewrite DecodeRune_broken in E by (auto; lia).
    congruence.
  - right. rewrite <- Hn. split; [|exact E].
    assert (size' <> 0%nat).
    { intros ->. lia. }
    lia.
Qed.

(** A white-space rune at the back has a first byte that starts a rune. *)
Lemma DecodeLastRune_space (s : string) (r : Z) (size : nat) :
  utf8.DecodeLastRuneInString s = (r, size) ->
  unicode.IsSpace r = true ->
  (1 <= size <= String.length s)%nat
  /\ utf8.RuneStart (byte_val (byte_at s (String.length s - size))) = true.
Proof.
  intros H Hs.
  destruct (String.length s) as [|k] eqn:L.
  - apply length_zero_iff in L. subst s. cbn in H.
    injection H as <- <-. vm_compute in Hs. discriminate.
  - destruct (Z.lt_ge_cases (byte_val (byte_at s k)) 128) as [Hb|Hb].
    + rewrite (DecodeLastRune_ascii s k L Hb) in H. injection H as <- <-.
      split; [lia|]. replace (S k - 1)%nat with k by lia.
      now apply RuneStart_ascii.
    + destruct (DecodeLastRune_nonascii s k r size L Hb H)
        as [[-> _]|[Hsz E]]; [vm_compute in Hs; discriminate|].
      split; [lia|].
      destruct (DecodeRune_space_start _ _ _ E Hs) as [c [y [Ec Hc]]].
      assert (Hc0 : byte_at (slice s (S k - size) (S k)) 0 = c)
        by now rewrite Ec.
      unfold slice in Hc0. rewrite byte_at_substring in Hc0 by lia.
      cbn [Nat.add] in Hc0. now rewrite Hc0.
Qed.

(** *** Trimming on the right *)

(** Where [TrimRightFunc] cuts: behind the rune that [lastIndexFunc]
    stopped at.  [J] is the end of that rune; the text behind it is empty
    or begins with a byte that starts a rune. *)
Lemma TrimRightFunc_cut (u : string) (J : nat) (r : Z) (size : nat) :
  (0 < J <= String.length u)%nat ->
  J = String.length u \/ utf8.RuneStart (byte_val (byte_at u J)) = true ->
  utf8.DecodeLastRuneInString (slice u 0 J) = (r, size) ->
  let i := Z.of_nat J - Z.of_nat size in
  (if (0 <=? i) && (utf8.RuneSelf <=? byte_val (byte_at u (Z.to_nat i)))
   then
     let (_, wid) := utf8.DecodeRuneInString (slice_from u (Z.to_nat i)) in
     i + Z.of_nat wid
   else i + 1) = Z.of_nat J.
Proof.
  intros HJ Hnext H. destruct J as [|k]; [lia|].
  assert (L : String.length (slice u 0 (S k)) = S k).
  { unfold slice. apply length_substring. lia. }
  assert (Hk : byte_at (slice u 0 (S k)) k = byte_at u k).
  { unfold slice. rewrite byte_at_substring by lia. f_equal. lia. }
  assert (Hrest :
            slice_from u k
            = String (byte_at u k) (slice_from u (S k))).
  { unfold slice_from, slice.
    replace (String.length u - k)%nat with (S (String.length u - S k))
      by lia.
    apply substring_head. lia. }
  assert (Hy : slice_from u (S k) = ""
               \/ utf8.RuneStart (byte_val (byte_at (slice_from u (S k)) 0))
                  = true).
  { destruct Hnext as [E|E].
    - left. unfold slice_from, slice. rewrite <- E.
      rewrite Nat.sub_diag. apply substring_zero_length.
    - destruct (Nat.eq_dec (S k) (String.length u)) as [E'|E'].
      + left. unfold slice_from, slice. rewrite <- E'.
        rewrite Nat.sub_diag. apply substring_zero_length.
      + right. unfold slice_from, slice.
        rewrite byte_at_substring by lia. exact E. }
  cbv zeta. unfold utf8.RuneSelf.
  destruct (Z.lt_ge_cases (byte_val (byte_at u k)) 128) as [Hb|Hb].
  - rewrite (DecodeLastRune_ascii _ k L) in H by now rewrite Hk.
    injection H as _ <-.
    replace (Z.to_nat (Z.of_nat (S k) - Z.of_nat 1)) with k by lia.
    destruct (Z.leb_spec 128 (byte_val (byte_at u k))); [lia|].
    rewrite andb_false_r. lia.
  - rewrite <- Hk in Hb.
    destruct (DecodeLastRune_nonascii _ k r size L Hb H)
      as [[_ ->]|[Hsz E]]; rewrite Hk in Hb.
    + replace (Z.to_nat (Z.of_nat (S k) - Z.of_nat 1)) with k by lia.
      destruct (Z.leb_spec 0 (Z.of_nat (S k) - Z.of_nat 1)); [|lia].
      destruct (Z.leb_spec 128 (byte_val (byte_at u k))); [|lia].
      cbn [andb]. rewrite Hrest, DecodeRune_broken by assumption. lia.
    + set (a := (S k - size)%nat) in *.
      replace (Z.to_nat (Z.of_nat (S k) - Z.of_nat size)) with a by lia.
      unfold slice in E. rewrite substring_substring in E by lia.
      replace (S k - a)%nat with size in E by lia.
      assert (Ha : substring a size u
                   = String (byte_at u a) (substring (S a) (size - 1) u)).
      { replace size with (S (size - 1)) at 1 by lia.
        apply substring_head. lia. }
      assert (Hba : 128 <= byte_val (byte_at u a)).
      { destruct (Z.lt_ge_cases (byte_val (byte_at u a)) 128) as [Hlt|];
          [|assumption].
        rewrite Ha, DecodeRune_ascii in E by assumption.
        injection E as _ <-. lia. }
      destruct (Z.leb_spec 0 (Z.of_nat (S k) - Z.of_nat size)); [|lia].
      destruct (Z.leb_spec 128 (byte_val (byte_at u a))); [|lia].
      cbn [andb].
      assert (Hsplit : slice_from u a
                       = substring a size u
                         ++ substring (a + size) (String.length u - S k) u).
      { unfold slice_from, slice.
        replace (String.length u - a)%nat
          with (size + (String.length u - S k))%nat by lia.
        apply substring_split. }
      rewrite Hsplit, (DecodeRune_append _ _ _ _ E) by lia. lia.
Qed.

(** The backwards loop of [lastIndexFunc] over white space: it gives up
    with [-1], or it stops at a rune that is not white space, having
    passed valid encodings only. *)
Lemma lastIndexFunc_loop_stop (u : string) :
  forall (rounds : nat) (i : nat),
    (i <= String.length u)%nat ->
    i = String.length u \/ utf8.RuneStart (byte_val (byte_at u i)) = true ->
    (i <= rounds)%nat ->
    strings.lastIndexFunc_loop unicode.IsSpace u rounds (Z.of_nat i) = -1
    \/ exists (J : nat) (r : Z) (size : nat),
        (0 < J <= String.length u)%nat
        /\ (J = String.length u
            \/ utf8.RuneStart (byte_val (byte_at u J)) = true)
        /\ utf8.DecodeLastRuneInString (slice u 0 J) = (r, size)
        /\ unicode.IsSpace r = false
        /\ strings.lastIndexFunc_loop unicode.IsSpace u rounds (Z.of_nat i)
           = Z.of_nat J - Z.of_nat size.
Proof.
  induction rounds as [|rounds IH]; intros i Hi Hnext Hr;
    cbn [strings.lastIndexFunc_loop]; [now left|].
  destruct (Z.ltb_spec 0 (Z.of_nat i)); [|now left].
  rewrite Nat2Z.id.
  destruct (utf8.DecodeLastRuneInString (slice u 0 i)) as [r size] eqn:E.
  destruct (unicode.IsSpace r) eqn:Hs; cbn [negb].
  - assert (L : String.length (slice u 0 i) = i).
    { unfold slice. rewrite Nat.sub_0_r. apply length_substring. lia. }
    destruct (DecodeLastRune_space _ _ _ E Hs) as [Hsz Hst].
    rewrite L in Hsz, Hst.
    unfold slice in Hst. rewrite Nat.sub_0_r in Hst.
    rewrite byte_at_substring in Hst by lia.
    rewrite Nat.add_0_r in Hst.
    replace (Z.of_nat i - Z.of_nat size) with (Z.of_nat (i - size)) by lia.
    apply IH; [lia|now right|lia].
  - right. exists i, r, size. repeat split; auto; lia.
Qed.

Lemma slice_whole (s : string) : slice s 0 (String.length s) = s.
Proof. unfold slice. rewrite Nat.sub_0_r. apply substring_all. Qed.

(** What [TrimRightFunc] leaves does not end in white space. *)
Lemma TrimRightFunc_clean (u : string) :
  unicode.IsSpace
    (fst (utf8.DecodeLastRuneInString
            (strings.TrimRightFunc u unicode.IsSpace))) = false.
Proof.
  unfold strings.TrimRightFunc, strings.lastIndexFunc.
  destruct (lastIndexFunc_loop_stop u (String.length u) (String.length u)
              (Nat.le_refl _) (or_introl eq_refl) (Nat.le_refl _))
    as [E|[J [r [size [HJ [Hnext [HD [Hs E]]]]]]]]; rewrite E.
  - change (0 <=? -1) with false. cbn [andb]. unfold slice.
    now rewrite substring_zero_length.
  - pose proof (TrimRightFunc_cut u J r size HJ Hnext HD) as C.
    cbv zeta in C. rewrite C, Nat2Z.id, HD. exact Hs.
Qed.

(** A text that does not end in white space is left as it is by the
    loop of [TrimSpace] that walks down from its end. *)
Lemma TrimSpace_stop_fixed (s : string) :
  unicode.IsSpace (fst (utf8.DecodeLastRuneInString s)) = false ->
  strings.TrimSpace_stop s 0 (String.length s) = s.
Proof.
  intros H. destruct (String.length s) as [|k] eqn:L.
  - apply length_zero_iff in L. now subst s.
  - assert (Hw : slice s 0 (S k) = s) by (rewrite <- L; apply slice_whole).
    cbn [strings.TrimSpace_stop]. change (0 <? S k)%nat with true. cbv iota.
    rewrite Hw. unfold utf8.RuneSelf.
    destruct (Z.leb_spec 128 (byte_val (byte_at s k))) as [Hb|Hb].
    + unfold strings.TrimRightFunc, strings.lastIndexFunc. rewrite L.
      cbn [strings.lastIndexFunc_loop].
      destruct (Z.ltb_spec 0 (Z.of_nat (S k))); [|lia].
      rewrite Nat2Z.id, Hw.
      destruct (utf8.DecodeLastRuneInString s) as [r size] eqn:E.
      cbn [fst] in H. rewrite H. cbn [negb].
      pose proof (TrimRightFunc_cut s (S k) r size) as C.
      rewrite Hw in C.
      specialize (C ltac:(lia) (or_introl (eq_sym L)) E).
      cbv zeta in C. rewrite C.
      now rewrite Nat2Z.id.
    + rewrite (DecodeLastRune_ascii s k L Hb) in H. cbn [fst] in H.
      rewrite IsSpace_ascii in H by assumption. now rewrite H.
Qed.

(** *** What [TrimSpace] returns *)

Lemma TrimSpace_stop_clean (s : string) (start : nat) :
  forall stop : nat,
    (stop <= String.length s)%nat ->
    unicode.IsSpace
      (fst (utf8.DecodeLastRuneInString (strings.TrimSpace_stop s start stop)))
    = false.
Proof.
  induction stop as [|k IH]; intros H; cbn [strings.TrimSpace_stop].
  - unfold slice. now rewrite substring_zero_length.
  - destruct (Nat.ltb_spec start (S k)) as [Hlt|Hge].
    + unfold utf8.RuneSelf.
      destruct (Z.leb_spec 128 (byte_val (byte_at s k))) as [Hb|Hb];
        [apply TrimRightFunc_clean|].
      destruct (strings.asciiSpace (byte_at s k)) eqn:Ea;
        [apply IH; lia|].
      assert (L : String.length (slice s start (S k)) = S (k - start)).
      { unfold slice. rewrite length_substring by lia. lia. }
      assert (Hk : byte_at (slice s start (S k)) (k - start) = byte_at s k).
      { unfold slice. rewrite byte_at_substring by lia. f_equal. lia. }
      rewrite (DecodeLastRune_ascii _ _ L) by now rewrite Hk.
      cbn [fst]. rewrite Hk, IsSpace_ascii by assumption. exact Ea.
    + unfold slice. replace (S k - start)%nat with 0%nat by lia.
      now rewrite substring_zero_length.
Qed.

Lemma TrimSpace_start_clean (s : string) :
  forall (rest : string) (start : nat),
    unicode.IsSpace
      (fst (utf8.DecodeLastRuneInString
              (strings.TrimSpace_start s rest start))) = false.
Proof.
  induction rest as [|c rest IH]; intros start;
    cbn [strings.TrimSpace_start].
  - now apply TrimSpace_stop_clean.
  - destruct (utf8.RuneSelf <=? byte_val c);
      [unfold strings.TrimFunc; apply TrimRightFunc_clean|].
    destruct (strings.asciiSpace c); [apply IH|].
    now apply TrimSpace_stop_clean.
Qed.

(** What [TrimSpace] returns does not end in white space. *)
Lemma TrimSpace_clean (s : string) :
  unicode.IsSpace
    (fst (utf8.DecodeLastRuneInString (strings.TrimSpace s))) = false.
Proof. apply TrimSpace_start_clean. Qed.

(** *** Dropping a leading ASCII byte *)

Lemma scan_back_cons (a : ascii) (s : string) (lim : Z) :
  0 <= lim ->
  forall (k : nat) (start : Z),
    utf8.scan_back k (String a s) (lim + 1) (start + 1)
    = utf8.scan_back k s lim start + 1.
Proof.
  intros Hl. induction k as [|k IH]; intros start; cbn [utf8.scan_back];
    [reflexivity|].
  destruct (Z.leb_spec lim start); destruct (Z.leb_spec (lim + 1) (start + 1));
    try lia.
  replace (Z.to_nat (start + 1)) with (S (Z.to_nat start)) by lia.
  rewrite byte_at_cons.
  destruct (utf8.RuneStart _); [reflexivity|].
  replace (start + 1 - 1) with (start - 1 + 1) by lia. apply IH.
Qed.

Lemma DecodeRune_continuation (c : ascii) (y : string) :
  utf8.RuneStart (byte_val c) = false ->
  utf8.DecodeRuneInString (String c y) = (utf8.RuneError, 1%nat).
Proof.
  intros H. decode_cons.
  pose proof (first_of_byte c) as F.
  destruct (utf8.first (byte_val c)) as [| |sz rg]; [|reflexivity|].
  - rewrite RuneStart_ascii in H by assumption. discriminate.
  - destruct F as [_ [F _]]. congruence.
Qed.

(** With no lower limit, the same scan in front of an ASCII byte stops at
    that byte at the latest. *)
Lemma scan_back_cons_start (a : ascii) (s : string) :
  utf8.RuneStart (byte_val a) = true ->
  forall (k : nat) (start : Z),
    -1 <= start < Z.of_nat k ->
    utf8.scan_back k (String a s) 0 (start + 1)
    = utf8.scan_back k s 0 start + 1.
Proof.
  intros Ha. induction k as [|k IH]; intros start H; [reflexivity|].
  cbn [utf8.scan_back].
  destruct (Z.leb_spec 0 (start + 1)); [|lia].
  destruct (Z.leb_spec 0 start).
  - replace (Z.to_nat (start + 1)) with (S (Z.to_nat start)) by lia.
    rewrite byte_at_cons.
    destruct (utf8.RuneStart (byte_val (byte_at s (Z.to_nat start))));
      [reflexivity|].
    replace (start + 1 - 1) with (start - 1 + 1) by lia. apply IH. lia.
  - replace (start + 1) with 0 by lia.
    change (byte_at (String a s) (Z.to_nat 0)) with a. now rewrite Ha.
Qed.

(** A scan that runs off the front has passed the first byte. *)
Lemma scan_back_miss (s : string) :
  forall (k : nat) (start : Z),
    0 <= start < Z.of_nat k ->
    utf8.scan_back k s 0 start = -1 ->
    utf8.RuneStart (byte_val (byte_at s 0)) = false.
Proof.
  induction k as [|k IH]; intros start H; [lia|].
  cbn [utf8.scan_back].
  destruct (Z.leb_spec 0 start); [|lia].
  destruct (utf8.RuneStart (byte_val (byte_at s (Z.to_nat start)))) eqn:E;
    [intros; lia|].
  destruct (Z.eq_dec start 0) as [->|Hne]; [intros _; exact E|].
  apply IH. lia.
Qed.

(** An ASCII byte in front of a text does not change the last rune of
    the text. *)
Lemma DecodeLastRune_cons (a : ascii) (s : string) :
  byte_val a < 128 -> s <> "" ->
  utf8.DecodeLastRuneInString (String a s) = utf8.DecodeLastRuneInString s.
Proof.
  intros Ha Hs. unfold utf8.DecodeLastRuneInString. cbn [String.length].
  assert (Hn : (1 <= String.length s)%nat).
  { destruct s; [congruence|cbn [String.length]; lia]. }
  assert (Hwt : slice (String a s) 0 (S (String.length s)) = String a s)
    by apply (slice_whole (String a s)).
  pose proof (slice_whole s) as Hws.
  set (n := String.length s) in *.
  replace (Z.of_nat (S n)) with (Z.of_nat n + 1) by lia.
  set (e := Z.of_nat n). assert (He : 1 <= e) by lia.
  destruct (Z.eqb_spec (e + 1) 0); [lia|].
  destruct (Z.eqb_spec e 0); [lia|].
  replace (Z.to_nat (e + 1 - 1)) with (S (Z.to_nat (e - 1))) by lia.
  rewrite byte_at_cons. unfold utf8.RuneSelf.
  destruct (Z.ltb_spec (byte_val (byte_at s (Z.to_nat (e - 1)))) 128)
    as [|Hb]; [reflexivity|].
  cbv zeta. unfold utf8.UTFMax.
  set (lim := Z.max (e - Z.of_nat 4) 0).
  pose proof (scan_back_bounds s lim 4 (e - 1 - 1) ltac:(lia)) as B.
  assert (Hscan :
            utf8.scan_back 4 (String a s) (Z.max (e + 1 - Z.of_nat 4) 0)
              (e + 1 - 1 - 1)
            = utf8.scan_back 4 s lim (e - 1 - 1) + 1).
  { replace (e + 1 - 1 - 1) with (e - 1 - 1 + 1) by lia.
    destruct (Z.le_gt_cases 4 e).
    - replace (Z.max (e + 1 - Z.of_nat 4) 0) with (lim + 1) by lia.
      apply scan_back_cons. lia.
    - replace (Z.max (e + 1 - Z.of_nat 4) 0) with 0 by lia.
      replace lim with 0 by lia.
      apply scan_back_cons_start; [now apply RuneStart_ascii|lia]. }
  rewrite Hscan.
  set (st := utf8.scan_back 4 s lim (e - 1 - 1)) in *.
  destruct (Z.le_gt_cases 0 st) as [Hst|Hst].
  - replace (Z.max (st + 1) 0) with (Z.max st 0 + 1) by lia.
    replace (Z.to_nat (Z.max st 0 + 1)) with (S (Z.to_nat (Z.max st 0)))
      by lia.
    replace (Z.to_nat (e + 1)) with (S (Z.to_nat e)) by lia.
    rewrite slice_cons.
    destruct (utf8.DecodeRuneInString _) as [r size].
    destruct (Z.eqb_spec (Z.max st 0 + 1 + Z.of_nat size) (e + 1));
      destruct (Z.eqb_spec (Z.max st 0 + Z.of_nat size) e);
      try reflexivity; lia.
  - assert (Est : st = -1) by lia.
    assert (Elim : lim = 0) by lia.
    replace (Z.max (st + 1) 0) with 0 by lia.
    replace (Z.max st 0) with 0 by lia.
    replace (Z.to_nat (e + 1)) with (S n) by lia.
    replace (Z.to_nat e) with n by lia.
    change (Z.to_nat 0) with 0%nat.
    rewrite Hwt, Hws, DecodeRune_ascii by assumption.
    destruct (Z.eqb_spec (0 + Z.of_nat 1) (e + 1)); [lia|].
    destruct s as [|c y]; [congruence|].
    assert (Hd : utf8.DecodeRuneInString (String c y)
                 = (utf8.RuneError, 1%nat)).
    { destruct y as [|c' y].
      - apply DecodeRune_broken; [|now left].
        cbn [String.length] in *. subst n e.
        now replace (Z.to_nat (Z.of_nat 1 - 1)) with 0%nat in Hb by lia.
      - apply DecodeRune_continuation.
        change c with (byte_at (String c (String c' y)) 0).
        apply (scan_back_miss _ 4 (e - 1 - 1)).
        + cbn [String.length] in *. subst n e lim. lia.
        + subst st. now rewrite Elim in Est. }
    rewrite Hd.
    destruct (0 + Z.of_nat 1 =? e); reflexivity.
Qed.

(** *** The text after a leading ASCII byte of a trimmed text *)

Lemma slice_from_tail (a : ascii) (s : string) :
  slice_from (String a s) 1 = s.
Proof.
  unfold slice_from, slice. cbn [String.length Nat.sub substring].
  rewrite Nat.sub_0_r. apply substring_all.
Qed.

(** Trimming the text behind the first byte of a trimmed text changes
    nothing, when both the first byte and the one behind it are ASCII
    bytes other than white space. *)
Lemma TrimSpace_remainder (col : string) (a : ascii) (rest : string) :
  strings.TrimSpace col = String a rest ->
  byte_val a < 128 ->
  rest = ""
  \/ (byte_val (byte_at rest 0) < 128
      /\ strings.asciiSpace (byte_at rest 0) = false) ->
  strings.TrimSpace rest = rest.
Proof.
  intros E Ha [->|[Hc Hsp]]; [reflexivity|].
  destruct rest as [|c rest]; [reflexivity|].
  change (byte_at (String c rest) 0) with c in Hc, Hsp.
  unfold strings.TrimSpace. cbn [strings.TrimSpace_start].
  unfold utf8.RuneSelf.
  destruct (Z.leb_spec 128 (byte_val c)); [lia|]. rewrite Hsp.
  apply TrimSpace_stop_fixed.
  rewrite <- (DecodeLastRune_cons a) by (assumption || discriminate).
  rewrite <- E. apply TrimSpace_clean.
Qed.

Lemma sort_tokens_trimmed (s t : string) :
  In t (sort_tokens s) -> exists col : string, t = strings.TrimSpace col.
Proof.
  unfold sort_tokens, trimmed_columns. intros H.
  apply filter_In in H. destruct H as [H _].
  apply in_map_iff in H. destruct H as [col [<- _]]. now exists col.
Qed.

(** On a trimmed token that the spec's rule admits, the code writes what
    the spec says. *)
Lemma render_token_as_it_stands (col : string) :
  spec_valid_token (strings.TrimSpace col) = true ->
  render_token (strings.TrimSpace col)
  = spec_render_token (strings.TrimSpace col).
Proof.
  unfold spec_valid_token, render_token, spec_render_token. intros H.
  apply andb_prop in H. destruct H as [_ H].
  destruct (strings.HasPrefix (strings.TrimSpace col) "-") eqn:Hp;
    [|reflexivity].
  destruct (HasPrefix_dash _ Hp) as [rest E]. rewrite E in *.
  rewrite slice_from_tail. f_equal.
  apply (TrimSpace_remainder col "-" rest E); [reflexivity|].
  cbn [negb orb String.length] in H. change (byte_at (String "-" rest) 1)
    with (byte_at rest 0) in H.
  apply orb_prop in H. destruct H as [H|H].
  - left. apply Nat.eqb_eq in H. apply length_zero_iff. lia.
  - right. now apply allowed_byte_ascii.
Qed.

(** C6: a sort string that the spec's rule admits -- every token begins
    with a byte of the charset and, behind a leading [-], ends or goes on
    with a byte of the charset -- compiles to the comma-joined renderings
    of its tokens in input order, the tokens being the comma-separated
    pieces trimmed of surrounding white space with the empty ones
    skipped; a token beginning with [-] is rendered as the text after the
    [-], as it stands, followed by " desc", and any other token as the
    token followed by " asc". *)
Theorem sort_string_compiles_in_order :
  forall s : string,
    Forall (fun t => spec_valid_token t = true) (sort_tokens s) ->
    toSortParams (Some s)
    = (strings.Join (map spec_render_token (sort_tokens s)) ",", None).
Proof.
  intros s H. rewrite toSortParams_spec.
  assert (Hv : Forall (fun t => valid_token t = true) (sort_tokens s)).
  { eapply Forall_impl; [|exact H]. cbv beta. intros t Ht.
    unfold spec_valid_token in Ht. now apply andb_prop in Ht. }
  apply find_none_forall in Hv. rewrite Hv. f_equal. f_equal.
  apply map_ext_in. intros t Hin.
  destruct (sort_tokens_trimmed s t Hin) as [col ->].
  apply render_token_as_it_stands.
  rewrite Forall_forall in H. now apply H.
Qed.

(** The spec's scenario: [-year,title] is descending on [year], then
    ascending on [title]. *)
Lemma sort_string_compiles_in_order_witness :
  toSortParams (Some "-year,title") = ("year desc,title asc", None).
Proof.
  apply (sort_string_compiles_in_order "-year,title").
  repeat constructor.
Defined.

Example sort_tokens_trimmed_and_skipped :
  sort_tokens " a ,, -b " = ["a"; "-b"]
  /\ toSortParams (Some " a ,, -b ") = ("a asc,b desc", None).
Proof. split; reflexivity. Qed.

(** A token that ends beyond ASCII, with a no-break space behind it:
    trimming goes through the UTF-8 decoder, and the text after the [-]
    is written as it stands. *)
Example sort_token_beyond_ascii :
  toSortParams (Some ("-a" ++ encode_runes [233; 160] ++ ",b"))
  = ("a" ++ encode_runes [233] ++ " desc,b asc", None).
Proof. vm_compute. reflexivity. Qed.

(** Outside the sort strings that the spec's rule admits, the second
    trimming shows: the token [- year] passes the check of the code and
    is rendered as "year desc". *)
Example sort_descending_remainder_trimmed_again :
  spec_valid_token "- year" = false
  /\ valid_token "- year" = true
  /\ toSortParams (Some "- year") = ("year desc", None).
Proof. repeat split. Qed.

(** ** Blank sort strings *)

(** Slicing off a prefix by its length leaves the rest. *)
Lemma slice_from_append (pre rest : string) :
  slice_from (pre ++ rest) (String.length pre) = rest.
Proof.
  unfold slice_from, slice. rewrite length_append.
  replace (String.length pre + String.length rest - String.length pre)%nat
    with (String.length rest) by lia.
  induction pre as [|c pre IH]; simpl; [apply substring_all|exact IH].
Qed.

Lemma TrimSpace_stop_at_end (s : string) :
  strings.TrimSpace_stop s (String.length s) (String.length s) = "".
Proof.
  destruct (String.length s) as [|k] eqn:E; cbn [strings.TrimSpace_stop].
  - unfold slice. apply substring_zero_length.
  - rewrite Nat.ltb_irrefl. unfold slice. rewrite Nat.sub_diag.
    apply substring_zero_length.
Qed.

(** *** White-space runes and their encodings *)

Lemma IsSpace_listed (r : Z) : unicode.IsSpace r = true -> In r space_runes.
Proof.
  unfold unicode.IsSpace, unicode.MaxLatin1, unicode.in_table,
    unicode.White_Space, space_runes.
  cbn [existsb In]. intros H.
  destruct (r <=? 255) eqn:E;
    rewrite ?orb_true_iff, ?andb_true_iff, ?Z.eqb_eq, ?Z.leb_le in H; lia.
Qed.

Lemma space_runes_ok : Forall space_encoding_ok space_runes.
Proof.
  unfold space_runes.
  repeat (constructor;
          [ split; [unfold has_byte; vm_compute; intuition discriminate|];
            split; [intros rest; reflexivity|];
            eexists _, _; split; [reflexivity|];
            first [left; split; reflexivity | right; reflexivity] | ]).
  constructor.
Qed.

Lemma IsSpace_encoding_ok (r : Z) :
  unicode.IsSpace r = true -> space_encoding_ok r.
Proof.
  intros H. apply IsSpace_listed in H.
  pose proof space_runes_ok as Hall. rewrite Forall_forall in Hall. auto.
Qed.

(** *** Trimming white space *)

Lemma indexFunc_from_skip (f : Z -> bool) (a b : string) (i : Z) :
  strings.indexFunc_from f (a ++ b) (String.length a) i
  = strings.indexFunc_from f b 0 (i + Z.of_nat (String.length a)).
Proof.
  revert i. induction a as [|x a IH]; intros i.
  - simpl. f_equal. lia.
  - cbn [append String.length strings.indexFunc_from].
    rewrite IH. f_equal. lia.
Qed.

(** No rune of a white-space text stops the left trim. *)
Lemma indexFunc_spaces (rs : list Z) :
  Forall (fun r => unicode.IsSpace r = true) rs ->
  forall i : Z,
    strings.indexFunc_from unicode.IsSpace (encode_runes rs) 0 i = -1.
Proof.
  induction 1 as [|r rs Hr _ IH]; intros i; [reflexivity|].
  destruct (IsSpace_encoding_ok r Hr) as [_ [Hdec [c [tail [He _]]]]].
  cbn [encode_runes]. specialize (Hdec (encode_runes rs)).
  rewrite He in *. cbn [append] in *.
  cbn [strings.indexFunc_from]. rewrite Hdec, Hr. cbn [negb String.length].
  replace (S (String.length tail) - 1)%nat with (String.length tail) by lia.
  rewrite indexFunc_from_skip. apply IH.
Qed.

Lemma TrimFunc_spaces (rs : list Z) :
  Forall (fun r => unicode.IsSpace r = true) rs ->
  strings.TrimFunc (encode_runes rs) unicode.IsSpace = "".
Proof.
  intros H. unfold strings.TrimFunc, strings.TrimLeftFunc, strings.indexFunc.
  rewrite (indexFunc_spaces rs H). reflexivity.
Qed.

(** The first loop of [TrimSpace] over a text whose remainder is white
    space: it runs to the end over ASCII bytes, or hands the remainder to
    [TrimFunc]; either way nothing is left. *)
Lemma TrimSpace_start_spaces (rs : list Z) :
  Forall (fun r => unicode.IsSpace r = true) rs ->
  forall pre : string,
    strings.TrimSpace_start (pre ++ encode_runes rs) (encode_runes rs)
      (String.length pre) = "".
Proof.
  induction 1 as [|r rs Hr Hrs IH]; intros pre.
  - cbn [encode_runes strings.TrimSpace_start].
    rewrite append_nil_r. apply TrimSpace_stop_at_end.
  - destruct (IsSpace_encoding_ok r Hr) as [_ [_ [c [tail [He Hc]]]]].
    destruct Hc as [[-> Hsp]|Hhigh].
    + cbn [encode_runes]. rewrite He. cbn [append strings.TrimSpace_start].
      assert (Hlow : (utf8.RuneSelf <=? byte_val c) = false).
      { unfold strings.asciiSpace, utf8.RuneSelf in *. cbv zeta in Hsp.
        apply Z.leb_gt.
        repeat (apply orb_true_iff in Hsp; destruct Hsp as [Hsp|Hsp]);
          apply Z.eqb_eq in Hsp; lia. }
      rewrite Hlow, Hsp.
      specialize (IH (pre ++ String c "")).
      rewrite append_assoc, length_append in IH. cbn [append String.length] in IH.
      replace (S (String.length pre)) with (String.length pre + 1)%nat by lia.
      exact IH.
    + assert (E : encode_runes (r :: rs) = String c (tail ++ encode_runes rs))
        by (cbn [encode_runes]; now rewrite He).
      rewrite E. cbn [strings.TrimSpace_start]. rewrite Hhigh.
      rewrite slice_from_append, <- E.
      apply TrimFunc_spaces. now constructor.
Qed.

Lemma TrimSpace_spaces (rs : list Z) :
  Forall (fun r => unicode.IsSpace r = true) rs ->
  strings.TrimSpace (encode_runes rs) = "".
Proof.
  intros H. exact (TrimSpace_start_spaces rs H "").
Qed.

(** *** Splitting at commas *)

Lemma cut_head (sep : ascii) (s : string) :
  strings.cut sep (String sep s) = Some ("", s).
Proof. simpl. now rewrite Ascii.eqb_refl. Qed.

(** A prefix free of the separator stays in front of the cut. *)
Lemma cut_append (sep : ascii) (a b : string) :
  ~ has_byte sep a ->
  strings.cut sep (a ++ b)
  = match strings.cut sep b with
    | Some (before, after) => Some (a ++ before, after)
    | None => None
    end.
Proof.
  unfold has_byte. induction a as [|x a IH]; simpl; intros H.
  - destruct (strings.cut sep b) as [[? ?]|]; reflexivity.
  - destruct (Ascii.eqb x sep) eqn:E.
    + apply Ascii.eqb_eq in E. tauto.
    + rewrite IH by tauto.
      destruct (strings.cut sep b) as [[? ?]|]; reflexivity.
Qed.

Lemma Count_append (sep : ascii) (a b : string) :
  strings.Count sep (a ++ b) = (strings.Count sep a + strings.Count sep b)%nat.
Proof.
  induction a as [|x a IH]; simpl; [reflexivity|].
  destruct (Ascii.eqb x sep); simpl; now rewrite IH.
Qed.

Lemma Count_le_length (sep : ascii) (s : string) :
  (strings.Count sep s <= String.length s)%nat.
Proof.
  induction s as [|c s IH]; simpl; [lia|].
  destruct (Ascii.eqb c sep); lia.
Qed.

Lemma encode_runes_app (a b : list Z) :
  encode_runes (a ++ b) = encode_runes a ++ encode_runes b.
Proof.
  induction a as [|r a IH]; simpl; [reflexivity|].
  now rewrite IH, append_assoc.
Qed.

Lemma spaces_hold_no_comma (rs : list Z) :
  Forall (fun r => unicode.IsSpace r = true) rs ->
  ~ has_byte "," (encode_runes rs).
Proof.
  induction 1 as [|r rs Hr _ IH]; [intros []|].
  cbn [encode_runes]. rewrite has_byte_append.
  destruct (IsSpace_encoding_ok r Hr) as [Hn _]. tauto.
Qed.

(** A run of commas and white space is all white space, or white space up
    to a first comma. *)
Lemma first_comma (rs : list Z) :
  Forall (fun r => r = comma \/ unicode.IsSpace r = true) rs ->
  Forall (fun r => unicode.IsSpace r = true) rs
  \/ exists before after : list Z,
       rs = (before ++ comma :: after)%list
       /\ Forall (fun r => unicode.IsSpace r = true) before
       /\ Forall (fun r => r = comma \/ unicode.IsSpace r = true) after.
Proof.
  induction 1 as [|r rs Hr Hrs IH]; [left; constructor|].
  destruct Hr as [->|Hr].
  - right. exists [], rs. repeat split; [constructor|assumption].
  - destruct IH as [IH|[before [after [-> [Hb Ha]]]]].
    + left. now constructor.
    + right. exists (r :: before), after.
      repeat split; [now constructor|assumption].
Qed.

(** With a round for every comma, the pieces of a run of commas and white
    space are runs of white space. *)
Lemma genSplit_loop_spaces :
  forall (n : nat) (rs : list Z),
    Forall (fun r => r = comma \/ unicode.IsSpace r = true) rs ->
    (strings.Count "," (encode_runes rs) <= n)%nat ->
    Forall
      (fun piece =>
         exists ws : list Z,
           Forall (fun r => unicode.IsSpace r = true) ws
           /\ piece = encode_runes ws)
      (strings.genSplit_loop "," n (encode_runes rs)).
Proof.
  induction n as [|n IH]; intros rs Hrs Hn;
    destruct (first_comma rs Hrs) as [Hsp|[before [after [-> [Hb Ha]]]]].
  - cbn. repeat constructor. now exists rs.
  - exfalso. rewrite encode_runes_app, Count_append in Hn.
    cbn in Hn. lia.
  - cbn [strings.genSplit_loop].
    pose proof (spaces_hold_no_comma rs Hsp) as Hno.
    destruct (strings.cut "," (encode_runes rs)) as [[b a]|] eqn:E.
    + exfalso. apply Hno.
      destruct (cut_Some_inv _ _ _ _ E) as [-> _].
      apply has_byte_append. right. now left.
    + repeat constructor. now exists rs.
  - cbn [strings.genSplit_loop].
    rewrite encode_runes_app in *.
    change (encode_runes (comma :: after))
      with (String "," (encode_runes after)) in *.
    rewrite (cut_append _ _ _ (spaces_hold_no_comma before Hb)), cut_head.
    rewrite append_nil_r.
    constructor; [now exists before|].
    apply IH; [assumption|].
    rewrite Count_append in Hn. cbn in Hn. lia.
Qed.

Lemma Split_spaces (rs : list Z) :
  Forall (fun r => r = comma \/ unicode.IsSpace r = true) rs ->
  Forall
    (fun piece =>
       exists ws : list Z,
         Forall (fun r => unicode.IsSpace r = true) ws
         /\ piece = encode_runes ws)
    (strings.Split (encode_runes rs) ",").
Proof.
  intros H. unfold strings.Split, strings.genSplit.
  change (-1 =? 0) with false. change (-1 <? 0) with true. cbv iota.
  pose proof (Count_le_length "," (encode_runes rs)).
  rewrite Z.min_l by lia.
  replace (Z.to_nat (Z.of_nat (strings.Count "," (encode_runes rs)) + 1 - 1))
    with (strings.Count "," (encode_runes rs)) by lia.
  now apply genSplit_loop_spaces.
Qed.

Lemma sort_tokens_blank (s : string) :
  commas_and_spaces s -> sort_tokens s = [].
Proof.
  intros [rs [Hrs ->]]. unfold sort_tokens, trimmed_columns.
  pose proof (Split_spaces rs Hrs) as HP.
  induction HP as [|piece l [ws [Hws ->]] _ IH]; [reflexivity|].
  cbn [map filter]. rewrite (TrimSpace_spaces ws Hws). exact IH.
Qed.

(** C10: an absent sort parameter, an empty sort string and a sort string
    made of commas and white space only all compile to the empty sort with
    no error. *)
Theorem blank_sort_is_no_sort :
  toSortParams None = ("", None)
  /\ toSortParams (Some "") = ("", None)
  /\ forall s : string,
       commas_and_spaces s -> toSortParams (Some s) = ("", None).
Proof.
  split; [reflexivity|]. split; [reflexivity|].
  intros s H. rewrite toSortParams_spec, (sort_tokens_blank s H). reflexivity.
Qed.

(** A space, a comma, a space and a comma. *)
Lemma blank_sort_is_no_sort_witness :
  toSortParams (Some " , ,") = ("", None).
Proof.
  apply (proj2 (proj2 blank_sort_is_no_sort) " , ,").
  exists [32; comma; 32; comma]. split; [|reflexivity].
  repeat constructor; first [now left | now right].
Defined.

(** A no-break space, a comma and an ideographic space. *)
Example blank_sort_beyond_ascii :
  toSortParams (Some (encode_runes [160; comma; 12288])) = ("", None).
Proof. reflexivity. Qed.

(** * Further properties of the code *)

(** ** The pointer helpers *)

(** X1: [v] undoes [p]: for a type whose equality test decides equality,
    [v (p t)] is [t] for every value, the zero value included. *)
Theorem v_after_p :
  forall (T : Type) (C : Comparable T),
    (forall a b : T, equal a b = true <-> a = b) ->
    forall t : T, v (p t) = t.
Proof.
  intros T C Heq t. unfold p.
  destruct (equal t zero_value) eqn:E; [|reflexivity].
  apply Heq in E. now subst t.
Qed.

Lemma v_after_p_witness : v (p "year") = "year" /\ v (p "") = "".
Proof.
  split; apply (v_after_p string Comparable_string String.eqb_eq).
Defined.

(** X2: [p] undoes [v] on every pointer except a pointer to the zero
    value, which comes back as nil; so [p] never returns a pointer to the
    zero value. *)
Theorem p_after_v :
  forall (T : Type) (C : Comparable T),
    (forall a b : T, equal a b = true <-> a = b) ->
    forall o : option T,
      (o <> Some zero_value -> p (v o) = o)
      /\ (o = Some zero_value -> p (v o) = None)
      /\ (forall t : T, p t <> Some zero_value).
Proof.
  intros T C Heq o.
  assert (Hz : equal (zero_value : T) zero_value = true) by now apply Heq.
  repeat split.
  - intros Hne. destruct o as [t|]; unfold p, v.
    + destruct (equal t zero_value) eqn:E; [|reflexivity].
      apply Heq in E. subst t. contradiction.
    + now rewrite Hz.
  - intros ->. unfold p, v. now rewrite Hz.
  - intros t. unfold p.
    destruct (equal t zero_value) eqn:E; [discriminate|].
    intros H. inversion H; subst. congruence.
Qed.

Lemma p_after_v_witness :
  p (v (Some 10)) = Some 10 /\ p (v (Some 0)) = None.
Proof.
  split.
  - apply (proj1 (p_after_v Z Comparable_int32 Z.eqb_eq (Some 10))).
    discriminate.
  - apply (proj1 (proj2 (p_after_v Z Comparable_int32 Z.eqb_eq (Some 0)))).
    reflexivity.
Defined.

(** ** The query descriptor *)

(** X3: [toQueryOptions] panics exactly when some filter token, of any of
    the eight families, holds no colon; the panic is the index error of
    reading [parts[1]] from a one-element split. *)
Theorem toQueryOptions_panics_without_colon :
  forall params : GetTracksParams,
    toQueryOptions params = Panic (IndexOutOfRange 1 1)
    <-> Exists (fun t => ~ has_byte ":" t) (all_filter_tokens params).
Proof.
  intros params. split.
  - intros Hp.
    destruct (Exists_dec (fun t => ~ has_byte ":" t)
                (all_filter_tokens params)) as [Hex|Hno]; [|exact Hex|].
    + intros t. destruct (has_byte_dec ":" t); [right|left]; tauto.
    + exfalso.
      assert (Hall : Forall (has_byte ":") (all_filter_tokens params)).
      { apply Forall_forall. intros t Hin.
        destruct (has_byte_dec ":" t) as [H|H]; [exact H|].
        exfalso. apply Hno. apply Exists_exists. now exists t. }
      destruct (toQueryOptions_ok params Hall) as [filters E].
      rewrite E in Hp. discriminate.
  - apply toQueryOptions_without_colon.
Qed.

(** X4: when every filter token holds a colon, the descriptor carries the
    page limit and offset of the request, each 0 when absent, and the sort
    exactly as the sort compiler returns it; a warning is logged when the
    sort compiler fails, and only then. *)
Theorem toQueryOptions_window_and_sort :
  forall params : GetTracksParams,
    Forall (has_byte ":") (all_filter_tokens params) ->
    exists (qo : QueryOptions) (log : list logLine),
      toQueryOptions params = Ok (qo, log)
      /\ qoMax qo = match PageLimit params with Some l => l | None => 0 end
      /\ qoOffset qo = match PageOffset params with Some o => o | None => 0 end
      /\ qoSort qo = fst (toSortParams (Sort params))
      /\ (log = [] <-> snd (toSortParams (Sort params)) = None)
      /\ (forall e, snd (toSortParams (Sort params)) = Some e ->
          log = [("Ignoring invalid sort parameter", e)] /\ qoSort qo = "").
Proof.
  intros params H.
  destruct (toQueryOptions_ok params H) as [filters E].
  eexists _, _. split; [exact E|]. cbn [qoMax qoOffset qoSort].
  split; [destruct (PageLimit params); reflexivity|].
  split; [destruct (PageOffset params); reflexivity|].
  split; [reflexivity|].
  destruct (Sort params) as [s|]; [|cbn; split; [tauto|discriminate]].
  rewrite toSortParams_spec.
  destruct (find _ (sort_tokens s)); cbn [fst snd].
  - split; [split; discriminate|].
    intros e He. inversion He; subst. split; reflexivity.
  - split; [tauto|discriminate].
Qed.

Lemma toQueryOptions_window_and_sort_witness :
  exists (qo : QueryOptions) (log : list logLine),
    toQueryOptions (pageParams (Some 10) None) = Ok (qo, log)
    /\ qoMax qo = 10
    /\ qoOffset qo = 0
    /\ qoSort qo = ""
    /\ (log = [] <-> @None errors.error = None)
    /\ (forall e, None = Some e ->
        log = [("Ignoring invalid sort parameter", e)] /\ qoSort qo = "").
Proof.
  apply (toQueryOptions_window_and_sort (pageParams (Some 10) None)).
  constructor.
Defined.

(** X5: the value of a filter goes into the LIKE pattern as it is: a
    starts-with filter whose value begins with [%] compiles to the very
    clause of the contains filter on the rest of the value, and an
    ends-with filter whose value ends with [%] likewise. *)
Theorem like_wildcards_pass_through :
  forall (field x : string) (filters : list squirrel.Sqlizer),
    ~ has_byte ":" field ->
    parseFilter (Some [field ++ ":" ++ "%" ++ x]) opStartsWith filters
    = parseFilter (Some [field ++ ":" ++ x]) opContains filters
    /\ parseFilter (Some [field ++ ":" ++ x ++ "%"]) opEndsWith filters
       = parseFilter (Some [field ++ ":" ++ x]) opContains filters
    /\ parseFilter (Some [field ++ ":" ++ x]) opContains filters
       = Ok (go_append filters (squirrel.Like field ("%" ++ x ++ "%"))).
Proof.
  intros field x filters Hf.
  assert (Hcut : forall y, strings.cut ":" (field ++ ":" ++ y) = Some (field, y)).
  { intros y. change (":" ++ y) with (String ":" y).
    rewrite (cut_append _ _ _ Hf), cut_head. now rewrite append_nil_r. }
  cbn [parseFilter parseFilter_loop].
  rewrite !(SplitN_2_cut _ _ _ _ (Hcut _)).
  cbn [index nth_error bind]. unfold opStartsWith, opEndsWith, opContains.
  change ("%" ++ x) with (String "%" x).
  change ("%" ++ x ++ "%") with (String "%" (x ++ "%")).
  repeat split.
Qed.

Lemma like_wildcards_pass_through_witness :
  parseFilter (Some ["title:%love"]) opStartsWith []
  = parseFilter (Some ["title:love"]) opContains []
  /\ parseFilter (Some ["title:love%"]) opEndsWith []
     = parseFilter (Some ["title:love"]) opContains []
  /\ parseFilter (Some ["title:love"]) opContains []
     = Ok [squirrel.Like "title" "%love%"].
Proof.
  apply (like_wildcards_pass_through "title" "love" []).
  unfold has_byte. simpl. intuition discriminate.
Defined.

(** ** More on the sort compiler *)

Lemma Split_as_loop (sep : ascii) (s : string) :
  strings.Split s sep = strings.genSplit_loop sep (strings.Count sep s) s.
Proof.
  unfold strings.Split, strings.genSplit.
  change (-1 =? 0) with false. change (-1 <? 0) with true. cbv iota.
  pose proof (Count_le_length sep s).
  rewrite Z.min_l by lia. f_equal. lia.
Qed.

Lemma Count_absent (sep : ascii) (s : string) :
  ~ has_byte sep s -> strings.Count sep s = 0%nat.
Proof.
  unfold has_byte. induction s as [|c s IH]; simpl; intros H; [reflexivity|].
  destruct (Ascii.eqb c sep) eqn:E.
  - apply Ascii.eqb_eq in E. tauto.
  - apply IH. tauto.
Qed.

Lemma Count_zero (sep : ascii) (s : string) :
  strings.Count sep s = 0%nat -> ~ has_byte sep s.
Proof.
  unfold has_byte. induction s as [|c s IH]; simpl; intros H; [tauto|].
  destruct (Ascii.eqb c sep) eqn:E; [discriminate|].
  apply Ascii.eqb_neq in E. intros [H'|H']; [contradiction|now apply IH].
Qed.

Lemma Split_without_separator (sep : ascii) (s : string) :
  ~ has_byte sep s -> strings.Split s sep = [s].
Proof.
  intros H. rewrite Split_as_loop, (Count_absent sep s H). reflexivity.
Qed.

(** X6: only the first byte of a sort token is checked.  A text without
    commas and without surrounding white space whose first byte is in
    [[A-Za-z0-9_]] compiles to itself followed by " asc", whatever bytes
    follow the first. *)
Theorem sort_token_checked_by_first_byte_only :
  forall (c : ascii) (rest : string),
    allowed_byte c = true -> c <> "-"%char ->
    ~ has_byte "," (String c rest) ->
    strings.TrimSpace (String c rest) = String c rest ->
    toSortParams (Some (String c rest)) = (String c rest ++ " asc", None).
Proof.
  intros c rest Hc Hd Hcomma Htrim.
  unfold toSortParams. cbn [String.eqb].
  rewrite (Split_without_separator "," _ Hcomma).
  cbn [toSortParams_loop]. rewrite Htrim. cbn [String.eqb].
  rewrite validSortPattern_first_byte.
  change (byte_at (String c rest) 0) with c. rewrite Hc. cbn [negb].
  unfold strings.HasPrefix. cbn [prefix].
  destruct (ascii_dec "-" c) as [E|_]; [congruence|].
  reflexivity.
Qed.

Lemma sort_token_checked_by_first_byte_only_witness :
  toSortParams (Some "title; DROP TABLE media_file")
  = ("title; DROP TABLE media_file asc", None).
Proof.
  apply (sort_token_checked_by_first_byte_only "t" "itle; DROP TABLE media_file").
  - reflexivity.
  - discriminate.
  - unfold has_byte. simpl. intuition discriminate.
  - reflexivity.
Defined.

Lemma Count_cut (sep : ascii) (s before after : string) :
  strings.cut sep s = Some (before, after) ->
  strings.Count sep s = S (strings.Count sep after).
Proof.
  intros E. destruct (cut_Some_inv _ _ _ _ E) as [-> Hb].
  rewrite Count_append, (Count_absent sep before Hb). simpl.
  now rewrite Ascii.eqb_refl.
Qed.

Lemma cut_None_Count (sep : ascii) (s : string) :
  strings.cut sep s = None -> strings.Count sep s = 0%nat.
Proof.
  induction s as [|c s IH]; simpl; [reflexivity|].
  destruct (Ascii.eqb c sep); [discriminate|].
  destruct (strings.cut sep s) as [[? ?]|]; [discriminate|]. auto.
Qed.

(** Splitting two texts joined by the separator gives the pieces of the
    first followed by the pieces of the second. *)
Lemma genSplit_loop_joined (sep : ascii) (b : string) :
  forall (n : nat) (a : string),
    strings.Count sep a = n ->
    strings.genSplit_loop sep (n + S (strings.Count sep b))
      (a ++ String sep b)
    = (strings.genSplit_loop sep n a
       ++ strings.genSplit_loop sep (strings.Count sep b) b)%list.
Proof.
  induction n as [|n IH]; intros a Hn.
  - cbn [Nat.add strings.genSplit_loop].
    rewrite cut_append, cut_head by (now apply Count_zero).
    now rewrite append_nil_r.
  - destruct (strings.cut sep a) as [[x y]|] eqn:E.
    + pose proof (Count_cut _ _ _ _ E) as Hc.
      destruct (cut_Some_inv _ _ _ _ E) as [Ha Hx].
      cbn [Nat.add strings.genSplit_loop]. rewrite E.
      rewrite Ha at 1. rewrite append_assoc.
      change (String sep y ++ String sep b) with (String sep (y ++ String sep b)).
      rewrite (cut_append _ _ _ Hx), cut_head, append_nil_r.
      cbn [app]. f_equal. apply IH. lia.
    + apply cut_None_Count in E. lia.
Qed.

Lemma Split_joined (sep : ascii) (a b : string) :
  strings.Split (a ++ String sep b) sep
  = (strings.Split a sep ++ strings.Split b sep)%list.
Proof.
  rewrite !Split_as_loop, Count_append. simpl strings.Count at 2.
  rewrite Ascii.eqb_refl. now apply genSplit_loop_joined.
Qed.

Lemma trimmed_columns_app (l1 l2 : list string) :
  trimmed_columns (l1 ++ l2) = (trimmed_columns l1 ++ trimmed_columns l2)%list.
Proof. unfold trimmed_columns. now rewrite map_app, filter_app. Qed.

Lemma sort_tokens_joined (a b : string) :
  sort_tokens (a ++ "," ++ b) = (sort_tokens a ++ sort_tokens b)%list.
Proof.
  unfold sort_tokens. change ("," ++ b) with (String "," b).
  now rewrite Split_joined, trimmed_columns_app.
Qed.

Lemma render_token_nonempty (t : string) : render_token t <> "".
Proof.
  unfold render_token. intros H. apply (f_equal String.length) in H.
  destruct (strings.HasPrefix t "-"); rewrite length_append in H;
    simpl in H; lia.
Qed.

Lemma Join_cons_nonempty (x : string) (l : list string) (sep : string) :
  x <> "" -> strings.Join (x :: l) sep <> "".
Proof.
  unfold strings.Join. intros Hx H. destruct l as [|y l]; simpl in H.
  - contradiction.
  - destruct x; [contradiction|discriminate].
Qed.

Lemma Join_app (l1 l2 : list string) (sep : string) :
  l1 <> [] -> l2 <> [] ->
  strings.Join (l1 ++ l2) sep
  = strings.Join l1 sep ++ sep ++ strings.Join l2 sep.
Proof.
  unfold strings.Join. intros H1 H2.
  induction l1 as [|x l1 IH]; [contradiction|].
  destruct l1 as [|y l1].
  - destruct l2 as [|z l2]; [contradiction|]. reflexivity.
  - cbn [app String.concat] in *. rewrite IH by discriminate.
    now rewrite !append_assoc.
Qed.

(** The compiled sort is empty only when there is no token. *)
Lemma compiled_sort_empty (l : list string) :
  strings.Join (map render_token l) "," = "" -> l = [].
Proof.
  destruct l as [|t l]; [reflexivity|]. intros H. exfalso.
  exact (Join_cons_nonempty _ _ _ (render_token_nonempty t) H).
Qed.

(** X7: compiling two sort strings joined by a comma.  If the first fails
    the whole fails with its error; if only the second fails the whole
    fails with that error; if both compile the result is the two compiled
    sorts joined by a comma, an empty one being left out. *)
Theorem sort_strings_compose :
  forall a b : string,
    (forall e, toSortParams (Some a) = ("", Some e) ->
               toSortParams (Some (a ++ "," ++ b)) = ("", Some e))
    /\ (forall ra e,
           toSortParams (Some a) = (ra, None) ->
           toSortParams (Some b) = ("", Some e) ->
           toSortParams (Some (a ++ "," ++ b)) = ("", Some e))
    /\ (forall ra rb,
           toSortParams (Some a) = (ra, None) ->
           toSortParams (Some b) = (rb, None) ->
           toSortParams (Some (a ++ "," ++ b))
           = (if String.eqb ra "" then rb
              else if String.eqb rb "" then ra
              else ra ++ "," ++ rb, None)).
Proof.
  intros a b. rewrite !toSortParams_spec, sort_tokens_joined.
  assert (Hfind :
            find (fun t => negb (valid_token t)) (sort_tokens a ++ sort_tokens b)
            = match find (fun t => negb (valid_token t)) (sort_tokens a) with
              | Some t => Some t
              | None => find (fun t => negb (valid_token t)) (sort_tokens b)
              end).
  { induction (sort_tokens a) as [|t l IH]; [reflexivity|].
    simpl. destruct (negb (valid_token t)); [reflexivity|exact IH]. }
  rewrite Hfind. clear Hfind.
  destruct (find _ (sort_tokens a)) as [ta|].
  - repeat split; [tauto| |]; intros; discriminate.
  - split; [intros; discriminate|].
    destruct (find _ (sort_tokens b)) as [tb|].
    + split; [tauto|intros; discriminate].
    + split; [intros; discriminate|].
      intros ra rb Ha Hb. inversion Ha. inversion Hb. subst ra rb.
      rewrite map_app. f_equal.
      destruct (sort_tokens a) as [|t l]; [reflexivity|].
      destruct (String.eqb_spec
                  (strings.Join (map render_token (t :: l)) ",") "")
        as [E|_];
        [apply compiled_sort_empty in E; discriminate|].
      destruct (sort_tokens b) as [|u m]; [now rewrite app_nil_r|].
      destruct (String.eqb_spec
                  (strings.Join (map render_token (u :: m)) ",") "")
        as [E|_];
        [apply compiled_sort_empty in E; discriminate|].
      apply Join_app; discriminate.
Qed.

Lemma sort_strings_compose_witness :
  toSortParams (Some ("$x" ++ "," ++ "title"))
  = ("", Some (errors.New "invalid sort parameter: $x"))
  /\ toSortParams (Some ("-year" ++ "," ++ "$x"))
     = ("", Some (errors.New "invalid sort parameter: $x"))
  /\ toSortParams (Some ("-year" ++ "," ++ "title"))
     = ("year desc,title asc", None).
Proof.
  split; [|split].
  - apply (proj1 (sort_strings_compose "$x" "title")). reflexivity.
  - apply (proj1 (proj2 (sort_strings_compose "-year" "$x")) "year desc");
      reflexivity.
  - apply (proj2 (proj2 (sort_strings_compose "-year" "title"))
             "year desc" "title asc"); reflexivity.
Defined.

(** ** More on pagination *)

(** Inside the int32 range the page count and the current page are the
    plain quotients. *)
Lemma pagination_values_exact (totalItems limit offset : Z) :
  0 <= totalItems -> 0 < limit -> 0 <= offset ->
  totalItems + limit - 1 <= int32_max -> offset <= int32_max ->
  offset / limit + 1 <= int32_max ->
  code_totalPages totalItems limit = (totalItems + limit - 1) / limit
  /\ code_currentPage offset limit = offset / limit + 1.
Proof.
  intros Ht Hl Ho B1 B2 B3. unfold int32_max in *.
  unfold code_totalPages, code_currentPage.
  rewrite sub32_add32. unfold add32.
  rewrite (wrap32_id (totalItems + limit - 1))
    by (unfold is_int32, int32_min, int32_max; lia).
  rewrite !Z.quot_div_nonneg by lia.
  rewrite wrap32_id; [split; reflexivity|].
  pose proof (Z.div_pos offset limit Ho Hl).
  unfold is_int32, int32_min, int32_max. lia.
Qed.

(** X8: for a request inside the int32 range, every link that is present
    points at a page-aligned offset, and the first, last and next links
    point inside the collection.  The last link is the page holding the
    last item; the next link is the first page-aligned offset above the
    request's offset and is absent exactly when no item lies there; the
    prev link is the page before the one holding the request's offset and
    is absent exactly when the offset is on the first page.  The prev
    link lies inside the collection when the request's offset is less
    than one page past its end, and not in general. *)
Theorem links_point_at_page_starts :
  forall (totalItems : Z) (params : GetTracksParams) (resourceName : string)
         (limit offset : Z),
    PageLimit params = Some limit ->
    PageOffset params = Some offset ->
    0 <= totalItems -> 0 < limit <= int32_max -> 0 <= offset ->
    totalItems + limit - 1 <= int32_max -> offset <= int32_max ->
    offset / limit + 1 <= int32_max ->
    exists (links : PaginationLinks) (meta : PaginationMeta),
      buildPaginationLinksAndMeta totalItems params resourceName
      = Ok (links, meta)
      /\ (totalItems = 0 ->
          First links = None /\ Last links = None /\ Next links = None)
      /\ (0 < totalItems ->
          First links = Some (link_for params resourceName limit 0)
          /\ exists o : Z,
               Last links = Some (link_for params resourceName limit o)
               /\ 0 <= o < totalItems /\ totalItems <= o + limit
               /\ o mod limit = 0)
      /\ (Next links = None <-> totalItems <= (offset / limit + 1) * limit)
      /\ (forall link : string,
             Next links = Some link ->
             exists o : Z,
               link = link_for params resourceName limit o
               /\ offset < o < totalItems /\ o <= offset + limit
               /\ o mod limit = 0)
      /\ (Prev links = None <-> offset < limit)
      /\ (forall link : string,
             Prev links = Some link ->
             exists o : Z,
               link = link_for params resourceName limit o
               /\ 0 <= o /\ o + limit <= offset < o + 2 * limit
               /\ o mod limit = 0
               /\ (offset < totalItems + limit -> o < totalItems)).
Proof.
  intros totalItems params resourceName limit offset HL HO Ht [Hl Hlm] Ho
    B1 B2 B3.
  assert (Hri : is_int32 limit /\ is_int32 offset)
    by (unfold is_int32, int32_min, int32_max in *; lia).
  destruct Hri as [Hrl Hro].
  rewrite (buildPaginationLinksAndMeta_pos totalItems params resourceName
             limit offset HL HO Hro Hl).
  cbv zeta. eexists _, _. split; [reflexivity|].
  cbn [First Last Next Prev].
  pose proof (last_offset_exact totalItems limit Hl Hrl) as HLast.
  pose proof (next_offset_exact totalItems limit offset Hl Hrl Hro) as HNext.
  pose proof (prev_offset_exact limit offset Hl Hrl Hro) as HPrev.
  destruct (pagination_values_exact totalItems limit offset Ht Hl Ho B1 B2 B3)
    as [Etp Ecp].
  rewrite Etp, Ecp in *.
  set (tp := (totalItems + limit - 1) / limit) in *.
  set (q := offset / limit) in *.
  assert (Htp : limit * tp <= totalItems + limit - 1 < limit * tp + limit).
  { pose proof (Z.div_mod (totalItems + limit - 1) limit ltac:(lia)).
    pose proof (Z.mod_pos_bound (totalItems + limit - 1) limit Hl).
    fold tp in H. lia. }
  assert (Hq : limit * q <= offset < limit * q + limit).
  { pose proof (Z.div_mod offset limit ltac:(lia)).
    pose proof (Z.mod_pos_bound offset limit Hl). fold q in H. lia. }
  split.
  { intros Hz. repeat split.
    - destruct (0 <? tp) eqn:E; [apply Z.ltb_lt in E; nia|reflexivity].
    - destruct (0 <? tp) eqn:E; [apply Z.ltb_lt in E; nia|reflexivity].
    - destruct (q + 1 <? tp) eqn:E; [apply Z.ltb_lt in E; nia|reflexivity]. }
  split.
  { intros Hp.
    destruct (0 <? tp) eqn:E; [apply Z.ltb_lt in E|apply Z.ltb_ge in E; nia].
    split; [now rewrite buildLink_explicit, first_offset_exact|].
    exists ((tp - 1) * limit).
    rewrite buildLink_explicit, HLast by assumption.
    repeat split; try nia. apply Z_mod_mult. }
  split.
  { destruct (q + 1 <? tp) eqn:E;
      [apply Z.ltb_lt in E|apply Z.ltb_ge in E];
      split; try discriminate; try reflexivity; nia. }
  split.
  { intros link H.
    destruct (q + 1 <? tp) eqn:E; [apply Z.ltb_lt in E|discriminate].
    inversion H; subst link. clear H.
    exists ((q + 1) * limit).
    rewrite buildLink_explicit, HNext by assumption.
    repeat split; try nia. apply Z_mod_mult. }
  split.
  { destruct (1 <? q + 1) eqn:E;
      [apply Z.ltb_lt in E|apply Z.ltb_ge in E];
      split; try discriminate; try reflexivity; nia. }
  intros link H.
  destruct (1 <? q + 1) eqn:E; [apply Z.ltb_lt in E|discriminate].
  inversion H; subst link. clear H.
  exists ((q + 1 - 2) * limit).
  rewrite buildLink_explicit, HPrev by assumption.
  split; [reflexivity|]. split; [nia|]. split; [nia|].
  split; [apply Z_mod_mult|nia].
Qed.

Lemma links_point_at_page_starts_witness :
  exists (links : PaginationLinks) (meta : PaginationMeta),
    buildPaginationLinksAndMeta 25 (pageParams (Some 10) (Some 10)) "/tracks"
    = Ok (links, meta)
    /\ (25 = 0 ->
        First links = None /\ Last links = None /\ Next links = None)
    /\ (0 < 25 ->
        First links
        = Some (link_for (pageParams (Some 10) (Some 10)) "/tracks" 10 0)
        /\ exists o : Z,
             Last links
             = Some (link_for (pageParams (Some 10) (Some 10)) "/tracks" 10 o)
             /\ 0 <= o < 25 /\ 25 <= o + 10 /\ o mod 10 = 0)
    /\ (Next links = None <-> 25 <= (10 / 10 + 1) * 10)
    /\ (forall link : string,
           Next links = Some link ->
           exists o : Z,
             link = link_for (pageParams (Some 10) (Some 10)) "/tracks" 10 o
             /\ 10 < o < 25 /\ o <= 10 + 10 /\ o mod 10 = 0)
    /\ (Prev links = None <-> 10 < 10)
    /\ (forall link : string,
           Prev links = Some link ->
           exists o : Z,
             link = link_for (pageParams (Some 10) (Some 10)) "/tracks" 10 o
             /\ 0 <= o /\ o + 10 <= 10 < o + 2 * 10 /\ o mod 10 = 0
             /\ (10 < 25 + 10 -> o < 25)).
Proof.
  apply (links_point_at_page_starts 25 (pageParams (Some 10) (Some 10))
           "/tracks" 10 10);
    first [reflexivity | unfold int32_max; lia
          | vm_compute; discriminate].
Defined.

(** A request far past the end of the collection: 25 items in pages of
    10, seen from offset 50.  The prev link points at offset 40, where no
    item lies. *)
Example prev_link_past_the_end :
  exists (links : PaginationLinks) (meta : PaginationMeta),
    buildPaginationLinksAndMeta 25 (pageParams (Some 10) (Some 50)) "/tracks"
    = Ok (links, meta)
    /\ Prev links = Some "/tracks?page%5Blimit%5D=10&page%5Boffset%5D=40"
    /\ Next links = None.
Proof. eexists _, _. split; [vm_compute; reflexivity|]. split; reflexivity. Qed.

Lemma link_for_withPageOffset (params : GetTracksParams)
  (resourceName : string) (o : option Z) (limit offset : Z) :
  link_for (withPageOffset params o) resourceName limit offset
  = link_for params resourceName limit offset.
Proof. reflexivity. Qed.

(** X9: following the next link and then the prev link.  When a request
    has a next link, the request for that link's offset is on the
    following page, has the same page count, and its prev link leads to
    the start of the page that holds the original offset. *)
Theorem next_then_prev_returns_to_page_start :
  forall (totalItems : Z) (params : GetTracksParams) (resourceName : string)
         (limit offset : Z),
    PageLimit params = Some limit ->
    PageOffset params = Some offset ->
    0 <= totalItems -> 0 < limit <= int32_max -> 0 <= offset ->
    totalItems + limit - 1 <= int32_max ->
    (offset / limit + 1) * limit < totalItems ->
    exists (links links' : PaginationLinks) (meta meta' : PaginationMeta),
      buildPaginationLinksAndMeta totalItems params resourceName
      = Ok (links, meta)
      /\ Next links
         = Some (link_for params resourceName limit
                   ((offset / limit + 1) * limit))
      /\ buildPaginationLinksAndMeta totalItems
           (withPageOffset params (Some ((offset / limit + 1) * limit)))
           resourceName
         = Ok (links', meta')
      /\ CurrentPage meta = Some (offset / limit + 1)
      /\ CurrentPage meta' = Some (offset / limit + 2)
      /\ TotalPages meta' = TotalPages meta
      /\ Prev links'
         = Some (link_for params resourceName limit (offset / limit * limit)).
Proof.
  intros totalItems params resourceName limit offset HL HO Ht [Hl Hlm] Ho
    B1 Hnext.
  set (q := offset / limit) in *.
  assert (Hq : limit * q <= offset < limit * q + limit).
  { pose proof (Z.div_mod offset limit ltac:(lia)).
    pose proof (Z.mod_pos_bound offset limit Hl). fold q in H. lia. }
  assert (Hq0 : 0 <= q) by (apply Z.div_pos; lia).
  unfold int32_max in *.
  set (o' := (q + 1) * limit) in *.
  assert (Eq' : o' / limit = q + 1)
    by (unfold o'; apply Z.div_mul; lia).
  assert (Hrl : is_int32 limit)
    by (unfold is_int32, int32_min, int32_max; lia).
  assert (Hro : is_int32 offset)
    by (unfold is_int32, int32_min, int32_max; nia).
  assert (Hro' : is_int32 o')
    by (unfold is_int32, int32_min, int32_max; nia).
  destruct (pagination_values_exact totalItems limit offset)
    as [Etp Ecp]; try (unfold int32_max; fold q; nia); try lia.
  destruct (pagination_values_exact totalItems limit o')
    as [_ Ecp']; try (unfold int32_max; rewrite ?Eq'; nia); try lia.
  rewrite Eq' in Ecp'. fold q in Ecp.
  set (tp := (totalItems + limit - 1) / limit) in *.
  assert (Htp : limit * tp <= totalItems + limit - 1 < limit * tp + limit).
  { pose proof (Z.div_mod (totalItems + limit - 1) limit ltac:(lia)).
    pose proof (Z.mod_pos_bound (totalItems + limit - 1) limit Hl).
    fold tp in H. lia. }
  rewrite (buildPaginationLinksAndMeta_pos totalItems params resourceName
             limit offset HL HO Hro Hl).
  rewrite (buildPaginationLinksAndMeta_pos totalItems
             (withPageOffset params (Some o')) resourceName
             limit o' HL eq_refl Hro' Hl).
  cbv zeta. eexists _, _, _, _.
  split; [reflexivity|]. cbn [Next Prev CurrentPage TotalPages].
  unfold is_int32, int32_min, int32_max in Hro, Hro', Hrl.
  subst o'. clear Eq'. clearbody q tp.
  assert (Hn0 : 0 <= (q + 1) * limit) by (apply Z.mul_nonneg_nonneg; lia).
  assert (Hp0 : 0 <= q * limit) by (apply Z.mul_nonneg_nonneg; lia).
  assert (Hpq : q * limit <= (q + 1) * limit) by lia.
  split.
  { rewrite Ecp, Etp.
    destruct (q + 1 <? tp) eqn:E; [|apply Z.ltb_ge in E; nia].
    apply Z.ltb_lt in E. rewrite buildLink_explicit.
    unfold mul32. rewrite wrap32_id; [reflexivity|].
    unfold is_int32, int32_min, int32_max. lia. }
  split; [reflexivity|]. cbn [Prev CurrentPage TotalPages].
  split; [now rewrite Ecp|].
  split; [rewrite Ecp'; apply f_equal; lia|].
  split; [reflexivity|].
  rewrite Ecp'.
  destruct (1 <? q + 1 + 1) eqn:E; [|apply Z.ltb_ge in E; lia].
  apply Z.ltb_lt in E. rewrite buildLink_explicit, link_for_withPageOffset.
  unfold sub32, mul32.
  replace (q + 1 + 1 - 2) with q by lia.
  rewrite (wrap32_id q) by (unfold is_int32, int32_min, int32_max; nia).
  rewrite wrap32_id by (unfold is_int32, int32_min, int32_max; lia).
  reflexivity.
Qed.

Lemma next_then_prev_returns_to_page_start_witness :
  exists (links links' : PaginationLinks) (meta meta' : PaginationMeta),
    buildPaginationLinksAndMeta 25 (pageParams (Some 10) (Some 3)) "/tracks"
    = Ok (links, meta)
    /\ Next links
       = Some (link_for (pageParams (Some 10) (Some 3)) "/tracks" 10
                 ((3 / 10 + 1) * 10))
    /\ buildPaginationLinksAndMeta 25
         (withPageOffset (pageParams (Some 10) (Some 3))
            (Some ((3 / 10 + 1) * 10)))
         "/tracks"
       = Ok (links', meta')
    /\ CurrentPage meta = Some (3 / 10 + 1)
    /\ CurrentPage meta' = Some (3 / 10 + 2)
    /\ TotalPages meta' = TotalPages meta
    /\ Prev links'
       = Some (link_for (pageParams (Some 10) (Some 3)) "/tracks" 10
                 (3 / 10 * 10)).
Proof.
  apply (next_then_prev_returns_to_page_start 25
           (pageParams (Some 10) (Some 3)) "/tracks" 10 3);
    first [reflexivity | unfold int32_max; lia
          | vm_compute; discriminate].
Defined.

(** ** Escaped queries *)

Lemma QueryEscape_cons (c : ascii) (s : string) :
  url.QueryEscape (String c s)
  = url.QueryEscape (String c "") ++ url.QueryEscape s.
Proof.
  cbn [url.QueryEscape].
  destruct (url.shouldEscape c); [destruct (Ascii.eqb c " ")|]; reflexivity.
Qed.

Lemma QueryEscape_byte_safe (c : ascii) :
  forallb query_safe (list_ascii_of_string (url.QueryEscape (String c "")))
  = true.
Proof.
  destruct c as [[] [] [] [] [] [] [] []]; vm_compute; reflexivity.
Qed.

Lemma list_ascii_of_string_app (a b : string) :
  list_ascii_of_string (a ++ b)
  = (list_ascii_of_string a ++ list_ascii_of_string b)%list.
Proof. induction a as [|x a IH]; simpl; [reflexivity|now rewrite IH]. Qed.

Lemma QueryEscape_safe (s : string) :
  forallb query_safe (list_ascii_of_string (url.QueryEscape s)) = true.
Proof.
  induction s as [|c s IH]; [reflexivity|].
  rewrite QueryEscape_cons, list_ascii_of_string_app, forallb_app.
  now rewrite QueryEscape_byte_safe, IH.
Qed.

Lemma QueryEscape_lacks (c : ascii) (s : string) :
  query_safe c = false -> ~ has_byte c (url.QueryEscape s).
Proof.
  intros Hc Hin. pose proof (QueryEscape_safe s) as H.
  rewrite forallb_forall in H. specialize (H c Hin). congruence.
Qed.

Lemma unescape_byte (c : ascii) (s : string) :
  unescape (url.QueryEscape (String c "") ++ s)
  = option_map (String c) (unescape s).
Proof.
  destruct c as [[] [] [] [] [] [] [] []]; reflexivity.
Qed.

(** Reading back what [QueryEscape] wrote gives the original text. *)
Lemma unescape_QueryEscape (s : string) :
  unescape (url.QueryEscape s) = Some s.
Proof.
  induction s as [|c s IH]; [reflexivity|].
  now rewrite QueryEscape_cons, unescape_byte, IH.
Qed.

Lemma QueryEscape_injective (a b : string) :
  url.QueryEscape a = url.QueryEscape b -> a = b.
Proof.
  intros H. apply (f_equal unescape) in H.
  rewrite !unescape_QueryEscape in H. now inversion H.
Qed.

Lemma render_entry_cut (e : string * string) :
  strings.cut "=" (render_entry e)
  = Some (url.QueryEscape (fst e), url.QueryEscape (snd e)).
Proof.
  unfold render_entry. change ("=" ++ url.QueryEscape (snd e))
    with (String "=" (url.QueryEscape (snd e))).
  rewrite cut_append by (apply QueryEscape_lacks; reflexivity).
  now rewrite cut_head, append_nil_r.
Qed.

Lemma render_entry_injective (e1 e2 : string * string) :
  render_entry e1 = render_entry e2 -> e1 = e2.
Proof.
  intros H. apply (f_equal (strings.cut "=")) in H.
  rewrite !render_entry_cut in H. inversion H as [[Hk Hv]].
  apply QueryEscape_injective in Hk, Hv.
  destruct e1, e2. simpl in *. congruence.
Qed.

Lemma render_entry_lacks_amp (e : string * string) :
  ~ has_byte "&" (render_entry e).
Proof.
  unfold render_entry. rewrite !has_byte_append.
  intros [H|[H|H]].
  - revert H. apply QueryEscape_lacks. reflexivity.
  - unfold has_byte in H. simpl in H. intuition discriminate.
  - revert H. apply QueryEscape_lacks. reflexivity.
Qed.

(** Splitting a joined list at the separator gives the list back, when
    no element holds the separator. *)
Lemma Split_Join (sep : ascii) (l : list string) :
  l <> [] -> Forall (fun x => ~ has_byte sep x) l ->
  strings.Split (strings.Join l (String sep "")) sep = l.
Proof.
  unfold strings.Join. intros Hne Hall.
  induction Hall as [|x l Hx Hl IH]; [contradiction|].
  destruct l as [|y l].
  - cbn. now apply Split_without_separator.
  - change (String.concat (String sep "") (x :: y :: l))
      with (x ++ String sep (String.concat (String sep "") (y :: l))).
    rewrite Split_joined, (Split_without_separator sep x Hx).
    rewrite IH by discriminate. reflexivity.
Qed.

Lemma render_query_injective (es1 es2 : list (string * string)) :
  es1 <> [] -> es2 <> [] ->
  render_query es1 = render_query es2 -> es1 = es2.
Proof.
  unfold render_query. intros H1 H2 H.
  apply (f_equal (fun q => strings.Split q "&")) in H.
  rewrite !Split_Join in H.
  - revert es2 H2 H. induction es1 as [|e1 es1 IH]; [contradiction|].
    intros [|e2 es2] _ H; [discriminate|].
    cbn [map] in H. inversion H as [[He Hes]].
    apply render_entry_injective in He. subst e2. f_equal.
    destruct es1 as [|a es1], es2 as [|b es2]; try reflexivity;
      try discriminate.
    apply IH; [discriminate|discriminate|exact Hes].
  - destruct es2; [contradiction|discriminate].
  - apply Forall_forall. intros x Hx. apply in_map_iff in Hx.
    destruct Hx as [e [<- _]]. apply render_entry_lacks_amp.
  - destruct es1; [contradiction|discriminate].
  - apply Forall_forall. intros x Hx. apply in_map_iff in Hx.
    destruct Hx as [e [<- _]]. apply render_entry_lacks_amp.
Qed.

Lemma append_cancel_l (a b c : string) : a ++ b = a ++ c -> b = c.
Proof.
  induction a as [|x a IH]; simpl; intros H; [exact H|].
  inversion H. auto.
Qed.

Lemma link_entries_nonempty (params : GetTracksParams) (l o : string) :
  link_entries params l o <> [].
Proof.
  unfold link_entries. intros H.
  apply app_eq_nil in H. destruct H as [_ H]. discriminate.
Qed.

Lemma entry_values_app (k : string) (a b : list (string * string)) :
  entry_values k (a ++ b) = (entry_values k a ++ entry_values k b)%list.
Proof. unfold entry_values. now rewrite filter_app, map_app. Qed.

Lemma entry_values_family (k k' : string) (vals : option (list string)) :
  entry_values k (family_entries k' vals)
  = if String.eqb k' k then values_of vals else [].
Proof.
  unfold entry_values. destruct vals as [l|]; simpl.
  - induction l as [|x l IH]; simpl.
    + now destruct (String.eqb k' k).
    + destruct (String.eqb k' k); simpl; now rewrite IH.
  - now destruct (String.eqb k' k).
Qed.

Lemma entry_values_optional (k k' : string) (o : option string) :
  entry_values k (optional_entry k' o)
  = if String.eqb k' k then optional_value o else [].
Proof.
  unfold entry_values. destruct o as [x|]; simpl;
    destruct (String.eqb k' k); reflexivity.
Qed.

Lemma entry_values_single (k k' x : string) :
  entry_values k [(k', x)] = if String.eqb k' k then [x] else [].
Proof. unfold entry_values. simpl. now destruct (String.eqb k' k). Qed.

(** The values a link holds under a key. *)
Lemma entry_values_link (params : GetTracksParams) (l o k : string) :
  entry_values k (link_entries params l o)
  = ((if String.eqb "filter[contains]" k
      then values_of (FilterContains params) else [])
     ++ (if String.eqb "filter[endsWith]" k
         then values_of (FilterEndsWith params) else [])
     ++ (if String.eqb "filter[equals]" k
         then values_of (FilterEquals params) else [])
     ++ (if String.eqb "filter[greaterOrEqual]" k
         then values_of (FilterGreaterOrEqual params) else [])
     ++ (if String.eqb "filter[greaterThan]" k
         then values_of (FilterGreaterThan params) else [])
     ++ (if String.eqb "filter[lessOrEqual]" k
         then values_of (FilterLessOrEqual params) else [])
     ++ (if String.eqb "filter[lessThan]" k
         then values_of (FilterLessThan params) else [])
     ++ (if String.eqb "filter[startsWith]" k
         then values_of (FilterStartsWith params) else [])
     ++ (if String.eqb "include" k
         then optional_value (Include params) else [])
     ++ (if String.eqb "page[limit]" k then [l] else [])
     ++ (if String.eqb "page[offset]" k then [o] else [])
     ++ (if String.eqb "sort" k then optional_value (Sort params) else []))%list.
Proof.
  unfold link_entries, entries_before_offset, entries_after_offset.
  rewrite !entry_values_app, !entry_values_family, !entry_values_optional,
    !entry_values_single.
  rewrite <- !app_assoc. reflexivity.
Qed.

Lemma optional_value_injective (a b : option string) :
  optional_value a = optional_value b -> a = b.
Proof. destruct a, b; simpl; congruence. Qed.

Lemma Itoa_injective (a b : Z) : strconv.Itoa a = strconv.Itoa b -> a = b.
Proof.
  unfold strconv.Itoa. intros H.
  apply (f_equal NilZero.int_of_string) in H.
  rewrite !NilZero.isi in H.
  - inversion H as [H']. now apply DecimalZ.to_int_inj.
  - destruct b; simpl; try discriminate.
    intros E. inversion E as [E'].
    exact (DecimalPos.Unsigned.to_uint_nonnil _ E').
  - destruct b; simpl; try discriminate.
    intros E. inversion E as [E'].
    exact (DecimalPos.Unsigned.to_uint_nonnil _ E').
  - destruct a; simpl; try discriminate.
    intros E. inversion E as [E'].
    exact (DecimalPos.Unsigned.to_uint_nonnil _ E').
  - destruct a; simpl; try discriminate.
    intros E. inversion E as [E'].
    exact (DecimalPos.Unsigned.to_uint_nonnil _ E').
Qed.

Lemma link_entries_read_back (params : GetTracksParams) (l o : string) :
  let es := link_entries params l o in
  entry_values "filter[equals]" es = values_of (FilterEquals params)
  /\ entry_values "filter[contains]" es = values_of (FilterContains params)
  /\ entry_values "filter[startsWith]" es = values_of (FilterStartsWith params)
  /\ entry_values "filter[endsWith]" es = values_of (FilterEndsWith params)
  /\ entry_values "filter[greaterThan]" es
     = values_of (FilterGreaterThan params)
  /\ entry_values "filter[greaterOrEqual]" es
     = values_of (FilterGreaterOrEqual params)
  /\ entry_values "filter[lessThan]" es = values_of (FilterLessThan params)
  /\ entry_values "filter[lessOrEqual]" es
     = values_of (FilterLessOrEqual params)
  /\ entry_values "sort" es = optional_value (Sort params)
  /\ entry_values "include" es = optional_value (Include params)
  /\ entry_values "page[limit]" es = [l]
  /\ entry_values "page[offset]" es = [o].
Proof.
  cbv zeta. rewrite !entry_values_link. eval_key_tests.
  cbn [app]. rewrite !app_nil_r. repeat split.
Qed.

(** X10: a link can be read back.  Two links built for the same resource
    name are equal only if the requests agree on the values of every
    filter family, on the sort and include parameters, on the page limit
    and on the offset encoded. *)
Theorem equal_links_carry_equal_parameters :
  forall (p1 p2 : GetTracksParams) (resourceName : string)
         (limit1 limit2 page1 page2 : Z),
    buildLink p1 resourceName limit1 page1
    = buildLink p2 resourceName limit2 page2 ->
    values_of (FilterEquals p1) = values_of (FilterEquals p2)
    /\ values_of (FilterContains p1) = values_of (FilterContains p2)
    /\ values_of (FilterStartsWith p1) = values_of (FilterStartsWith p2)
    /\ values_of (FilterEndsWith p1) = values_of (FilterEndsWith p2)
    /\ values_of (FilterGreaterThan p1) = values_of (FilterGreaterThan p2)
    /\ values_of (FilterGreaterOrEqual p1)
       = values_of (FilterGreaterOrEqual p2)
    /\ values_of (FilterLessThan p1) = values_of (FilterLessThan p2)
    /\ values_of (FilterLessOrEqual p1) = values_of (FilterLessOrEqual p2)
    /\ Sort p1 = Sort p2
    /\ Include p1 = Include p2
    /\ limit1 = limit2
    /\ mul32 page1 limit1 = mul32 page2 limit2.
Proof.
  intros p1 p2 resourceName limit1 limit2 page1 page2 H.
  rewrite !buildLink_explicit in H. unfold link_for in H.
  apply append_cancel_l, append_cancel_l in H.
  apply render_query_injective in H; try apply link_entries_nonempty.
  pose proof (link_entries_read_back p1 (strconv.Itoa limit1)
                (strconv.Itoa (mul32 page1 limit1))) as R1.
  pose proof (link_entries_read_back p2 (strconv.Itoa limit2)
                (strconv.Itoa (mul32 page2 limit2))) as R2.
  cbv zeta in R1, R2. rewrite H in R1.
  destruct R1 as [A1 [A2 [A3 [A4 [A5 [A6 [A7 [A8 [A9 [A10 [A11 A12]]]]]]]]]]].
  destruct R2 as [B1 [B2 [B3 [B4 [B5 [B6 [B7 [B8 [B9 [B10 [B11 B12]]]]]]]]]]].
  repeat split; try congruence.
  - apply optional_value_injective. congruence.
  - apply optional_value_injective. congruence.
  - apply Itoa_injective. congruence.
  - apply Itoa_injective. congruence.
Qed.

Lemma equal_links_carry_equal_parameters_witness :
  Sort (pageParams (Some 10) (Some 0)) = Sort (pageParams (Some 10) (Some 5))
  /\ mul32 2 10 = mul32 2 10.
Proof.
  pose proof (equal_links_carry_equal_parameters
                (pageParams (Some 10) (Some 0)) (pageParams (Some 10) (Some 5))
                "/tracks" 10 10 2 2 eq_refl) as H.
  split; [apply H|apply H].
Defined.

(** X11: the query of a link is made of escaped keys and values and the
    separators [&] and [=] only: apart from those two it holds nothing but
    ASCII letters and digits, [-], [_], [.], [~], [%] and [+], whatever
    bytes the filter values, the sort string and the include string
    hold. *)
Theorem link_query_bytes_are_safe :
  forall (params : GetTracksParams) (resourceName : string)
         (pageLimit page : Z),
    exists q : string,
      buildLink params resourceName pageLimit page = resourceName ++ "?" ++ q
      /\ Forall
           (fun c => query_safe c = true \/ c = "&"%char \/ c = "="%char)
           (list_ascii_of_string q).
Proof.
  intros params resourceName pageLimit page.
  rewrite buildLink_explicit. unfold link_for. eexists. split; [reflexivity|].
  unfold render_query, strings.Join.
  induction (link_entries params (strconv.Itoa pageLimit)
               (strconv.Itoa (mul32 page pageLimit))) as [|e es IH];
    [constructor|].
  assert (He : Forall
                 (fun c => query_safe c = true \/ c = "&"%char \/ c = "="%char)
                 (list_ascii_of_string (render_entry e))).
  { unfold render_entry. rewrite !list_ascii_of_string_app.
    apply Forall_app; split; [|apply Forall_app; split].
    - apply Forall_forall. intros c Hc. left.
      pose proof (QueryEscape_safe (fst e)) as Hs.
      rewrite forallb_forall in Hs. auto.
    - constructor; [right; now right|constructor].
    - apply Forall_forall. intros c Hc. left.
      pose proof (QueryEscape_safe (snd e)) as Hs.
      rewrite forallb_forall in Hs. auto. }
  cbn [map String.concat]. destruct (map render_entry es) as [|x xs] eqn:E.
  - exact He.
  - rewrite !list_ascii_of_string_app.
    apply Forall_app. split; [exact He|].
    apply Forall_app. split; [|exact IH].
    constructor; [right; now left|constructor].
Qed.

(** ** More on the error formatter *)

Lemma Is_wrapError (msg : string) (err target : errors.error) :
  target = errors.ErrNotAuthorized \/ target = errors.ErrNotFound ->
  errors.Is (errors.wrapError msg err) target = errors.Is err target.
Proof. intros [-> | ->]; reflexivity. Qed.

Lemma Is_joinError (errs : list errors.error) (target : errors.error) :
  errors.Is (errors.joinError errs) target
  = existsb (fun e => errors.Is e target) errs.
Proof. cbn [errors.Is errors.eqb]. now destruct target. Qed.

(** X12: the error formatter reads an error through [errors.Is] on the
    two sentinels only.  Wrapping an error with one [%w] changes nothing
    in the response; a joined error is answered like [ErrNotAuthorized]
    when one of its members is a not-authorized error, otherwise like
    [ErrNotFound] when one of its members is a not-found error, and
    otherwise like an error of neither kind; an error made by
    [errors.New] is answered as an internal error whatever its text. *)
Theorem apiErrorHandler_reads_error_tree :
  forall w : ResponseWriter,
    (forall (msg : string) (err : errors.error),
        apiErrorHandler w (errors.wrapError msg err) = apiErrorHandler w err)
    /\ (forall errs : list errors.error,
           apiErrorHandler w (errors.joinError errs)
           = if existsb (fun e => errors.Is e errors.ErrNotAuthorized) errs
             then apiErrorHandler w errors.ErrNotAuthorized
             else if existsb (fun e => errors.Is e errors.ErrNotFound) errs
                  then apiErrorHandler w errors.ErrNotFound
                  else apiErrorHandler w (errors.New ""))
    /\ (forall text : string,
           rwBody (apiErrorHandler w (errors.New text))
           = (rwBody w
              ++ [ {| Errors :=
                        [ {| Status := Some "500";
                             Title := Some "Internal Server Error";
                             Detail := None |} ] |} ])%list).
Proof.
  intros w. split; [|split].
  - intros msg err. unfold apiErrorHandler.
    now rewrite !Is_wrapError by auto.
  - intros errs. unfold apiErrorHandler. rewrite !Is_joinError.
    destruct (existsb _ errs); [reflexivity|].
    destruct (existsb _ errs); reflexivity.
  - intros text. reflexivity.
Qed.

Lemma Header_Set_other (h : list (string * string)) (a x key : string) :
  key <> a -> Header_Get (Header_Set h a x) key = Header_Get h key.
Proof.
  intros Hk. induction h as [|[k y] h IH]; cbn [Header_Set Header_Get].
  - destruct (String.eqb_spec a key); [congruence|reflexivity].
  - destruct (String.eqb_spec k a) as [->|Hne]; cbn [Header_Get].
    + destruct (String.eqb_spec a key); [congruence|reflexivity].
    + destruct (String.eqb k key); [reflexivity|exact IH].
Qed.

(** X13: the error formatter touches nothing but the content type, the
    status and the end of the body: every other header keeps its value,
    and what was written to the body before stays in front. *)
Theorem apiErrorHandler_frame :
  forall (w : ResponseWriter) (err : errors.error) (key : string),
    key <> "Content-Type" ->
    Header_Get (rwHeader (apiErrorHandler w err)) key
    = Header_Get (rwHeader w) key
    /\ firstn (List.length (rwBody w)) (rwBody (apiErrorHandler w err))
       = rwBody w
    /\ List.length (rwBody (apiErrorHandler w err))
       = S (List.length (rwBody w)).
Proof.
  intros w err key Hk. unfold apiErrorHandler.
  cbn [jsonEncode WriteHeader setHeader rwBody rwHeader]. unfold go_append.
  split; [|split].
  - now apply Header_Set_other.
  - rewrite firstn_app, Nat.sub_diag, firstn_all. simpl. apply app_nil_r.
  - rewrite length_app. simpl. lia.
Qed.

Lemma apiErrorHandler_frame_witness :
  Header_Get
    (rwHeader
       (apiErrorHandler
          {| rwHeader := [("X-Request-Id", "42")]; rwStatus := None;
             rwBody := [] |}
          errors.ErrNotFound))
    "X-Request-Id"
  = Some "42".
Proof.
  apply (proj1 (apiErrorHandler_frame
                  {| rwHeader := [("X-Request-Id", "42")]; rwStatus := None;
                     rwBody := [] |}
                  errors.ErrNotFound "X-Request-Id" ltac:(discriminate))).
Defined.

(** ** Track documents *)

Section TrackFacts.

Variable DurationT : Type.
Variables ResourceTypeTrack ResourceTypeArtist ResourceTypeAlbum : string.
Variables ArtistRoleAlbumArtist ArtistRoleArtist : string.
Variable ContentType : MediaFile DurationT -> string.

Let convert : MediaFile DurationT -> Track DurationT :=
  toAPITrack DurationT ResourceTypeTrack ResourceTypeArtist ResourceTypeAlbum
    ArtistRoleAlbumArtist ArtistRoleArtist ContentType.

Lemma store_middle {A : Type} (done rest : list A) (old new : A) :
  store (done ++ old :: rest) (List.length done) new
  = Ok (done ++ new :: rest)%list.
Proof.
  unfold store. rewrite length_app. cbn [List.length].
  assert (H : (List.length done <? List.length done + S (List.length rest))%nat
              = true) by (apply Nat.ltb_lt; lia).
  rewrite H. f_equal.
  induction done as [|x done IH]; [reflexivity|].
  cbn [List.length app firstn skipn]. f_equal. apply IH.
  apply Nat.ltb_lt. lia.
Qed.

Lemma toAPITracks_loop_fills (mfs : list (MediaFile DurationT)) :
  forall rest done : list (MediaFile DurationT),
    mfs = (done ++ rest)%list ->
    toAPITracks_loop DurationT ResourceTypeTrack ResourceTypeArtist
      ResourceTypeAlbum ArtistRoleAlbumArtist ArtistRoleArtist ContentType
      mfs (List.length rest) (List.length done)
      (map convert done ++ repeat (zeroTrack DurationT) (List.length rest))
    = Ok (map convert mfs).
Proof.
  induction rest as [|mf rest IH]; intros done Hm.
  - cbn. rewrite Hm, !app_nil_r. reflexivity.
  - cbn [List.length toAPITracks_loop repeat].
    assert (Hi : index mfs (List.length done) = Ok mf).
    { unfold index. rewrite Hm, nth_error_app2, Nat.sub_diag by lia.
      reflexivity. }
    rewrite Hi. cbn [bind].
    rewrite <- (length_map convert done) at 1.
    rewrite store_middle. cbn [bind].
    specialize (IH (done ++ [mf])%list).
    rewrite length_app, map_app, <- !app_assoc in IH.
    cbn [List.length map app] in IH.
    rewrite Nat.add_1_r in IH. apply IH. exact Hm.
Qed.

(** X14: [toAPITracks] never panics and converts the media files one for
    one: the result has the length of the input and holds at each index
    the track of the media file at that index. *)
Theorem toAPITracks_converts_pointwise :
  forall mfs : list (MediaFile DurationT),
    toAPITracks DurationT ResourceTypeTrack ResourceTypeArtist
      ResourceTypeAlbum ArtistRoleAlbumArtist ArtistRoleArtist ContentType mfs
    = Ok (map convert mfs)
    /\ List.length (map convert mfs) = List.length mfs
    /\ forall i : nat,
         nth_error (map convert mfs) i = option_map convert (nth_error mfs i).
Proof.
  intros mfs. split; [|split].
  - unfold toAPITracks. cbv zeta.
    exact (toAPITracks_loop_fills mfs mfs [] eq_refl).
  - apply length_map.
  - intros i. apply nth_error_map.
Qed.

(** X15: the relationships of a track.  There is always exactly one album
    relationship, carrying the album id as it is, empty or not; the artist
    relationships are the album artist and then the artist, each only when
    its id is not empty, so no artist relationship has an empty id. *)
Theorem track_relationships :
  forall mf : MediaFile DurationT,
    exists rels : TrackRelationships,
      trackRelationships DurationT (convert mf) = Some rels
      /\ relAlbums rels
         = Some [ {| atrData := {| roType := ResourceTypeAlbum;
                                   roId := mfAlbumID DurationT mf |} |} ]
      /\ relArtists rels
         = map (fun x =>
                  {| tarData := {| roType := ResourceTypeArtist;
                                   roId := fst x |};
                     tarMetaRole := snd x |})
             (filter (fun x => negb (String.eqb (fst x) ""))
                [ (mfAlbumArtistID DurationT mf, ArtistRoleAlbumArtist);
                  (mfArtistID DurationT mf, ArtistRoleArtist) ])
      /\ Forall (fun r => roId (tarData r) <> "") (relArtists rels).
Proof.
  intros mf. eexists. split; [reflexivity|]. cbn [relAlbums relArtists].
  split; [reflexivity|].
  unfold trackArtistRelationships, toArtistRelationship, go_append.
  cbn [filter fst snd].
  destruct (String.eqb_spec (mfAlbumArtistID DurationT mf) "") as [E1|E1];
    destruct (String.eqb_spec (mfArtistID DurationT mf) "") as [E2|E2];
    cbn [negb app map]; (split; [reflexivity|]);
    repeat constructor; assumption.
Qed.

End TrackFacts.
